(** * Ordered property maps: a shallow embedding of [properties.go],
      [debug.go] and the quoted-string tokenizer, with the properties
      checked against them.

    Go strings are byte sequences: they are modelled by [string] (a list of
    [ascii] bytes).  The Go [map[string]string] of a [Map] is a
    [gmap string string]; the order slice is a [list string].  Go [int] and
    [rune] values are modelled by [Z]. *)

From Stdlib Require Import ZArith Ascii String List Lia Permutation Sorting.Sorted.
From stdpp Require Import base gmap strings list fin_maps sorting.

Local Open Scope Z_scope.
Local Open Scope list_scope.

(** ** The [strings] package functions used by the sources *)

Module Strings.

(** [len(s)] as a Go [int]. *)
Definition len (s : string) : Z := Z.of_nat (String.length s).

(** [strings.HasPrefix(s, prefix)]. *)
Fixpoint HasPrefix (s prefix : string) : bool :=
  match prefix, s with
  | EmptyString, _ => true
  | String _ _, EmptyString => false
  | String a prefix', String b s' => Ascii.eqb a b && HasPrefix s' prefix'
  end.

(** [strings.Contains(s, substr)]. *)
Fixpoint Contains (s substr : string) : bool :=
  HasPrefix s substr ||
  match s with
  | EmptyString => false
  | String _ s' => Contains s' substr
  end.

(** [strings.Index(s, substr)]: the position of the first occurrence of
    [substr] in [s], [None] for Go's [-1]. *)
Fixpoint Index (s substr : string) : option nat :=
  if HasPrefix s substr then Some O
  else match s with
       | EmptyString => None
       | String _ s' => option_map S (Index s' substr)
       end.

(** [s[n:]] for [n <= len(s)]. *)
Fixpoint drop (n : nat) (s : string) : string :=
  match n, s with
  | O, _ => s
  | S _, EmptyString => EmptyString
  | S n', String _ s' => drop n' s'
  end.

(** The replacement loop of [strings.Replace(s, old, new, n)] for a
    non-empty [old]: the text is scanned left to right; [skip] counts the
    bytes of a matched occurrence of [old] that are still to be dropped,
    [n] is the number of replacements still allowed ([None]: no limit).
    Occurrences are therefore replaced leftmost-first and never overlap. *)
Fixpoint replace_from (skip : nat) (n : option nat) (old new s : string) : string :=
  match s with
  | EmptyString => EmptyString
  | String c s' =>
      match skip with
      | S k => replace_from k n old new s'
      | O =>
          match n with
          | Some O => s
          | _ =>
              if HasPrefix s old
              then new +:+ replace_from (Nat.pred (String.length old))
                            (option_map Nat.pred n) old new s'
              else String c (replace_from O n old new s')
          end
      end
  end.

(** [strings.Replace(s, old, new, n)] where [old] is not empty, which is
    the case at both call sites ([old] starts with an opening brace in
    [expandProps] and with a dot in [parseLine]).  A negative [n] means no
    limit.  Go returns [s] itself when [old == new] or [n == 0]. *)
Definition Replace (s old new : string) (n : Z) : string :=
  if String.eqb old new || Z.eqb n 0 then s
  else replace_from O (if Z.ltb n 0 then None else Some (Z.to_nat n)) old new s.

End Strings.

(** ** The [unicode/utf8] and [unicode] package functions *)

Module Utf8.

Definition RuneError : Z := 0xFFFD.
Definition RuneSelf : Z := 0x80.
Definition UTFMax : Z := 4.

Definition byte_of (c : ascii) : Z := Z.of_N (N_of_ascii c).

Definition in_range (lo hi b : Z) : bool := Z.leb lo b && Z.leb b hi.

(** The [first] table of the package with its accept ranges: for a leading
    byte, the length of the sequence and the range allowed for the second
    byte.  [None] for bytes that cannot start a multi-byte sequence. *)
Definition first_info (b0 : Z) : option (nat * Z * Z) :=
  if in_range 0xC2 0xDF b0 then Some (2%nat, 0x80, 0xBF)
  else if Z.eqb b0 0xE0 then Some (3%nat, 0xA0, 0xBF)
  else if in_range 0xE1 0xEC b0 then Some (3%nat, 0x80, 0xBF)
  else if Z.eqb b0 0xED then Some (3%nat, 0x80, 0x9F)
  else if in_range 0xEE 0xEF b0 then Some (3%nat, 0x80, 0xBF)
  else if Z.eqb b0 0xF0 then Some (4%nat, 0x90, 0xBF)
  else if in_range 0xF1 0xF3 b0 then Some (4%nat, 0x80, 0xBF)
  else if Z.eqb b0 0xF4 then Some (4%nat, 0x80, 0x8F)
  else None.

(** One decoding step: the rune, its width in bytes, and whether the bytes
    were a well-formed encoding.  An ill-formed or truncated sequence gives
    [(RuneError, 1)], the empty string [(RuneError, 0)]. *)
Definition decode (s : string) : Z * nat * bool :=
  match s with
  | EmptyString => (RuneError, 0%nat, false)
  | String c0 t0 =>
      let b0 := byte_of c0 in
      if Z.ltb b0 RuneSelf then (b0, 1%nat, true)
      else
        match first_info b0, t0 with
        | Some (sz, lo, hi), String c1 t1 =>
            let b1 := byte_of c1 in
            if negb (in_range lo hi b1) then (RuneError, 1%nat, false)
            else if Nat.eqb sz 2 then
              (Z.lor (Z.shiftl (Z.land b0 0x1F) 6) (Z.land b1 0x3F), 2%nat, true)
            else
              match t1 with
              | String c2 t2 =>
                  let b2 := byte_of c2 in
                  if negb (in_range 0x80 0xBF b2) then (RuneError, 1%nat, false)
                  else if Nat.eqb sz 3 then
                    (Z.lor (Z.shiftl (Z.land b0 0x0F) 12)
                       (Z.lor (Z.shiftl (Z.land b1 0x3F) 6) (Z.land b2 0x3F)),
                     3%nat, true)
                  else
                    match t2 with
                    | String c3 _ =>
                        let b3 := byte_of c3 in
                        if negb (in_range 0x80 0xBF b3) then (RuneError, 1%nat, false)
                        else
                          (Z.lor (Z.shiftl (Z.land b0 0x07) 18)
                             (Z.lor (Z.shiftl (Z.land b1 0x3F) 12)
                                (Z.lor (Z.shiftl (Z.land b2 0x3F) 6) (Z.land b3 0x3F))),
                           4%nat, true)
                    | EmptyString => (RuneError, 1%nat, false)
                    end
              | EmptyString => (RuneError, 1%nat, false)
              end
        | _, _ => (RuneError, 1%nat, false)
        end
  end.

(** [utf8.DecodeRuneInString(s)] *)
Definition DecodeRuneInString (s : string) : Z * Z :=
  let '(r, size, _) := decode s in (r, Z.of_nat size).

(** The runes of [s] with their widths, as [for _, r := range s] visits
    them; [fuel] bounds the number of steps (each consumes a byte or more). *)
Fixpoint runes_from (fuel : nat) (s : string) : list (Z * nat * bool) :=
  match fuel, s with
  | O, _ => []
  | _, EmptyString => []
  | S fuel', String _ _ =>
      let '(r, size, ok) := decode s in
      (r, size, ok) :: runes_from fuel' (Strings.drop size s)
  end.

Definition runes (s : string) : list Z :=
  map (fun x => fst (fst x)) (runes_from (String.length s) s).

(** [utf8.ValidString(s)] *)
Definition ValidString (s : string) : bool :=
  forallb (fun x => snd x) (runes_from (String.length s) s).

(** [utf8.RuneStart(b)] *)
Definition RuneStart (b : Z) : bool := negb (Z.eqb (Z.land b 0xC0) 0x80).

(** [s[i]] for [0 <= i < len(s)]. *)
Definition byte_at (s : string) (i : Z) : Z :=
  match String.get (Z.to_nat i) s with
  | Some c => byte_of c
  | None => 0
  end.

(** The loop [for start--; start >= lim; start-- { if RuneStart(s[start])
    { break } }] of [DecodeLastRuneInString]; it runs at most [UTFMax]
    times. *)
Fixpoint back_to_start (fuel : nat) (s : string) (start lim : Z) : Z :=
  match fuel with
  | O => start
  | S fuel' =>
      if Z.ltb start lim then start
      else if RuneStart (byte_at s start) then start
      else back_to_start fuel' s (start - 1) lim
  end.

(** [utf8.DecodeLastRuneInString(s)] *)
Definition DecodeLastRuneInString (s : string) : Z * Z :=
  let end_ := Strings.len s in
  if Z.eqb end_ 0 then (RuneError, 0)
  else
    let start := end_ - 1 in
    let r := byte_at s start in
    if Z.ltb r RuneSelf then (r, 1)
    else
      let lim := Z.max 0 (end_ - UTFMax) in
      let start := back_to_start 4 s (start - 1) lim in
      let start := Z.max 0 start in
      let '(r, size) :=
        DecodeRuneInString (String.substring (Z.to_nat start) (Z.to_nat (end_ - start)) s) in
      if Z.eqb (start + size) end_ then (r, size) else (RuneError, 1).

(** [unicode.IsSpace(r)]: the Latin-1 cases and the [White_Space] table. *)
Definition IsSpace (r : Z) : bool :=
  if in_range 0 0xFF r then
    in_range 0x09 0x0D r || Z.eqb r 0x20 || Z.eqb r 0x85 || Z.eqb r 0xA0
  else
    Z.eqb r 0x1680 || in_range 0x2000 0x200A r || in_range 0x2028 0x2029 r
    || Z.eqb r 0x202F || Z.eqb r 0x205F || Z.eqb r 0x3000.

(** [utf8.AppendRune]: the encoding of [r]; a surrogate or out-of-range
    value is written as [RuneError]. *)
Definition byte_char (b : Z) : ascii := ascii_of_N (Z.to_N b).

Definition encode (r : Z) : string :=
  let b := byte_char in
  if in_range 0 0x7F r then String (b r) EmptyString
  else if in_range 0x80 0x7FF r then
    String (b (Z.lor 0xC0 (Z.shiftr r 6)))
      (String (b (Z.lor 0x80 (Z.land r 0x3F))) EmptyString)
  else if negb (in_range 0 0x10FFFF r) || in_range 0xD800 0xDFFF r then
    String (b 0xEF) (String (b 0xBF) (String (b 0xBD) EmptyString))
  else if in_range 0x800 0xFFFF r then
    String (b (Z.lor 0xE0 (Z.shiftr r 12)))
      (String (b (Z.lor 0x80 (Z.land (Z.shiftr r 6) 0x3F)))
         (String (b (Z.lor 0x80 (Z.land r 0x3F))) EmptyString))
  else
    String (b (Z.lor 0xF0 (Z.shiftr r 18)))
      (String (b (Z.lor 0x80 (Z.land (Z.shiftr r 12) 0x3F)))
         (String (b (Z.lor 0x80 (Z.land (Z.shiftr r 6) 0x3F)))
            (String (b (Z.lor 0x80 (Z.land r 0x3F))) EmptyString))).

End Utf8.

(** ** The functions of [strings] that trim and split *)

Module StringsExt.

(** [strings.TrimLeftFunc(s, unicode.IsSpace)] *)
Fixpoint trim_left (fuel : nat) (s : string) : string :=
  match fuel with
  | O => s
  | S fuel' =>
      let '(r, size, _) := Utf8.decode s in
      match size with
      | O => s
      | _ => if Utf8.IsSpace r then trim_left fuel' (Strings.drop size s) else s
      end
  end.

(** [s[:n]] *)
Definition take (n : nat) (s : string) : string := String.substring 0 n s.

(** [strings.TrimRightFunc(s, unicode.IsSpace)]: the last rune is read as
    a byte when it is below [RuneSelf] and with [DecodeLastRuneInString]
    otherwise. *)
Fixpoint trim_right (fuel : nat) (s : string) : string :=
  match fuel with
  | O => s
  | S fuel' =>
      let n := Strings.len s in
      if Z.eqb n 0 then s
      else
        let b := Utf8.byte_at s (n - 1) in
        let '(r, size) := if Z.ltb b Utf8.RuneSelf then (b, 1) else Utf8.DecodeLastRuneInString s in
        if Utf8.IsSpace r then trim_right fuel' (take (Z.to_nat (n - size)) s) else s
  end.

(** [strings.TrimSpace(s)]; its ASCII fast path computes the same as
    trimming on the left and then on the right with [unicode.IsSpace]. *)
Definition TrimSpace (s : string) : string :=
  let s1 := trim_left (String.length s) s in
  trim_right (String.length s1) s1.

(** [strings.SplitN(s, sep, 2)] for a one-byte separator: the text before
    and after the first separator, or [s] alone without one. *)
Fixpoint cut (sep : ascii) (s : string) : option (string * string) :=
  match s with
  | EmptyString => None
  | String c s' =>
      if Ascii.eqb c sep then Some (EmptyString, s')
      else match cut sep s' with
           | Some (a, b) => Some (String c a, b)
           | None => None
           end
  end.

Definition SplitN2 (s : string) (sep : ascii) : list string :=
  match cut sep s with
  | Some (a, b) => [a; b]
  | None => [s]
  end.

(** [strings.Split(s, sep)] for a one-byte separator. *)
Fixpoint Split (s : string) (sep : ascii) : list string :=
  match s with
  | EmptyString => [EmptyString]
  | String c s' =>
      if Ascii.eqb c sep then EmptyString :: Split s' sep
      else match Split s' sep with
           | p :: ps => String c p :: ps
           | [] => [String c EmptyString]
           end
  end.

End StringsExt.

(** ** The [strconv] package functions *)

Module Strconv.

Definition maxInt : Z := 2 ^ 63 - 1.
Definition minInt : Z := - 2 ^ 63.

Definition is_digit (c : ascii) : bool := Utf8.in_range 48 57 (Utf8.byte_of c).
Definition digit_val (c : ascii) : Z := Utf8.byte_of c - 48.
Definition digit_char (d : Z) : ascii := ascii_of_N (Z.to_N (48 + d)).

(** Every byte of the string is a decimal digit. *)
Fixpoint all_digits (s : string) : bool :=
  match s with
  | EmptyString => true
  | String c s' => is_digit c && all_digits s'
  end.

(** The digit loop of [strconv.ParseInt] in base 10. *)
Fixpoint parse_digits (acc : Z) (s : string) : option Z :=
  match s with
  | EmptyString => Some acc
  | String c s' => if is_digit c then parse_digits (acc * 10 + digit_val c) s' else None
  end.

(** [strconv.Atoi(s)]: an optional sign, one decimal digit or more, and a
    value in the range of a 64-bit [int]; [None] is Go's non-nil error. *)
Definition Atoi (s : string) : option Z :=
  let '(neg, body) :=
    match s with
    | String c t =>
        if Ascii.eqb c "-" then (true, t)
        else if Ascii.eqb c "+" then (false, t)
        else (false, s)
    | EmptyString => (false, s)
    end in
  match body with
  | EmptyString => None
  | _ =>
      match parse_digits 0 body with
      | Some n =>
          let v := if neg then - n else n in
          if Z.leb minInt v && Z.leb v maxInt then Some v else None
      | None => None
      end
  end.

(** The digit loop of [strconv.FormatInt] in base 10: digits are produced
    from the least significant one and written in front of [acc]. *)
Fixpoint format_digits (fuel : nat) (n : Z) (acc : string) : string :=
  match fuel with
  | O => acc
  | S fuel' =>
      let acc' := String (digit_char (n mod 10)) acc in
      if Z.ltb n 10 then acc' else format_digits fuel' (n / 10) acc'
  end.

Definition format_unsigned (n : Z) : string :=
  format_digits (S (Z.to_nat (Z.log2 n))) n EmptyString.

(** [strconv.Itoa(i)], which is also what [fmt.Sprintf("%d", i)] prints. *)
Definition Itoa (i : Z) : string :=
  if Z.ltb i 0 then String "-"%char (format_unsigned (- i)) else format_unsigned i.

End Strconv.

(** ** The ordered map *)

(** [type Map struct { kv map[string]string; o []string; Debug bool }] *)
Record Map : Type := mkMap {
  kv : gmap string string;
  o : list string;
  Debug : bool
}.

(** [func NewMap() *Map] *)
Definition NewMap : Map := {| kv := ∅; o := []; Debug := false |}.

(** [func (m *Map) Get(key string) string]: the zero value when absent. *)
Definition Get (m : Map) (key : string) : string := default EmptyString (kv m !! key).

(** [func (m *Map) GetOk(key string) (string, bool)] *)
Definition GetOk (m : Map) (key : string) : string * bool :=
  match kv m !! key with
  | Some v => (v, true)
  | None => (EmptyString, false)
  end.

(** [func (m *Map) ContainsKey(key string) bool] *)
Definition ContainsKey (m : Map) (key : string) : bool := bool_decide (is_Some (kv m !! key)).

(** [func (m *Map) Size() int] *)
Definition Size (m : Map) : Z := Z.of_nat (size (kv m)).

(** The loop of [Remove]: the first occurrence of [key] is cut out of the
    order slice and the loop returns. *)
Fixpoint remove_first (key : string) (l : list string) : list string :=
  match l with
  | [] => []
  | k :: l' => if String.eqb k key then l' else k :: remove_first key l'
  end.

(** [func (m *Map) Remove(key string)] *)
Definition Remove (m : Map) (key : string) : Map :=
  {| kv := delete key (kv m); o := remove_first key (o m); Debug := Debug m |}.

(** [func (m *Map) Set(key, value string)]; [Set] is a reserved word of
    Rocq, hence the underscore. *)
Definition Set_ (m : Map) (key value : string) : Map :=
  let m1 := if bool_decide (is_Some (kv m !! key)) then Remove m key else m in
  {| kv := <[key := value]> (kv m1); o := o m1 ++ [key]; Debug := Debug m1 |}.

(** [func (m *Map) Keys() []string]: a copy of the order slice. *)
Definition Keys (m : Map) : list string := o m.

(** [func (m *Map) Values() []string] *)
Definition Values (m : Map) : list string := map (fun key => Get m key) (o m).


(** [func (m *Map) Merge(sources ...*Map) *Map]: the inner loop over one
    source, then the loop over the sources.  The sources are objects other
    than the receiver, as in [Clone], which merges into a new map; for the
    receiver among its own sources see [merge_self] and [MergeSources]. *)
Definition merge_one (m source : Map) : Map :=
  fold_left (fun acc key => Set_ acc key (Get source key)) (o source) m.

Definition Merge (m : Map) (sources : list Map) : Map :=
  fold_left merge_one sources m.

(** [func (m *Map) Clone() *Map] *)
Definition Clone (m : Map) : Map := Merge NewMap [m].

(** [func (m *Map) SubTree(rootKey string) *Map] *)
Definition SubTree (m : Map) (rootKey : string) : Map :=
  let rootKey := rootKey +:+ "." in
  fold_left
    (fun newMap key =>
       if negb (Strings.HasPrefix key rootKey) then newMap
       else Set_ newMap (Strings.drop (String.length rootKey) key) (Get m key))
    (o m) NewMap.

(** [func (m *Map) parseLine(line string) error].  The package variable
    [osSuffix] is an explicit argument; the result is the map after the
    call and the error ([None] for [nil]). *)
Definition parseLine (osSuffix : string) (m : Map) (line : string) : Map * option string :=
  let line := StringsExt.TrimSpace line in
  match line with
  | EmptyString => (m, None)
  | String c _ =>
      if Ascii.eqb c "#"%char then (m, None)
      else
        match StringsExt.SplitN2 line "="%char with
        | [k; v] =>
            let key := StringsExt.TrimSpace k in
            let value := StringsExt.TrimSpace v in
            let key := Strings.Replace key ("." +:+ osSuffix) EmptyString 1 in
            (Set_ m key value, None)
        | _ => (m, Some "invalid line format, should be 'key=value'")
        end
  end.

(** [func LoadFromSlice(lines []string)]: no map is returned
    on error. *)
Fixpoint load_lines (osSuffix : string) (m : Map) (lines : list string) : option Map :=
  match lines with
  | [] => Some m
  | line :: rest =>
      match parseLine osSuffix m line with
      | (m', None) => load_lines osSuffix m' rest
      | (_, Some _) => None
      end
  end.

Definition LoadFromSlice (osSuffix : string) (lines : list string) : option Map :=
  load_lines osSuffix NewMap lines.

(** *** Numbered sub-trees *)

(** The scanning loop of [ExtractSubIndexSets], which has no bound in the
    source: [fuel] bounds the number of probes and [None] means that the
    fuel ran out.  The state is the list built so far, the flag
    [haveIndexedProperties] and the counter [idx]; the counter is returned
    too, it is the number of probes made. *)
Fixpoint scan_indexed (fuel : nat) (portIDPropsSet : Map) (idx : Z)
    (haveIndexedProperties : bool) (res : list Map) : option (list Map * bool * Z) :=
  match fuel with
  | O => None
  | S fuel' =>
      let idProps := SubTree portIDPropsSet (Strconv.Itoa idx) in
      let idx := idx + 1 in
      if Z.ltb 0 (Size idProps) then
        scan_indexed fuel' portIDPropsSet idx true (res ++ [idProps])
      else if Z.ltb 1 idx then Some (res, haveIndexedProperties, idx)
      else scan_indexed fuel' portIDPropsSet idx haveIndexedProperties res
  end.

(** [func (m *Map) ExtractSubIndexSets(root string) []*Map] *)
Definition ExtractSubIndexSets (fuel : nat) (m : Map) (root : string) : option (list Map) :=
  let portIDPropsSet := SubTree m root in
  if Z.eqb (Size portIDPropsSet) 0 then Some []
  else
    match scan_indexed fuel portIDPropsSet 0 false [] with
    | None => None
    | Some (res, haveIndexedProperties, _) =>
        Some (if haveIndexedProperties then res else res ++ [portIDPropsSet])
    end.

(** The closure [isNotDigit] of [ExtractSubIndexLists]. *)
Definition isNotDigit (s : string) : bool :=
  existsb (fun r => Z.ltb r 48 || Z.ltb 57 r) (Utf8.runes s).

(** The first loop of [ExtractSubIndexLists]: the numeric keys. *)
Definition numeric_indexes (keys : list string) : list Z :=
  fold_left
    (fun indexes key =>
       if isNotDigit key then indexes
       else match Strconv.Atoi key with
            | Some idx => indexes ++ [idx]
            | None => indexes
            end)
    keys [].

(** [sort.Ints] *)
Definition sort_Ints (l : list Z) : list Z := merge_sort Z.le l.

(** The second loop of [ExtractSubIndexLists] over the sorted indexes;
    [prev] is [indexes[i-1]], and [None] when [i = 0]. *)
Fixpoint emit_indexed (subProps : Map) (prev : option Z) (indexes : list Z)
    (res : list string) (haveIndexedProperties : bool) : list string * bool :=
  match indexes with
  | [] => (res, haveIndexedProperties)
  | idx :: rest =>
      if match prev with Some p => Z.eqb idx p | None => false end
      then emit_indexed subProps (Some idx) rest res haveIndexedProperties
      else
        match GetOk subProps (Strconv.Itoa idx) with
        | (v, true) => emit_indexed subProps (Some idx) rest (res ++ [v]) true
        | (_, false) => emit_indexed subProps (Some idx) rest res haveIndexedProperties
        end
  end.

(** [func (m *Map) ExtractSubIndexLists(root string) []string] *)
Definition ExtractSubIndexLists (m : Map) (root : string) : list string :=
  let subProps := SubTree m root in
  let indexes := sort_Ints (numeric_indexes (o subProps)) in
  let '(res, haveIndexedProperties) := emit_indexed subProps None indexes [] false in
  if haveIndexedProperties then res
  else match GetOk m root with
       | (value, true) => res ++ [value]
       | (_, false) => res
       end.

(** *** Expansion of placeholders *)

(** The inner loop of [expandProps] over [range m.kv].  Go leaves the
    order of that iteration open, so the entries are given as a list, in
    the order in which they are visited. *)
Definition expand_pass (entries : list (string * string)) (str : string) : string :=
  fold_left
    (fun newStr kvp => Strings.Replace newStr ("{" +:+ fst kvp +:+ "}") (snd kvp) (-1))
    entries str.

(** The outer loop [for i := 0; i < 10; i++]: [remaining] is [10 - i],
    [order i] is the iteration order of pass [i].  The number of passes made
    is returned with the string.  The debug output has no effect on the
    result and is left out. *)
Fixpoint expand_loop (order : nat -> list (string * string)) (remaining i : nat)
    (str : string) : string * nat :=
  match remaining with
  | O => (str, i)
  | S remaining' =>
      let newStr := expand_pass (order i) str in
      if String.eqb str newStr then (str, S i)
      else expand_loop order remaining' (S i) newStr
  end.

(** [func (m *Map) expandProps(str string, debug bool) string] *)
Definition expandProps (order : nat -> list (string * string)) (str : string) : string :=
  fst (expand_loop order 10 0 str).

(** An iteration order of the map [m]: every pass visits the entries of
    [m.kv], each once. *)
Definition iteration_order (m : Map) (order : nat -> list (string * string)) : Prop :=
  forall i, order i ≡ₚ map_to_list (kv m).

(** *** The tokenizer *)

Record splitState : Type := mkSplit {
  result : list string;
  escapingChar : Z;
  escapedArg : string
}.

(** [func firstRune(s string) (rune, int)] *)
Definition firstRune (s : string) : Z * Z :=
  if Z.eqb (Strings.len s) 0 || negb (Utf8.ValidString s) then (0, 0)
  else Utf8.DecodeRuneInString s.

(** [func lastRune(s string) (rune, int)] *)
Definition lastRune (s : string) : Z * Z :=
  if Z.eqb (Strings.len s) 0 || negb (Utf8.ValidString s) then (0, 0)
  else Utf8.DecodeLastRuneInString s.

(** The map [isQuote] built from [range quoteChars]. *)
Definition isQuote (quoteChars : string) (r : Z) : bool :=
  existsb (Z.eqb r) (Utf8.runes quoteChars).

(** The part of the loop body after the opening quote has been handled. *)
Definition split_close (acceptEmptyArguments : bool) (st : splitState)
    (current : string) : splitState :=
  let '(last, size) := lastRune current in
  if negb (Z.eqb last (escapingChar st)) then
    mkSplit (result st) (escapingChar st) (escapedArg st +:+ current +:+ " ")
  else
    let escapedArg := escapedArg st +:+ StringsExt.take (Z.to_nat (Strings.len current - size)) current in
    let result :=
      if acceptEmptyArguments || Z.ltb 0 (Strings.len (StringsExt.TrimSpace escapedArg))
      then result st ++ [escapedArg] else result st in
    mkSplit result 0 escapedArg.

(** The loop body of [SplitQuotedString] for one element of the split. *)
Definition split_step (quoteChars : string) (acceptEmptyArguments : bool)
    (st : splitState) (current : string) : splitState :=
  if Z.eqb (escapingChar st) 0 then
    let '(first, size) := firstRune current in
    if negb (isQuote quoteChars first) then
      if acceptEmptyArguments || Z.ltb 0 (Strings.len (StringsExt.TrimSpace current))
      then mkSplit (result st ++ [current]) (escapingChar st) (escapedArg st)
      else st
    else
      split_close acceptEmptyArguments (mkSplit (result st) first EmptyString)
        (Strings.drop (Z.to_nat size) current)
  else split_close acceptEmptyArguments st current.

Definition split_loop (quoteChars : string) (acceptEmptyArguments : bool)
    (pieces : list string) (st : splitState) : splitState :=
  fold_left (split_step quoteChars acceptEmptyArguments) pieces st.

(** The error of [SplitQuotedString]: its message names the quote. *)
Definition quoting_error (escapingChar : Z) : string :=
  "invalid quoting, no closing `" +:+ Utf8.encode escapingChar +:+ "` char found".

(** [func SplitQuotedString(src string, quoteChars string,
    acceptEmptyArguments bool) ([]string, error)] *)
Definition SplitQuotedString (src quoteChars : string) (acceptEmptyArguments : bool)
    : list string * option string :=
  let st := split_loop quoteChars acceptEmptyArguments
              (StringsExt.Split src " "%char) (mkSplit [] 0 EmptyString) in
  if negb (Z.eqb (escapingChar st) 0) then (result st, Some (quoting_error (escapingChar st)))
  else (result st, None).

(** ** Maps of the test suite *)

(** The keys [sette.discovery.something.*] of [TestExtractSubIndexLists],
    inserted in the order of the test's literal. *)
Definition sette : Map :=
  Set_ (Set_ (Set_ (Set_ NewMap "sette.discovery.something.01" "itemA")
                "sette.discovery.something.2" "itemB")
           "sette.discovery.something.05" "itemC")
      "sette.discovery.something.5" "itemD".

(** ** The order invariant *)

(** The order slice lists exactly the keys of the mapping, each once. *)
Definition ordered (m : Map) : Prop :=
  NoDup (o m) ∧ ∀ k, k ∈ o m ↔ is_Some (kv m !! k).

(** The maps that the operations of the package can build.  [Merge] and
    [SubTree] take any maps as arguments; a call [m.Merge(m)], in which the
    loop reads the slice that [Set] rewrites, is a sequence of calls of
    [Set] and is covered by [built_Set]. *)
Inductive built : Map → Prop :=
  | built_NewMap : built NewMap
  | built_Set m key value : built m → built (Set_ m key value)
  | built_Remove m key : built m → built (Remove m key)
  | built_Merge m sources : built m → built (Merge m sources)
  | built_parseLine osSuffix m line : built m → built (fst (parseLine osSuffix m line))
  | built_SubTree m rootKey : built m → built (SubTree m rootKey)
  | built_Clone m : built m → built (Clone m).

(** The indexes for which the second loop of [ExtractSubIndexLists] emits a
    value: those that differ from their predecessor in the sorted slice and
    whose decimal form is a key of [subProps]. *)
Fixpoint emitted_indexes (subProps : Map) (prev : option Z) (indexes : list Z) : list Z :=
  match indexes with
  | [] => []
  | idx :: rest =>
      if match prev with Some p => Z.eqb idx p | None => false end
      then emitted_indexes subProps (Some idx) rest
      else if bool_decide (is_Some (kv subProps !! Strconv.Itoa idx))
      then idx :: emitted_indexes subProps (Some idx) rest
      else emitted_indexes subProps (Some idx) rest
  end.

(** Bounds with respect to the previous element of the sorted slice, when
    there is one. *)
Definition above (prev : option Z) (i : Z) : Prop :=
  match prev with Some p => p < i | None => True end.

Definition not_below (prev : option Z) (i : Z) : Prop :=
  match prev with Some p => p ≤ i | None => True end.

(** The first segment of a key: the text before its first dot. *)
Definition first_segment (key : string) : string :=
  match StringsExt.cut "." key with
  | Some (a, _) => a
  | None => key
  end.

(** The sub-tree numbered [idx] of a map is not empty. *)
Definition has_index (portIDPropsSet : Map) (idx : Z) : Prop :=
  0 < Size (SubTree portIDPropsSet (Strconv.Itoa idx)).

(** The maps of [TestExpandPropsInString2] and of two placeholders that
    refer to each other. *)
Definition self_referential : Map :=
  Set_ (Set_ NewMap "key2" "{key2}") "key1" "42".

Definition cyclic : Map :=
  Set_ (Set_ NewMap "a" "{b}") "b" "{a}".

(** ** The tokenizer as the specification words it

    Section 4.4 of the specification: the source is split on single spaces;
    a token that begins with one of the quote characters opens a run, which
    accumulates the text, joined by spaces, until a token ends with the quote
    character that opened it; the accumulated text without the quote
    characters is then one token.  A quote that is open at the end of the
    input is an error that names it.  The quote that is open is an optional
    rune here, where the source keeps a rune and reads 0 as "none". *)

Record quotedState : Type := mkQuoted {
  tokens : list string;
  opened : option Z;
  pending : string
}.

(** The first and the last code point of a token, if it has one. *)
Definition first_rune_of (s : string) : option (Z * Z) :=
  if Z.eqb (Strings.len s) 0 || negb (Utf8.ValidString s) then None
  else Some (Utf8.DecodeRuneInString s).

Definition last_rune_of (s : string) : option (Z * Z) :=
  if Z.eqb (Strings.len s) 0 || negb (Utf8.ValidString s) then None
  else Some (Utf8.DecodeLastRuneInString s).

Definition keep_token (acceptEmptyArguments : bool) (token : string)
    (l : list string) : list string :=
  if acceptEmptyArguments || Z.ltb 0 (Strings.len (StringsExt.TrimSpace token))
  then l ++ [token] else l.

Definition quoted_continue (acceptEmptyArguments : bool) (st : quotedState)
    (quote : Z) (current : string) : quotedState :=
  match last_rune_of current with
  | Some (last, size) =>
      if Z.eqb last quote then
        let token := pending st +:+ StringsExt.take (Z.to_nat (Strings.len current - size)) current in
        mkQuoted (keep_token acceptEmptyArguments token (tokens st)) None token
      else mkQuoted (tokens st) (Some quote) (pending st +:+ current +:+ " ")
  | None => mkQuoted (tokens st) (Some quote) (pending st +:+ current +:+ " ")
  end.

Definition quoted_step (quoteChars : string) (acceptEmptyArguments : bool)
    (st : quotedState) (current : string) : quotedState :=
  match opened st with
  | Some quote => quoted_continue acceptEmptyArguments st quote current
  | None =>
      match first_rune_of current with
      | Some (first, size) =>
          if isQuote quoteChars first then
            quoted_continue acceptEmptyArguments
              (mkQuoted (tokens st) (Some first) EmptyString) first
              (Strings.drop (Z.to_nat size) current)
          else mkQuoted (keep_token acceptEmptyArguments current (tokens st)) None (pending st)
      | None => mkQuoted (keep_token acceptEmptyArguments current (tokens st)) None (pending st)
      end
  end.

Definition SplitQuoted_spec (src quoteChars : string) (acceptEmptyArguments : bool)
    : list string * option string :=
  let st := fold_left (quoted_step quoteChars acceptEmptyArguments)
              (StringsExt.Split src " "%char) (mkQuoted [] None EmptyString) in
  match opened st with
  | Some quote => (tokens st, Some (quoting_error quote))
  | None => (tokens st, None)
  end.

(** The state of the source that stands for a state of the specification. *)
Definition state_of (st : quotedState) : splitState :=
  mkSplit (tokens st) (default 0 (opened st)) (pending st).

(** No quote of value 0 is open. *)
Definition proper (st : quotedState) : Prop := opened st ≠ Some 0.

(** ** The other operations of the package *)

(** A sequence of calls of [Set], one for each pair of the list. *)
Definition set_all (l : list (string * string)) (m : Map) : Map :=
  fold_left (fun acc kvp => Set_ acc (fst kvp) (snd kvp)) l m.

(** [func NewFromHashmap(orig map[string]string) *Map]; [entries] is the
    order in which [range orig] visits the entries of [orig]. *)
Definition NewFromHashmap (entries : list (string * string)) : Map :=
  fold_left (fun res kvp => Set_ res (fst kvp) (snd kvp)) entries NewMap.

(** [func (m *Map) ContainsValue(value string) bool]: the loop returns at
    the first entry with that value, so that its result does not depend on
    the order of [range m.kv]. *)
Definition ContainsValue (m : Map) (value : string) : bool :=
  existsb (fun kvp => String.eqb (snd kvp) value) (map_to_list (kv m)).

(** [func (m *Map) AsSlice() []string] *)
Definition AsSlice (m : Map) : list string :=
  map (fun key => key +:+ "=" +:+ Get m key) (o m).

(** [func (m *Map) Equals(other *Map) bool].  [reflect.DeepEqual] tells a
    [nil] map or slice from an empty one; the maps and slices of a [Map]
    that the package builds are never [nil]. *)
Definition Equals (m other : Map) : bool := bool_decide (kv m = kv other).

(** [func (m *Map) EqualsWithOrder(other *Map) bool] *)
Definition EqualsWithOrder (m other : Map) : bool :=
  bool_decide (o m = o other) && bool_decide (kv m = kv other).

(** The loop body of [FirstLevelOf].  A key that contains a dot is split
    in two parts by [SplitN]; the last case of the match is never reached. *)
Definition first_level_of_step (m : Map) (newMap : gmap string Map) (key : string)
    : gmap string Map :=
  if negb (Strings.Contains key ".") then newMap
  else match StringsExt.SplitN2 key "." with
       | [k0; k1] =>
           let sub := default NewMap (newMap !! k0) in
           <[k0 := Set_ sub k1 (Get m key)]> newMap
       | _ => newMap
       end.

(** [func (m *Map) FirstLevelOf() map[string]*Map] *)
Definition FirstLevelOf (m : Map) : gmap string Map :=
  fold_left (first_level_of_step m) (o m) ∅.

(** The loop body of [FirstLevelKeys]; the state is the slice [res] and
    the set [taken]. *)
Definition first_level_keys_step (st : list string * gset string) (k : string)
    : list string * gset string :=
  let first := first_segment k in
  if bool_decide (first ∈ snd st) then st
  else (fst st ++ [first], {[first]} ∪ snd st).

(** [func (m *Map) FirstLevelKeys() []string] *)
Definition FirstLevelKeys (m : Map) : list string :=
  fst (fold_left first_level_keys_step (o m) ([], ∅)).

(** [func toUtf8(iso8859_1_buf []byte) string]: every byte becomes the
    rune of the same value, and the runes are written in UTF-8. *)
Fixpoint toUtf8 (buf : string) : string :=
  match buf with
  | EmptyString => EmptyString
  | String b buf' => Utf8.encode (Utf8.byte_of b) +:+ toUtf8 buf'
  end.

(** A line that [parseLine] refuses: after trimming it is not empty, does
    not start a comment and has no equals sign. *)
Definition malformed (line : string) : bool :=
  match StringsExt.TrimSpace line with
  | EmptyString => false
  | String c rest =>
      negb (Ascii.eqb c "#") && negb (Strings.Contains (String c rest) "=")
  end.

(** A byte below [RuneSelf] that is not white space, and the strings that
    are empty or begin and end with such a byte. *)
Definition edge_byte (c : ascii) : bool :=
  Z.ltb (Utf8.byte_of c) Utf8.RuneSelf && negb (Utf8.IsSpace (Utf8.byte_of c)).

Fixpoint last_byte (c : ascii) (s : string) : ascii :=
  match s with
  | EmptyString => c
  | String c' s' => last_byte c' s'
  end.

Definition tight (s : string) : bool :=
  match s with
  | EmptyString => true
  | String c t => edge_byte c && edge_byte (last_byte c t)
  end.

(** The indexes [0 .. n-1]. *)
Definition indexes_below (n : nat) : list Z := Z.of_nat <$> seq 0 n.

(** The tokens that [SplitQuotedString] keeps. *)
Definition kept (acceptEmptyArguments : bool) (token : string) : bool :=
  acceptEmptyArguments || Z.ltb 0 (Strings.len (StringsExt.TrimSpace token)).

(** The key without the first [n] bytes, and the keys that begin with a
    prefix, as [SubTree] uses them. *)
Definition has_prefix (prefix key : string) : Prop :=
  Strings.HasPrefix key prefix = true.

#[global] Instance has_prefix_dec prefix key : Decision (has_prefix prefix key) :=
  decide (Strings.HasPrefix key prefix = true).

Definition subtree_keys (rootKey : string) (keys : list string) : list string :=
  Strings.drop (String.length (rootKey +:+ "."))
    <$> filter (has_prefix (rootKey +:+ ".")) keys.

(** The loop body of [SubTree], and its loop over a list of keys. *)
Definition subtree_step (m : Map) (rootKey : string) (newMap : Map) (key : string) : Map :=
  if negb (Strings.HasPrefix key (rootKey +:+ ".")) then newMap
  else Set_ newMap (Strings.drop (String.length (rootKey +:+ ".")) key) (Get m key).

Definition subtree_of (m : Map) (rootKey : string) (keys : list string) : Map :=
  fold_left (subtree_step m rootKey) keys NewMap.

(** A key and a value that [parseLine] reads back from the line
    [key=value] as they are: both are tight, the key has no equals sign,
    does not begin a comment and does not contain the platform marker. *)
Definition plain_entry (osSuffix key value : string) : bool :=
  tight key && tight value
  && negb (Strings.Contains key "=")
  && negb (Strings.HasPrefix key "#")
  && negb (Strings.Contains key ("." +:+ osSuffix)).

(** The line ends: carriage return, line feed, and the two together. *)
Definition CR : string := String "013" EmptyString.
Definition LF : string := String "010" EmptyString.
Definition CRLF : string := String "013" (String "010" EmptyString).

(** [func LoadFromBytes(bytes []byte)], with the package
    variable [osSuffix] as an argument; no map is returned on error. *)
Definition LoadFromBytes (osSuffix : string) (bytes : string) : option Map :=
  let text := if Utf8.ValidString bytes then bytes else toUtf8 bytes in
  let text := Strings.Replace text CRLF LF (-1) in
  let text := Strings.Replace text CR LF (-1) in
  load_lines osSuffix NewMap (StringsExt.Split text "010").

(** The sub-trees numbered by the indexes of a list that are not empty. *)
Definition indexed_subtrees (portIDPropsSet : Map) (idxs : list Z) : list Map :=
  List.filter (fun idProps => Z.ltb 0 (Size idProps))
    (map (fun idx => SubTree portIDPropsSet (Strconv.Itoa idx)) idxs).

(** [func (m *Map) IsPropertyMissingInExpandPropsInString(prop, str
    string) bool].  [rand i] is the value of the [i]-th call of
    [rand.Int63]; the loop that looks for a token has no bound in the
    source, [fuel] bounds it here and [None] means that the fuel ran out.
    [order] is the order in which the expansion visits the entries of the
    clone. *)
Fixpoint find_token (fuel : nat) (rand : nat → Z) (i : nat) (xm : Map) (str : string)
    : option string :=
  match fuel with
  | O => None
  | S fuel' =>
      let token := Strconv.Itoa (rand i) in
      if Strings.Contains str token then find_token fuel' rand (S i) xm str
      else if ContainsKey xm token then find_token fuel' rand (S i) xm str
      else if ContainsValue xm token then find_token fuel' rand (S i) xm str
      else Some token
  end.

Definition IsPropertyMissingInExpandPropsInString (fuel : nat) (rand : nat → Z)
    (order : Map → nat → list (string * string)) (m : Map) (prop str : string)
    : option bool :=
  if ContainsKey m prop then Some false
  else
    let xm := Clone m in
    match find_token fuel rand O xm str with
    | None => None
    | Some token =>
        let xm := Set_ xm prop token in
        let res := expandProps (order xm) str in
        Some (Strings.Contains res token)
    end.

(** The string after the passes [i], [i + 1], ..., [i + n - 1] of the
    expansion, whether they change it or not. *)
Fixpoint expand_passes (order : nat → list (string * string)) (n i : nat)
    (str : string) : string :=
  match n with
  | O => str
  | S n' => expand_passes order n' (S i) (expand_pass (order i) str)
  end.

(** A placeholder whose value contains its own marker next to other
    text: every pass makes the string longer. *)
Definition growing : Map := Set_ NewMap "a" "x{a}".

(** The elements of a list in the order of their first occurrence, each
    one once. *)
Fixpoint dedup_first (l : list string) : list string :=
  match l with
  | [] => []
  | x :: l' => x :: filter (.≠ x) (dedup_first l')
  end.

(** ** [Merge] with the receiver among its sources

    The sources of [Merge] are pointers, and nothing keeps a caller from
    passing the receiver itself.  [merge_one] above reads the keys of a
    source that the calls of [Set] do not touch; it is the loop over a
    source that is another object than the receiver.  When the source is
    the receiver, [for _, key := range source.o] reads cell [i] of the
    array behind the slice at the time of the [i]-th round, for [i] below
    the length that the slice had when the loop started, while the calls
    of [m.Set] rewrite that array in place: [Set] of a key that is present
    calls [Remove], which moves the cells behind the key one to the left,
    and writes the key into the last cell, which is within the capacity.
    So the [i]-th round reads element [i] of the current order slice.
    [Set] of a key that the map does not have would make the slice longer,
    within the same array or in a new one according to its capacity; this
    happens only on a map that breaks the order invariant, and the model
    gives no result ([None]) there. *)
Inductive merge_source : Type :=
  | Itself
  | Another (source : Map).

Definition merge_self_step (acc : option Map) (i : nat) : option Map :=
  m ← acc;
  key ← o m !! i;
  if bool_decide (is_Some (kv m !! key)) then Some (Set_ m key (Get m key))
  else None.

Definition merge_self (m : Map) : option Map :=
  fold_left merge_self_step (seq 0 (length (o m))) (Some m).

Definition merge_from (m : Map) (s : merge_source) : option Map :=
  match s with
  | Itself => merge_self m
  | Another source => Some (merge_one m source)
  end.

(** [func (m *Map) Merge(sources ...*Map) *Map], each source being the
    receiver or another object. *)
Definition MergeSources (m : Map) (sources : list merge_source) : option Map :=
  fold_left (fun acc s => acc ≫= fun m' => merge_from m' s) sources (Some m).

(** The map with the keys [a], [b] and [c], set in this order. *)
Definition abc : Map := Set_ (Set_ (Set_ NewMap "a" "1") "b" "2") "c" "3".

(** ** Strings as sequences of text and markers

    The statements on the order of the substitutions read a string as a
    sequence of tokens: a character that is no brace, or a marker, an
    opening brace, a key without braces and a closing brace. *)
Inductive token : Type :=
  | Lit (c : ascii)
  | Mark (k : string).

(** The marker that [expandProps] looks for: ["{" + key + "}"]. *)
Definition marker (key : string) : string := "{" +:+ key +:+ "}".

Definition is_brace (c : ascii) : bool := Ascii.eqb c "{" || Ascii.eqb c "}".

Fixpoint brace_free (s : string) : bool :=
  match s with
  | EmptyString => true
  | String c s' => negb (is_brace c) && brace_free s'
  end.

Definition wf_token (t : token) : bool :=
  match t with
  | Lit c => negb (is_brace c)
  | Mark k => brace_free k
  end.

Fixpoint render (ts : list token) : string :=
  match ts with
  | [] => EmptyString
  | Lit c :: ts' => String c (render ts')
  | Mark k :: ts' => marker k +:+ render ts'
  end.

(** Reading a string as tokens; [pending] is the part of the key read so
    far when the scan is inside a marker.  A brace inside a marker, a
    closing brace outside and a marker that is not closed give [None]. *)
Fixpoint scan_tokens (pending : option string) (s : string) : option (list token) :=
  match s with
  | EmptyString => match pending with None => Some [] | Some _ => None end
  | String c s' =>
      match pending with
      | None =>
          if Ascii.eqb c "{" then scan_tokens (Some EmptyString) s'
          else if Ascii.eqb c "}" then None
          else cons (Lit c) <$> scan_tokens None s'
      | Some k =>
          if Ascii.eqb c "}" then cons (Mark k) <$> scan_tokens None s'
          else if Ascii.eqb c "{" then None
          else scan_tokens (Some (k +:+ String c EmptyString)) s'
      end
  end.

Definition tokens_of (s : string) : option (list token) := scan_tokens None s.

(** The tokens of a value; no token for a value that is not made of text
    and markers. *)
Definition value_tokens (v : string) : list token := default [] (tokens_of v).

(** The keys of the map have no brace and its values are made of text and
    markers. *)
Definition flat_map (m : Map) : bool :=
  forallb (fun kvp => brace_free (fst kvp)
                      && bool_decide (is_Some (tokens_of (snd kvp))))
          (map_to_list (kv m)).

(** Every marker [{k}] of the token list becomes the tokens [vs]. *)
Fixpoint subst (k : string) (vs : list token) (ts : list token) : list token :=
  match ts with
  | [] => []
  | Lit c :: ts' => Lit c :: subst k vs ts'
  | Mark k' :: ts' =>
      if String.eqb k' k then vs ++ subst k vs ts' else Mark k' :: subst k vs ts'
  end.

(** One pass of [expandProps] on tokens. *)
Definition pass_tokens (entries : list (string * string)) (ts : list token)
    : list token :=
  fold_left (fun ts kvp => subst (fst kvp) (value_tokens (snd kvp)) ts) entries ts.

(** A key of the map is resolved when its value is its own marker: the
    replacement of its marker changes nothing. *)
Definition resolved (m : Map) (k : string) : bool :=
  match kv m !! k with
  | None => true
  | Some v => String.eqb v (marker k)
  end.

(** The token needs at most [n] levels of substitution: it is text, the
    marker of no key of the map, the marker of a resolved key, or, for
    [n > 0], the marker of a key all tokens of whose value need at most
    [n - 1] levels. *)
Fixpoint within (m : Map) (n : nat) (t : token) : bool :=
  match t with
  | Lit _ => true
  | Mark k =>
      resolved m k ||
      match n with
      | O => false
      | S n' => forallb (within m n') (value_tokens (Get m k))
      end
  end.

(** The markers of the string resolve within [n] levels. *)
Definition resolves (m : Map) (n : nat) (str : string) : bool :=
  forallb (within m n) (value_tokens str).

(** The string has no marker of a key of the map whose value is another
    string than this marker. *)
Definition fully_expanded (m : Map) (s : string) : bool :=
  forallb (fun kvp => String.eqb (snd kvp) (marker (fst kvp))
                      || negb (Strings.Contains s (marker (fst kvp))))
          (map_to_list (kv m)).

(** What the substitution of markers by the values of their keys, any
    number of times and at any place, makes of a token list. *)
Inductive expands (m : Map) : list token → list token → Prop :=
  | expands_nil : expands m [] []
  | expands_lit c ts us :
      expands m ts us → expands m (Lit c :: ts) (Lit c :: us)
  | expands_keep k ts us :
      expands m ts us → expands m (Mark k :: ts) (Mark k :: us)
  | expands_subst k v vs ts us :
      kv m !! k = Some v →
      expands m (value_tokens v) vs → expands m ts us →
      expands m (Mark k :: ts) (vs ++ us).

(** The map of [TestExpandPropsInStringAndMissingCheck]. *)
Definition nested : Map :=
  Set_ (Set_ (Set_ NewMap "key1" "42") "key2" "{key1}") "key3" "{key4}".

Section order_invariant.

Implicit Types (m : Map) (k key value : string) (l : list string).

Lemma remove_first_absent key l : key ∉ l → remove_first key l = l.
Proof.
  induction l as [|k l IH]; simpl; [done|].
  intros Hk. apply not_elem_of_cons in Hk as [Hne Hl].
  destruct (String.eqb_spec k key) as [->|_]; [done|].
  by rewrite IH.
Qed.

Lemma elem_of_remove_first key l x :
  NoDup l → x ∈ remove_first key l ↔ x ∈ l ∧ x ≠ key.
Proof.
  induction l as [|k l IH]; simpl; intros Hnd.
  - split; [by intros ?%elem_of_nil | by intros [?%elem_of_nil _]].
  - apply NoDup_cons in Hnd as [Hk Hnd].
    destruct (String.eqb_spec k key) as [->|Hne].
    + rewrite elem_of_cons. split.
      * intros Hx. split; [by right|]. by intros ->.
      * by intros [[->|Hx] Hxk].
    + rewrite !elem_of_cons, IH by done. split.
      * intros [->|[Hx Hxk]]; [by split; [left|] | by split; [right|]].
      * intros [[->|Hx] Hxk]; [by left | by right].
Qed.

Lemma NoDup_remove_first key l : NoDup l → NoDup (remove_first key l).
Proof.
  induction l as [|k l IH]; simpl; [done|]. intros Hnd.
  pose proof Hnd as [Hk Hl]%NoDup_cons.
  destruct (String.eqb_spec k key) as [->|Hne]; [done|].
  apply NoDup_cons. split; [|by apply IH].
  rewrite elem_of_remove_first by done. by intros [? _].
Qed.

Lemma ordered_NewMap : ordered NewMap.
Proof.
  split; simpl; [apply NoDup_nil_2|]. intros k. rewrite lookup_empty. split.
  - by intros ?%elem_of_nil.
  - by intros [? ?].
Qed.

Lemma ordered_Remove m key : ordered m → ordered (Remove m key).
Proof.
  intros [Hnd Hdom]. split; simpl.
  - by apply NoDup_remove_first.
  - intros k. rewrite elem_of_remove_first, Hdom by done.
    destruct (decide (k = key)) as [->|Hne].
    + rewrite lookup_delete_eq. split; [by intros [_ ?] | by intros [? ?]].
    + rewrite lookup_delete_ne by done. tauto.
Qed.

Lemma ordered_Set m key value : ordered m → ordered (Set_ m key value).
Proof.
  intros Hm. unfold Set_.
  assert (Hm1 : ordered
    (if bool_decide (is_Some (kv m !! key)) then Remove m key else m)
    ∧ kv (if bool_decide (is_Some (kv m !! key)) then Remove m key else m) !! key = None).
  { case_bool_decide as Hin.
    - split; [by apply ordered_Remove|]. simpl. apply lookup_delete_eq.
    - split; [done|]. by apply eq_None_not_Some. }
  destruct Hm1 as [[Hnd Hdom] Hnone].
  set (m1 := if bool_decide _ then _ else _) in *.
  split; simpl.
  - apply NoDup_app. split; [done|]. split; [|apply NoDup_singleton].
    intros x Hx ->%list_elem_of_singleton.
    apply Hdom in Hx. rewrite Hnone in Hx. by destruct Hx.
  - intros k. rewrite elem_of_app, list_elem_of_singleton, Hdom.
    destruct (decide (key = k)) as [->|Hne].
    + rewrite lookup_insert_eq. split; [eauto | by right].
    + rewrite lookup_insert_ne by done. split; [intros [?|?]; [done|congruence] | by left].
Qed.

(** Any sequence of calls of [Set] keeps the invariant, whatever keys and
    values it is called with; this is all that the loops of [Merge] and
    [SubTree] do to the map that they fill. *)
Lemma ordered_fold_Set {A} (f : A → option (string * string)) (xs : list A) m :
  ordered m →
  ordered (fold_left (fun acc x => match f x with
                                   | Some (k, v) => Set_ acc k v
                                   | None => acc
                                   end) xs m).
Proof.
  revert m. induction xs as [|x xs IH]; simpl; intros m Hm; [done|].
  apply IH. destruct (f x) as [[k v]|]; [by apply ordered_Set | done].
Qed.

Lemma ordered_merge_one m source : ordered m → ordered (merge_one m source).
Proof.
  intros Hm. unfold merge_one.
  apply (ordered_fold_Set (fun key => Some (key, Get source key)) (o source) m Hm).
Qed.

Lemma ordered_Merge m sources : ordered m → ordered (Merge m sources).
Proof.
  unfold Merge. revert m.
  induction sources as [|s ss IH]; simpl; intros m Hm; [done|].
  by apply IH, ordered_merge_one.
Qed.

Lemma ordered_Clone m : ordered (Clone m).
Proof. apply ordered_Merge, ordered_NewMap. Qed.

Lemma SubTree_fold m rootKey :
  SubTree m rootKey =
  fold_left (fun acc key =>
               match (if negb (Strings.HasPrefix key (rootKey +:+ "."))
                      then None
                      else Some (Strings.drop (String.length (rootKey +:+ ".")) key,
                                 Get m key)) with
               | Some (k, v) => Set_ acc k v
               | None => acc
               end) (o m) NewMap.
Proof.
  unfold SubTree. generalize NewMap.
  induction (o m) as [|key l IH]; simpl; intros acc; [done|].
  rewrite IH. by destruct (negb _).
Qed.

Lemma ordered_SubTree m rootKey : ordered (SubTree m rootKey).
Proof. rewrite SubTree_fold. apply ordered_fold_Set, ordered_NewMap. Qed.

Lemma ordered_parseLine osSuffix m line :
  ordered m → ordered (fst (parseLine osSuffix m line)).
Proof.
  intros Hm. unfold parseLine.
  destruct (StringsExt.TrimSpace line) as [|c t]; [done|].
  destruct (Ascii.eqb c "#"); [done|].
  destruct (StringsExt.SplitN2 _ _) as [|k [|v [|? ?]]]; simpl; try done.
  by apply ordered_Set.
Qed.

Lemma ordered_length m : ordered m → Z.of_nat (length (Keys m)) = Size m.
Proof.
  intros [Hnd Hdom]. unfold Keys, Size. f_equal.
  rewrite <- size_dom. unfold size at 1, set_size. simpl.
  apply Permutation_length, NoDup_Permutation; [done|apply NoDup_elements|].
  intros k. by rewrite elem_of_elements, elem_of_dom.
Qed.

End order_invariant.

(** ** The order of the keys after [Set] *)

Section set_order.

Implicit Types (m : Map) (k key value : string) (l : list string).

Lemma filter_all {A} (P : A → Prop) `{!∀ x, Decision (P x)} (xs : list A) :
  (∀ x, x ∈ xs → P x) → filter P xs = xs.
Proof.
  induction xs as [|x xs IH]; intros Hall; [done|].
  rewrite filter_cons_True by (apply Hall; left).
  f_equal. apply IH. intros y Hy. apply Hall. by right.
Qed.

Lemma remove_first_filter key l :
  NoDup l → remove_first key l = filter (.≠ key) l.
Proof.
  induction l as [|k l IH]; simpl; [done|].
  intros [Hk Hl]%NoDup_cons.
  destruct (String.eqb_spec k key) as [->|Hne].
  - rewrite filter_cons_False by (by intros ?).
    symmetry. apply filter_all. by intros x Hx ->.
  - rewrite filter_cons_True by done. by rewrite IH.
Qed.

Lemma kv_Set m key value : kv (Set_ m key value) = <[key := value]> (kv m).
Proof.
  unfold Set_. case_bool_decide; simpl; [|done]. apply insert_delete_eq.
Qed.

Lemma o_Set m key value :
  ordered m → o (Set_ m key value) = filter (.≠ key) (o m) ++ [key].
Proof.
  intros [Hnd Hdom]. unfold Set_. case_bool_decide as Hin; simpl.
  - by rewrite remove_first_filter.
  - f_equal. symmetry. apply filter_all.
    intros x Hx ->. by apply Hin, Hdom.
Qed.

End set_order.

(** ** The invariant on every map, and [Set] on a present key *)

Lemma built_ordered m : built m → ordered m.
Proof.
  induction 1;
    eauto using ordered_NewMap, ordered_Set, ordered_Remove, ordered_Merge,
      ordered_parseLine, ordered_SubTree, ordered_Clone.
Qed.

(** C5: every map built by the operations of the package ([NewMap], [Set],
    [Remove], [Merge], [parseLine], [SubTree], [Clone]) has an order slice
    that lists exactly the keys of its mapping, each once; hence
    [len(m.Keys()) == m.Size()] and [m.Keys()] has no duplicate. *)
Theorem order_invariant m :
  built m →
  ordered m ∧ Z.of_nat (length (Keys m)) = Size m ∧ NoDup (Keys m).
Proof.
  intros Hm%built_ordered. split; [done|]. split.
  - by apply ordered_length.
  - by destruct Hm.
Qed.

Lemma order_invariant_witness :
  ordered sette ∧ Z.of_nat (length (Keys sette)) = Size sette ∧ NoDup (Keys sette).
Proof.
  apply (order_invariant sette).
  unfold sette. repeat apply built_Set. apply built_NewMap.
Defined.

(** C6: setting a key that is already present leaves the size unchanged,
    makes [Get] return the new value and makes the key the last element of
    [Keys].  The key moves: on a map that satisfies the order invariant,
    which every map of the package does, [Keys] is afterwards the former
    list without the key, in the same order, followed by the key, so that
    the key occurs once, at the end, and [Keys] keeps its length. *)
Theorem Set_present_key m key value :
  ContainsKey m key = true →
  Size (Set_ m key value) = Size m
  ∧ Get (Set_ m key value) key = value
  ∧ last (Keys (Set_ m key value)) = Some key
  ∧ (ordered m →
     Keys (Set_ m key value) = filter (.≠ key) (Keys m) ++ [key]
     ∧ length (Keys (Set_ m key value)) = length (Keys m)).
Proof.
  unfold ContainsKey. intros Hin%bool_decide_eq_true.
  assert (Hsize : Size (Set_ m key value) = Size m).
  { unfold Size. rewrite kv_Set. by rewrite map_size_insert_Some. }
  split; [done|]. split; [|split].
  - unfold Get. by rewrite kv_Set, lookup_insert_eq.
  - unfold Set_, Keys. rewrite bool_decide_eq_true_2 by done. simpl.
    apply last_snoc.
  - intros Hm. split; [by apply o_Set|].
    apply Nat2Z.inj.
    rewrite (ordered_length m Hm), <- Hsize.
    by apply ordered_length, ordered_Set.
Qed.

Lemma Set_present_key_witness :
  Size (Set_ sette "sette.discovery.something.2" "x") = Size sette
  ∧ Get (Set_ sette "sette.discovery.something.2" "x") "sette.discovery.something.2" = "x"
  ∧ last (Keys (Set_ sette "sette.discovery.something.2" "x"))
    = Some "sette.discovery.something.2"
  ∧ Keys (Set_ sette "sette.discovery.something.2" "x")
    = filter (.≠ "sette.discovery.something.2") (Keys sette)
      ++ ["sette.discovery.something.2"]
  ∧ length (Keys (Set_ sette "sette.discovery.something.2" "x"))
    = length (Keys sette).
Proof.
  destruct (Set_present_key sette "sette.discovery.something.2" "x")
    as (Hsize & Hget & Hlast & Hmove).
  { vm_compute. reflexivity. }
  split; [done|]. split; [done|]. split; [done|].
  apply Hmove. unfold sette. repeat apply ordered_Set. apply ordered_NewMap.
Defined.

(** ** Strings *)

Section string_facts.

Implicit Types (s t u : string) (c : ascii).

Lemma append_nil_l s : EmptyString +:+ s = s.
Proof. reflexivity. Qed.

Lemma append_cons c s t : String c s +:+ t = String c (s +:+ t).
Proof. reflexivity. Qed.

Lemma append_nil_r s : s +:+ EmptyString = s.
Proof. induction s as [|c s IH]; [done | by rewrite append_cons, IH]. Qed.

Lemma append_assoc s t u : (s +:+ t) +:+ u = s +:+ (t +:+ u).
Proof. induction s as [|c s IH]; [done | by rewrite !append_cons, IH]. Qed.

Lemma length_append s t :
  String.length (s +:+ t) = (String.length s + String.length t)%nat.
Proof. induction s as [|c s IH]; [done | by rewrite append_cons; simpl; rewrite IH]. Qed.

Lemma HasPrefix_append s t : Strings.HasPrefix (s +:+ t) s = true.
Proof.
  induction s as [|c s IH]; [by destruct t|].
  rewrite append_cons. simpl. by rewrite Ascii.eqb_refl, IH.
Qed.

Lemma HasPrefix_split s p :
  Strings.HasPrefix s p = true → s = p +:+ Strings.drop (String.length p) s.
Proof.
  revert s. induction p as [|a p IH]; intros [|b s]; simpl; try done.
  intros [Hab Hp]%andb_true_iff. apply Ascii.eqb_eq in Hab as ->.
  rewrite append_cons. f_equal. by apply IH.
Qed.

Lemma drop_append s t : Strings.drop (String.length s) (s +:+ t) = t.
Proof. induction s as [|c s IH]; [by destruct t | by rewrite append_cons]. Qed.

End string_facts.

(** ** Decimal numbers *)

Section decimal.

Import Strconv.

Lemma digit_char_spec d :
  0 ≤ d < 10 → is_digit (digit_char d) = true ∧ digit_val (digit_char d) = d.
Proof.
  intros Hd.
  assert (Hcases : d = 0 ∨ d = 1 ∨ d = 2 ∨ d = 3 ∨ d = 4 ∨ d = 5 ∨ d = 6
                   ∨ d = 7 ∨ d = 8 ∨ d = 9) by lia.
  repeat (destruct Hcases as [->|Hcases]; [by vm_compute|]).
  subst d. by vm_compute.
Qed.

Lemma all_digits_append s t :
  all_digits (s +:+ t) = all_digits s && all_digits t.
Proof.
  induction s as [|c s IH]; [done|]. rewrite append_cons. simpl. by rewrite IH, andb_assoc.
Qed.

(** What the digit loop writes in front of [acc]: a non-empty string of
    digits that reads back as [n]. *)
Lemma format_digits_spec fuel :
  ∀ n acc, 0 ≤ n < 10 ^ Z.of_nat (S fuel) →
    ∃ ds, format_digits (S fuel) n acc = ds +:+ acc
          ∧ ds ≠ EmptyString
          ∧ all_digits ds = true
          ∧ ∀ a rest, parse_digits a (ds +:+ rest)
                      = parse_digits (a * 10 ^ Z.of_nat (String.length ds) + n) rest.
Proof.
  assert (Hone : ∀ n, 0 ≤ n < 10 →
    let ds := String (digit_char (n mod 10)) EmptyString in
    ds ≠ EmptyString ∧ all_digits ds = true
    ∧ ∀ a rest, parse_digits a (ds +:+ rest)
                = parse_digits (a * 10 ^ Z.of_nat (String.length ds) + n) rest).
  { intros n Hn. rewrite Z.mod_small by done.
    destruct (digit_char_spec _ Hn) as [Hdig Hval].
    cbv zeta. split; [done|]. split; [by simpl; rewrite Hdig|].
    intros a rest. rewrite append_cons, append_nil_l. simpl.
    rewrite Hdig, Hval. f_equal; lia. }
  induction fuel as [|fuel IH]; intros n acc Hn.
  { change (10 ^ Z.of_nat 1) with 10 in Hn.
    simpl format_digits. destruct (Z.ltb_spec n 10) as [_|?]; [|lia].
    exists (String (digit_char (n mod 10)) EmptyString).
    split; [done|]. by apply Hone. }
  change (format_digits (S (S fuel)) n acc)
    with (let acc' := String (digit_char (n mod 10)) acc in
          if Z.ltb n 10 then acc' else format_digits (S fuel) (n / 10) acc').
  cbv zeta.
  destruct (Z.ltb_spec n 10) as [Hlt|Hge].
  { exists (String (digit_char (n mod 10)) EmptyString).
    split; [done|]. apply Hone. lia. }
  assert (Hmod : 0 ≤ n mod 10 < 10) by (apply Z.mod_pos_bound; lia).
  destruct (digit_char_spec _ Hmod) as [Hdig Hval].
  assert (Hdiv : 0 ≤ n / 10 < 10 ^ Z.of_nat (S fuel)).
  { split; [apply Z.div_pos; lia|].
    apply Z.div_lt_upper_bound; [lia|].
    rewrite (Nat2Z.inj_succ (S fuel)), Z.pow_succ_r in Hn by lia. lia. }
  destruct (IH (n / 10) (String (digit_char (n mod 10)) acc) Hdiv)
    as (ds & Hfmt & Hne & Hall & Hparse).
  exists (ds +:+ String (digit_char (n mod 10)) EmptyString).
  rewrite Hfmt, append_assoc. split; [done|]. split; [|split].
  - by destruct ds.
  - rewrite all_digits_append, Hall. simpl. by rewrite Hdig.
  - intros a rest. rewrite append_assoc, append_cons, append_nil_l.
    rewrite Hparse. simpl. rewrite Hdig, Hval, length_append. simpl.
    f_equal. rewrite Nat2Z.inj_add, Z.pow_add_r by lia.
    change (Z.of_nat 1) with 1. rewrite Z.pow_1_r.
    pose proof (Z.div_mod n 10 ltac:(lia)). lia.
Qed.

Lemma format_unsigned_spec n :
  0 ≤ n →
  format_unsigned n ≠ EmptyString
  ∧ all_digits (format_unsigned n) = true
  ∧ parse_digits 0 (format_unsigned n) = Some n.
Proof.
  intros Hn. unfold format_unsigned.
  assert (Hfuel : 0 ≤ n < 10 ^ Z.of_nat (S (Z.to_nat (Z.log2 n)))).
  { split; [done|].
    rewrite Nat2Z.inj_succ, Z2Nat.id by apply Z.log2_nonneg.
    destruct (decide (n = 0)) as [->|Hpos]; [by vm_compute|].
    assert (n < 2 ^ Z.succ (Z.log2 n)) by (apply Z.log2_spec; lia).
    assert (2 ^ Z.succ (Z.log2 n) ≤ 10 ^ Z.succ (Z.log2 n)).
    { apply Z.pow_le_mono_l. lia. }
    lia. }
  destruct (format_digits_spec _ n EmptyString Hfuel) as (ds & Hfmt & Hne & Hall & Hparse).
  rewrite Hfmt, append_nil_r. split; [done|]. split; [done|].
  rewrite <- (append_nil_r ds), Hparse. simpl. f_equal; lia.
Qed.

Lemma all_digits_head s :
  all_digits s = true → s ≠ EmptyString →
  ∃ c t, s = String c t ∧ Ascii.eqb c "-" = false ∧ Ascii.eqb c "+" = false.
Proof.
  destruct s as [|c t]; [done|]. simpl. intros [Hc _]%andb_true_iff _.
  exists c, t. split; [done|].
  split; apply Ascii.eqb_neq; intros ->; by vm_compute in Hc.
Qed.

(** Reading back what [Itoa] prints. *)
Lemma Atoi_Itoa i : 0 ≤ i ≤ maxInt → Atoi (Itoa i) = Some i.
Proof.
  intros [Hi Hmax]. unfold Itoa.
  destruct (Z.ltb_spec i 0) as [?|_]; [lia|].
  destruct (format_unsigned_spec i Hi) as (Hne & Hall & Hparse).
  destruct (all_digits_head _ Hall Hne) as (c & t & Heq & Hm & Hp).
  unfold Atoi. rewrite Heq, Hm, Hp, <- Heq, Hparse.
  destruct (Z.leb_spec minInt i) as [_|Hlt]; [|unfold minInt in Hlt; lia].
  destruct (Z.leb_spec i maxInt) as [_|?]; [done | lia].
Qed.

Lemma Itoa_digits i : 0 ≤ i → all_digits (Itoa i) = true.
Proof.
  intros Hi. unfold Itoa. destruct (Z.ltb_spec i 0) as [?|_]; [lia|].
  by apply format_unsigned_spec.
Qed.

Lemma Itoa_inj i j : 0 ≤ i → 0 ≤ j → Itoa i = Itoa j → i = j.
Proof.
  intros Hi Hj. unfold Itoa.
  destruct (Z.ltb_spec i 0) as [?|_]; [lia|].
  destruct (Z.ltb_spec j 0) as [?|_]; [lia|].
  intros Heq.
  destruct (format_unsigned_spec i Hi) as (_ & _ & Hpi).
  destruct (format_unsigned_spec j Hj) as (_ & _ & Hpj).
  rewrite Heq in Hpi. congruence.
Qed.

End decimal.

(** ** Numeric keys *)

Section numeric_keys.

Import Strconv.

Lemma decode_ascii c t :
  Utf8.byte_of c < Utf8.RuneSelf →
  Utf8.decode (String c t) = (Utf8.byte_of c, 1%nat, true).
Proof.
  intros Hc. unfold Utf8.decode.
  by destruct (Z.ltb_spec (Utf8.byte_of c) Utf8.RuneSelf) as [_|?]; [|lia].
Qed.

Lemma runes_ascii c t :
  Utf8.byte_of c < Utf8.RuneSelf →
  Utf8.runes (String c t) = Utf8.byte_of c :: Utf8.runes t.
Proof.
  intros Hc. unfold Utf8.runes. simpl String.length.
  change (Utf8.runes_from (S (String.length t)) (String c t))
    with (let '(r, size, ok) := Utf8.decode (String c t) in
          (r, size, ok) :: Utf8.runes_from (String.length t)
                             (Strings.drop size (String c t))).
  by rewrite decode_ascii.
Qed.

Lemma is_digit_range c :
  is_digit c = true ↔ 48 ≤ Utf8.byte_of c ≤ 57.
Proof.
  unfold is_digit, Utf8.in_range. rewrite andb_true_iff, !Z.leb_le. tauto.
Qed.

Lemma isNotDigit_ascii c t :
  Utf8.byte_of c < Utf8.RuneSelf →
  isNotDigit (String c t) = negb (is_digit c) || isNotDigit t.
Proof.
  intros Hc. unfold isNotDigit. rewrite runes_ascii by done. simpl.
  f_equal. unfold is_digit, Utf8.in_range.
  destruct (Z.ltb_spec (Utf8.byte_of c) 48), (Z.ltb_spec 57 (Utf8.byte_of c)),
    (Z.leb_spec 48 (Utf8.byte_of c)), (Z.leb_spec (Utf8.byte_of c) 57);
    simpl; try done; lia.
Qed.

Lemma isNotDigit_digits s : all_digits s = true → isNotDigit s = false.
Proof.
  induction s as [|c s IH]; [done|]. simpl.
  intros [Hc Hs]%andb_true_iff.
  rewrite isNotDigit_ascii, Hc, IH; [done..|].
  apply is_digit_range in Hc. unfold Utf8.RuneSelf. lia.
Qed.

Lemma parse_digits_nonneg s : ∀ a n, 0 ≤ a → parse_digits a s = Some n → 0 ≤ n.
Proof.
  induction s as [|c s IH]; simpl; intros a n Ha.
  - intros [= <-]. done.
  - destruct (is_digit c) eqn:Hc; [|done].
    apply IH. apply is_digit_range in Hc. unfold digit_val. lia.
Qed.

(** A key made of digits only is read by [Atoi] as a number of the range
    of a non-negative [int]. *)
Lemma Atoi_range key i :
  isNotDigit key = false → Atoi key = Some i → 0 ≤ i ≤ maxInt.
Proof.
  intros Hnd. unfold Atoi.
  assert (Hbody : match key with
                  | String c t =>
                      if Ascii.eqb c "-" then (true, t)
                      else if Ascii.eqb c "+" then (false, t) else (false, key)
                  | EmptyString => (false, key)
                  end = (false, key)).
  { destruct key as [|c t]; [done|].
    destruct (Ascii.eqb_spec c "-") as [->|_].
    { rewrite isNotDigit_ascii in Hnd by by vm_compute. done. }
    destruct (Ascii.eqb_spec c "+") as [->|_]; [|done].
    rewrite isNotDigit_ascii in Hnd by by vm_compute. done. }
  rewrite Hbody. destruct key as [|c t]; [done|].
  destruct (parse_digits 0 (String c t)) as [n|] eqn:Hp; [|done].
  apply parse_digits_nonneg in Hp; [|done].
  destruct (Z.leb_spec minInt n), (Z.leb_spec n maxInt); simpl; try done.
  intros [= <-]. lia.
Qed.

Lemma elem_of_numeric_indexes_acc keys : ∀ acc i,
  i ∈ fold_left
        (fun indexes key =>
           if isNotDigit key then indexes
           else match Atoi key with
                | Some idx => indexes ++ [idx]
                | None => indexes
                end) keys acc
  ↔ i ∈ acc ∨ ∃ key, key ∈ keys ∧ isNotDigit key = false ∧ Atoi key = Some i.
Proof.
  induction keys as [|key keys IH]; simpl; intros acc i.
  - split; [by left|]. intros [?|(key & ?%elem_of_nil & _)]; done.
  - rewrite IH. split.
    + intros [Hacc|(key' & Hin & Hnd & Hat)].
      * destruct (isNotDigit key) eqn:Hnd; [by left|].
        destruct (Atoi key) as [idx|] eqn:Hat; [|by left].
        apply elem_of_app in Hacc as [?| ->%list_elem_of_singleton]; [by left|].
        right. exists key. split; [left|]; done.
      * right. exists key'. split; [by right | done].
    + intros [Hacc|(key' & Hin & Hnd & Hat)].
      * left. destruct (isNotDigit key); [done|].
        destruct (Atoi key); [|done]. apply elem_of_app. by left.
      * apply elem_of_cons in Hin as [-> |Hin].
        -- left. rewrite Hnd, Hat. apply elem_of_app. right.
           by apply list_elem_of_singleton.
        -- right. by exists key'.
Qed.

Lemma elem_of_numeric_indexes keys i :
  i ∈ numeric_indexes keys
  ↔ ∃ key, key ∈ keys ∧ isNotDigit key = false ∧ Atoi key = Some i.
Proof.
  unfold numeric_indexes. rewrite elem_of_numeric_indexes_acc. split.
  - intros [?%elem_of_nil|?]; done.
  - by right.
Qed.

(** The numbers found among the keys of an ordered map are exactly the
    non-negative [int] values whose decimal form is a key. *)
Lemma numeric_indexes_canonical m i :
  ordered m → 0 ≤ i ≤ maxInt → is_Some (kv m !! Itoa i) →
  i ∈ numeric_indexes (o m).
Proof.
  intros [_ Hdom] Hi Hkey. apply elem_of_numeric_indexes.
  exists (Itoa i). split; [by apply Hdom|]. split.
  - apply isNotDigit_digits, Itoa_digits. lia.
  - by apply Atoi_Itoa.
Qed.

End numeric_keys.

(** ** The second loop of [ExtractSubIndexLists] *)

Section emit.

Import Strconv.
Context (subProps : Map).

Lemma emit_indexed_spec indexes : ∀ prev res have,
  emit_indexed subProps prev indexes res have =
  (res ++ map (fun i => Get subProps (Itoa i)) (emitted_indexes subProps prev indexes),
   have || negb (bool_decide (emitted_indexes subProps prev indexes = []))).
Proof.
  induction indexes as [|idx rest IH]; simpl; intros prev res have.
  - by rewrite app_nil_r, orb_false_r.
  - destruct (match prev with Some p => Z.eqb idx p | None => false end); [apply IH|].
    unfold GetOk, Get at 1.
    destruct (kv subProps !! Itoa idx) as [v|] eqn:Hv.
    + rewrite bool_decide_eq_true_2 by eauto. rewrite IH. simpl.
      rewrite Hv. simpl. rewrite <- app_assoc. simpl. by rewrite orb_true_r.
    + rewrite bool_decide_eq_false_2 by (by intros [? ?]). apply IH.
Qed.

Lemma emitted_indexes_sorted indexes : ∀ prev,
  StronglySorted Z.le indexes →
  Forall (not_below prev) indexes →
  StronglySorted Z.lt (emitted_indexes subProps prev indexes)
  ∧ Forall (above prev) (emitted_indexes subProps prev indexes).
Proof.
  induction indexes as [|idx rest IH]; simpl; intros prev Hsorted Hprev.
  { split; constructor. }
  apply StronglySorted_inv in Hsorted as [Hrest Hle].
  apply Forall_cons in Hprev as [Hidx _].
  destruct (IH (Some idx) Hrest Hle) as [Hs Hab].
  assert (Hweak : Forall (above prev) (emitted_indexes subProps (Some idx) rest)).
  { eapply Forall_impl; [exact Hab|]. intros x Hx.
    destruct prev as [p|]; simpl in *; [lia | done]. }
  destruct prev as [p|]; simpl in *.
  - destruct (Z.eqb_spec idx p) as [->|Hne]; [done|].
    case_bool_decide; [|done].
    split; [by constructor|]. constructor; [simpl; lia | done].
  - case_bool_decide; [|done].
    split; [by constructor|]. by constructor.
Qed.

Lemma elem_of_emitted_indexes indexes : ∀ prev i,
  StronglySorted Z.le indexes →
  Forall (not_below prev) indexes →
  i ∈ emitted_indexes subProps prev indexes
  ↔ i ∈ indexes ∧ above prev i ∧ is_Some (kv subProps !! Itoa i).
Proof.
  induction indexes as [|idx rest IH]; simpl; intros prev i Hsorted Hprev.
  { split; [by intros ?%elem_of_nil | by intros [?%elem_of_nil _]]. }
  apply StronglySorted_inv in Hsorted as [Hrest Hle].
  apply Forall_cons in Hprev as [Hidx _].
  pose proof (IH (Some idx) i Hrest Hle) as IHi. simpl in IHi.
  assert (Hrest_ge : i ∈ rest → idx ≤ i).
  { intros Hi. by eapply Forall_forall in Hle. }
  assert (Hskip : i ∈ emitted_indexes subProps (Some idx) rest
                  ↔ i ∈ rest ∧ i ≠ idx ∧ is_Some (kv subProps !! Itoa i)).
  { rewrite IHi. split.
    - intros (? & ? & ?). repeat split; [done | lia | done].
    - intros (Hi & ? & ?). specialize (Hrest_ge Hi). repeat split; [done | lia | done]. }
  rewrite elem_of_cons.
  destruct (match prev with Some p => Z.eqb idx p | None => false end) eqn:Hdup.
  - destruct prev as [p|]; [|done]. apply Z.eqb_eq in Hdup as ->. simpl.
    rewrite Hskip. split.
    + intros (Hi & ? & ?). specialize (Hrest_ge Hi). repeat split; [by right | lia | done].
    + intros ([->|Hi] & ? & ?); [lia|]. repeat split; [done | lia | done].
  - assert (Hab : above prev idx).
    { destruct prev as [p|]; simpl in *; [|done].
      apply Z.eqb_neq in Hdup. lia. }
    assert (Hmono : ∀ x, idx ≤ x → above prev x).
    { intros x Hx. destruct prev as [p|]; simpl in *; [lia | done]. }
    case_bool_decide as Hkey.
    + rewrite elem_of_cons, Hskip. split.
      * intros [->|(Hi & ? & ?)]; [by repeat split; [left|..]|].
        repeat split; [by right | by apply Hmono, Hrest_ge | done].
      * intros ([->|Hi] & ? & ?); [by left|].
        destruct (decide (i = idx)) as [->|?]; [by left | by right].
    + rewrite Hskip. split.
      * intros (Hi & ? & ?).
        repeat split; [by right | by apply Hmono, Hrest_ge | done].
      * intros ([->|Hi] & ? & Hk); [done|].
        repeat split; [done | by intros -> | done].
Qed.

End emit.

(** ** [ExtractSubIndexLists] *)

(** C9: on the keys [sette.discovery.something.01], [.2], [.05] and [.5]
    with the values [itemA], [itemB], [itemC] and [itemD], inserted in that
    order, [ExtractSubIndexLists("sette.discovery.something")] returns
    exactly [itemB] and [itemD]. *)
Theorem ExtractSubIndexLists_sette :
  ExtractSubIndexLists sette "sette.discovery.something" = ["itemB"; "itemD"].
Proof. by vm_compute. Qed.

(** C1, as the specification states it, fails on the map of the test
    suite: the key [01] is the only child key that reads as 1, yet its
    value [itemA] is not part of the result; and of the two keys [05] and
    [5], which both read as 5, [05] was inserted first, yet the value
    emitted is [itemD], the one of [5], and not [itemC]. *)
Lemma zero_padded_keys_do_not_contribute :
  let subProps := SubTree sette "sette.discovery.something" in
  let res := ExtractSubIndexLists sette "sette.discovery.something" in
  Keys subProps = ["01"; "2"; "05"; "5"]
  ∧ kv subProps !! "01" = Some "itemA"
  ∧ Strconv.Atoi "01" = Some 1
  ∧ (∀ key, key ∈ Keys subProps → Strconv.Atoi key = Some 1 → key = "01")
  ∧ ("itemA" ∉ res)
  ∧ Strconv.Atoi "05" = Some 5 ∧ Strconv.Atoi "5" = Some 5
  ∧ kv subProps !! "05" = Some "itemC"
  ∧ ("itemC" ∉ res)
  ∧ res = ["itemB"; "itemD"].
Proof.
  cbv zeta.
  assert (Hkeys : Keys (SubTree sette "sette.discovery.something")
                  = ["01"; "2"; "05"; "5"]) by by vm_compute.
  assert (Hres : ExtractSubIndexLists sette "sette.discovery.something"
                 = ["itemB"; "itemD"]) by by vm_compute.
  rewrite Hres, Hkeys.
  split; [done|]. split; [by vm_compute|]. split; [by vm_compute|].
  split.
  { intros key Hkey.
    repeat (apply elem_of_cons in Hkey as [-> |Hkey]; [by vm_compute|]).
    by apply elem_of_nil in Hkey. }
  split.
  { intros Hin. repeat (apply elem_of_cons in Hin as [[=]|Hin]).
    by apply elem_of_nil in Hin. }
  split; [by vm_compute|]. split; [by vm_compute|]. split; [by vm_compute|].
  split; [|done].
  intros Hin. repeat (apply elem_of_cons in Hin as [[=]|Hin]).
  by apply elem_of_nil in Hin.
Qed.

(** C1, amended: the child keys of [subTree(p)] are read as integers only
    to find which indexes occur.  The value emitted for an index [i] is the
    one stored under its unpadded decimal key [Itoa i]: the result lists,
    in strictly ascending order of [i] and once each, the values of the
    keys [Itoa i] of [subTree(p)] with [0 <= i <= maxInt].  A zero-padded
    key therefore never contributes its own value, and without an unpadded
    key for the same integer nothing is emitted at that index.  Without any
    such key the result is the value of [p] itself, if there is one. *)
Theorem ExtractSubIndexLists_unpadded_keys m root :
  let subProps := SubTree m root in
  ∃ indexes : list Z,
    StronglySorted Z.lt indexes
    ∧ (∀ i, i ∈ indexes
            ↔ 0 ≤ i ≤ Strconv.maxInt ∧ is_Some (kv subProps !! Strconv.Itoa i))
    ∧ ExtractSubIndexLists m root =
        match indexes with
        | [] => match kv m !! root with Some value => [value] | None => [] end
        | _ :: _ => map (fun i => Get subProps (Strconv.Itoa i)) indexes
        end.
Proof.
  intros subProps.
  set (sorted := sort_Ints (numeric_indexes (o subProps))).
  assert (Hsorted : StronglySorted Z.le sorted).
  { apply StronglySorted_merge_sort; apply _. }
  assert (Hnone : Forall (not_below None) sorted).
  { by apply Forall_forall. }
  exists (emitted_indexes subProps None sorted).
  split; [by apply emitted_indexes_sorted|]. split.
  - intros i. rewrite elem_of_emitted_indexes by done.
    unfold sorted, sort_Ints. rewrite merge_sort_Permutation. simpl. split.
    + intros ((key & _ & Hnd & Hat)%elem_of_numeric_indexes & _ & Hkey).
      split; [by eapply Atoi_range | done].
    + intros [Hi Hkey]. split; [|done].
      by apply numeric_indexes_canonical; [apply ordered_SubTree|..].
  - unfold ExtractSubIndexLists. fold subProps. fold sorted.
    rewrite emit_indexed_spec. simpl.
    destruct (emitted_indexes subProps None sorted) as [|i is_]; simpl.
    + unfold GetOk. by destruct (kv m !! root).
    + done.
Qed.

(** ** [SubTree] and the numbered sub-trees *)

Section subtrees.

Import Strconv.

Lemma Size_nonneg m : 0 ≤ Size m.
Proof. unfold Size. lia. Qed.

Lemma SubTree_no_prefix m rootKey :
  (∀ key, key ∈ o m → Strings.HasPrefix key (rootKey +:+ ".") = false) →
  SubTree m rootKey = NewMap.
Proof.
  unfold SubTree. generalize NewMap.
  induction (o m) as [|key l IH]; simpl; intros acc Hl; [done|].
  rewrite (Hl key) by left. simpl. apply IH. intros k Hk. apply Hl. by right.
Qed.

Lemma SubTree_nonempty m rootKey :
  0 < Size (SubTree m rootKey) →
  ∃ key, key ∈ o m ∧ Strings.HasPrefix key (rootKey +:+ ".") = true.
Proof.
  intros Hsize.
  destruct (existsb (fun key => Strings.HasPrefix key (rootKey +:+ ".")) (o m)) eqn:Hex.
  - apply existsb_exists in Hex as (key & Hin & Hp).
    exists key. by rewrite list_elem_of_In.
  - rewrite SubTree_no_prefix in Hsize; [done|].
    intros key Hin. rewrite list_elem_of_In in Hin.
    destruct (Strings.HasPrefix key (rootKey +:+ ".")) eqn:Hp; [|done].
    assert (existsb (fun key => Strings.HasPrefix key (rootKey +:+ ".")) (o m) = true)
      by (apply existsb_exists; eauto).
    congruence.
Qed.

Lemma cut_cons sep c s :
  StringsExt.cut sep (String c s) =
  if Ascii.eqb c sep then Some (EmptyString, s)
  else match StringsExt.cut sep s with
       | Some (a, b) => Some (String c a, b)
       | None => None
       end.
Proof. reflexivity. Qed.

Lemma cut_digits d rest :
  all_digits d = true →
  StringsExt.cut "." (d +:+ "." +:+ rest) = Some (d, rest).
Proof.
  induction d as [|c d IH]; [done|]. simpl all_digits.
  intros [Hc Hd]%andb_true_iff. rewrite append_cons, cut_cons.
  destruct (Ascii.eqb_spec c ".") as [->|_]; [by vm_compute in Hc|].
  by rewrite IH.
Qed.

Lemma first_segment_index key idx :
  0 ≤ idx → Strings.HasPrefix key (Itoa idx +:+ ".") = true →
  first_segment key = Itoa idx.
Proof.
  intros Hidx Hp. apply HasPrefix_split in Hp. rewrite Hp, append_assoc.
  unfold first_segment. by rewrite cut_digits by by apply Itoa_digits.
Qed.

(** The numbered sub-trees that are not empty take their keys from
    different keys of the map: there are no more of them than keys. *)
Lemma has_index_count m (idxs : list Z) :
  NoDup idxs → (∀ idx, idx ∈ idxs → 0 ≤ idx ∧ has_index m idx) →
  (length idxs ≤ length (o m))%nat.
Proof.
  intros Hnd Hall.
  rewrite <- (length_fmap Itoa idxs), <- (length_fmap first_segment (o m)).
  apply submseteq_length, NoDup_submseteq.
  - apply NoDup_fmap_2_strong; [|done].
    intros i j Hi Hj. apply Itoa_inj; by apply Hall.
  - intros s (idx & -> & Hin)%list_elem_of_fmap.
    destruct (Hall idx Hin) as [Hidx (key & Hkey & Hp)%SubTree_nonempty].
    apply list_elem_of_fmap. exists key. split; [|done].
    symmetry. by apply first_segment_index.
Qed.

Lemma has_index_dec m idx : {has_index m idx} + {Size (SubTree m (Itoa idx)) = 0}.
Proof.
  unfold has_index. destruct (Z_lt_dec 0 (Size (SubTree m (Itoa idx)))) as [?|?].
  - by left.
  - right. pose proof (Size_nonneg (SubTree m (Itoa idx))). lia.
Qed.

(** The first index from 1 on whose sub-tree is empty. *)
Lemma first_gap_below m (n : nat) :
  (∃ B, 1 ≤ B ≤ Z.of_nat n ∧ Size (SubTree m (Itoa B)) = 0
        ∧ ∀ j, 1 ≤ j < B → has_index m j)
  ∨ (∀ j, 1 ≤ j ≤ Z.of_nat n → has_index m j).
Proof.
  induction n as [|n [(B & HB & Hgap & Hfull)|Hfull]].
  - right. intros j Hj. lia.
  - left. exists B. split; [lia | done].
  - destruct (has_index_dec m (Z.of_nat (S n))) as [Hin|Hgap].
    + right. intros j Hj.
      destruct (decide (j = Z.of_nat (S n))) as [->|?]; [done|]. apply Hfull. lia.
    + left. exists (Z.of_nat (S n)). split; [lia|]. split; [done|].
      intros j Hj. apply Hfull. lia.
Qed.

Lemma first_gap m :
  ∃ B, 1 ≤ B ≤ Z.of_nat (length (o m)) + 1
       ∧ Size (SubTree m (Itoa B)) = 0
       ∧ ∀ j, 1 ≤ j < B → has_index m j.
Proof.
  destruct (first_gap_below m (S (length (o m)))) as [(B & HB & Hgap & Hfull)|Hfull].
  - exists B. split; [lia | done].
  - exfalso.
    pose proof (has_index_count m (Z.of_nat <$> seq 1 (S (length (o m))))) as Hcount.
    rewrite length_fmap, length_seq in Hcount.
    enough (S (length (o m)) ≤ length (o m))%nat by lia.
    apply Hcount.
    + apply NoDup_fmap_2; [apply _ | apply NoDup_seq].
    + intros idx (k & -> & Hk%elem_of_seq)%list_elem_of_fmap.
      split; [lia|]. apply Hfull. lia.
Qed.

(** The scan from [idx] on stops at the first gap [B], after [B + 1]
    probes. *)
Lemma scan_indexed_to_gap m B :
  1 ≤ B → Size (SubTree m (Itoa B)) = 0 →
  (∀ j, 1 ≤ j < B → has_index m j) →
  ∀ (k : nat) idx have res fuel,
    0 ≤ idx ≤ B → Z.of_nat k = B - idx → (k < fuel)%nat →
    ∃ res' have',
      scan_indexed fuel m idx have res = Some (res', have', B + 1)
      ∧ (have' = have ∨ have' = true)
      ∧ ((∀ j, idx ≤ j ≤ B → Size (SubTree m (Itoa j)) = 0) →
         res' = res ∧ have' = have).
Proof.
  intros HB Hgap Hfull.
  induction k as [|k IH]; intros idx have res fuel Hidx Hk Hfuel;
    (destruct fuel as [|fuel]; [lia|]); simpl.
  - assert (idx = B) as -> by lia. rewrite Hgap. simpl.
    destruct (Z.ltb_spec 1 (B + 1)) as [_|?]; [|lia].
    exists res, have. split; [done|]. split; [by left | done].
  - destruct (Z.ltb_spec 0 (Size (SubTree m (Itoa idx)))) as [Hin|Hout].
    + destruct (IH (idx + 1) true (res ++ [SubTree m (Itoa idx)]) fuel)
        as (res' & have' & Hscan & Hhave & _); [lia..|].
      exists res', have'. split; [done|]. split.
      * right. by destruct Hhave.
      * intros Hnone. specialize (Hnone idx). lia.
    + destruct (Z.ltb_spec 1 (idx + 1)) as [Hpos|Hzero].
      { assert (has_index m idx) by (apply Hfull; lia).
        unfold has_index in *. lia. }
      destruct (IH (idx + 1) have res fuel)
        as (res' & have' & Hscan & Hhave & Hnone'); [lia..|].
      exists res', have'. split; [done|]. split; [done|].
      intros Hnone. apply Hnone'. intros j Hj. apply Hnone. lia.
Qed.

End subtrees.

(** ** [ExtractSubIndexSets] *)

Lemma scan_indexed_more_fuel m fuel : ∀ fuel' idx have res r,
  scan_indexed fuel m idx have res = Some r → (fuel ≤ fuel')%nat →
  scan_indexed fuel' m idx have res = Some r.
Proof.
  induction fuel as [|fuel IH]; intros fuel' idx have res r; simpl; [done|].
  intros Hscan Hle. destruct fuel' as [|fuel']; [lia|]. simpl.
  destruct (Z.ltb 0 (Size (SubTree m (Strconv.Itoa idx)))).
  - apply IH; [done | lia].
  - destruct (Z.ltb 1 (idx + 1)); [done|]. apply IH; [done | lia].
Qed.

(** C10: the scanning loop of [ExtractSubIndexSets] terminates on every map
    and root.  It probes the indexes 0, 1, 2, ... and stops at the first
    index from 1 on whose sub-tree is empty, so that it makes at most
    [N + 2] probes when [N] is the largest index with a non-empty sub-tree,
    and 2 probes when there is none.  The number of probes is also at most
    the number of keys of the sub-tree plus 2, so that the counter stays far
    from the end of the range of [int]. *)
Theorem scan_indexed_terminates m root :
  let portIDPropsSet := SubTree m root in
  ∃ res have probes,
    (∀ fuel, (Z.to_nat probes ≤ fuel)%nat →
       scan_indexed fuel portIDPropsSet 0 false [] = Some (res, have, probes))
    ∧ 2 ≤ probes ≤ Size portIDPropsSet + 2
    ∧ Size (SubTree portIDPropsSet (Strconv.Itoa (probes - 1))) = 0
    ∧ (∀ j, 1 ≤ j < probes - 1 → has_index portIDPropsSet j)
    ∧ (∀ N, 0 ≤ N → has_index portIDPropsSet N →
            (∀ j, 0 ≤ j → has_index portIDPropsSet j → j ≤ N) →
            probes ≤ N + 2)
    ∧ ((∀ j, 0 ≤ j → ¬ has_index portIDPropsSet j) → probes = 2).
Proof.
  intros sub.
  destruct (first_gap sub) as (B & HB & Hgap & Hfull).
  destruct (scan_indexed_to_gap sub B ltac:(lia) Hgap Hfull
              (Z.to_nat B) 0 false [] (Z.to_nat (B + 1)))
    as (res & have & Hscan & _); [lia..|].
  exists res, have, (B + 1).
  replace (B + 1 - 1) with B by lia.
  split; [|split; [|split; [done|split; [done|split]]]].
  - intros fuel Hfuel. by eapply scan_indexed_more_fuel.
  - rewrite <- (ordered_length sub) by apply ordered_SubTree.
    unfold Keys. lia.
  - intros N HN HinN Hmax.
    destruct (decide (B = 1)) as [->|?]; [lia|].
    assert (B - 1 ≤ N); [|lia]. apply Hmax; [lia|]. apply Hfull. lia.
  - intros Hnone.
    destruct (decide (B = 1)) as [->|?]; [done|].
    destruct (Hnone 1); [lia|]. apply Hfull. lia.
Qed.

Lemma scan_indexed_terminates_witness :
  ∃ res have, ∀ fuel, (2 ≤ fuel)%nat →
    scan_indexed fuel (SubTree sette "sette.discovery") 0 false []
    = Some (res, have, 2).
Proof.
  destruct (scan_indexed_terminates sette "sette.discovery")
    as (res & have & probes & Hscan & _ & _ & _ & _ & Hnone).
  assert (probes = 2) as ->.
  { apply Hnone. intros j Hj (key & Hkey & Hp)%SubTree_nonempty.
    apply first_segment_index in Hp; [|done].
    pose proof (Itoa_digits j Hj) as Hdigits. rewrite <- Hp in Hdigits.
    assert (Hkeys : o (SubTree sette "sette.discovery")
                    = ["something.01"; "something.2"; "something.05"; "something.5"])
      by by vm_compute.
    rewrite Hkeys in Hkey.
    repeat (apply elem_of_cons in Hkey as [-> |Hkey]; [by vm_compute in Hdigits|]).
    by apply elem_of_nil in Hkey. }
  exists res, have. exact Hscan.
Defined.

(** C2, as the specification states it, fails when [subTree(p)] is empty:
    no indexed sub-map is found, and the result is the empty list, not the
    list with [subTree(p)] as its only element. *)
Lemma ExtractSubIndexSets_empty_subtree :
  let portIDPropsSet := SubTree NewMap "uno.upload_port" in
  (∀ idx, Size (SubTree portIDPropsSet (Strconv.Itoa idx)) = 0)
  ∧ ∀ fuel, ExtractSubIndexSets fuel NewMap "uno.upload_port" = Some []
            ∧ ExtractSubIndexSets fuel NewMap "uno.upload_port" ≠ Some [portIDPropsSet].
Proof.
  cbv zeta. split.
  - intros idx. rewrite SubTree_no_prefix; [done|].
    by intros key ?%elem_of_nil.
  - intros fuel. unfold ExtractSubIndexSets.
    change (Size (SubTree NewMap "uno.upload_port")) with 0. simpl. by split.
Qed.

(** C2, amended: when the scan finds no indexed sub-map, that is when the
    sub-trees of the two indexes probed, 0 and 1, are empty, the result is
    the list with the whole [subTree(p)] as its only element if
    [subTree(p)] is not empty, and the empty list if it is empty. *)
Theorem ExtractSubIndexSets_flat m root :
  let portIDPropsSet := SubTree m root in
  Size (SubTree portIDPropsSet "0") = 0 →
  Size (SubTree portIDPropsSet "1") = 0 →
  ∀ fuel, (2 ≤ fuel)%nat →
    ExtractSubIndexSets fuel m root =
    Some (if Z.eqb (Size portIDPropsSet) 0 then [] else [portIDPropsSet]).
Proof.
  intros sub H0 H1 fuel Hfuel. unfold ExtractSubIndexSets. fold sub.
  destruct (Z.eqb (Size sub) 0); [done|].
  destruct fuel as [|[|fuel]]; [lia..|]. simpl.
  change (Strconv.Itoa 0) with "0". change (Strconv.Itoa (0 + 1)) with "1".
  by rewrite H0, H1.
Qed.

Lemma ExtractSubIndexSets_flat_witness :
  ExtractSubIndexSets 2 sette "sette.discovery" =
  Some (if Z.eqb (Size (SubTree sette "sette.discovery")) 0 then []
        else [SubTree sette "sette.discovery"]).
Proof.
  apply (ExtractSubIndexSets_flat sette "sette.discovery"); [by vm_compute.. | lia].
Defined.

(** ** [strings.Replace] and [parseLine] *)

Section replace.

Import Strings.

Lemma Contains_cons c s old :
  Contains (String c s) old = HasPrefix (String c s) old || Contains s old.
Proof. reflexivity. Qed.

Lemma Index_cons c s old :
  Index (String c s) old =
  if HasPrefix (String c s) old then Some O else option_map S (Index s old).
Proof. reflexivity. Qed.

Lemma Index_None s old : Index s old = None ↔ Contains s old = false.
Proof.
  induction s as [|c s IH].
  - destruct old; simpl; by split.
  - rewrite Contains_cons, Index_cons.
    destruct (HasPrefix (String c s) old); [by split|].
    rewrite orb_false_l, <- IH. destruct (Index s old); simpl; by split.
Qed.

(** Without an occurrence of [old] the loop copies the text. *)
Lemma replace_from_absent n old new s :
  Contains s old = false → replace_from 0 n old new s = s.
Proof.
  induction s as [|c s IH]; [done|].
  rewrite Contains_cons. intros [Hp Hs]%orb_false_iff.
  change (replace_from 0 n old new (String c s))
    with (match n with
          | Some O => String c s
          | _ => if HasPrefix (String c s) old
                 then new +:+ replace_from (Nat.pred (String.length old))
                                (option_map Nat.pred n) old new s
                 else String c (replace_from 0 n old new s)
          end).
  rewrite Hp, IH by done. by destruct n as [[|?]|].
Qed.

Lemma Replace_absent s old new n :
  Contains s old = false → Replace s old new n = s.
Proof.
  intros Hs. unfold Replace.
  destruct (String.eqb old new || Z.eqb n 0); [done|].
  by apply replace_from_absent.
Qed.

(** Once the allowed replacements are made, the rest of a match is
    dropped and the text that follows is copied. *)
Lemma replace_from_done old new s : ∀ skip,
  replace_from skip (Some O) old new s = drop skip s.
Proof.
  induction s as [|c s IH]; intros [|skip]; simpl; done.
Qed.

Lemma take_cons n c s :
  StringsExt.take (S n) (String c s) = String c (StringsExt.take n s).
Proof. reflexivity. Qed.

Lemma take_0 s : StringsExt.take 0 s = EmptyString.
Proof. by destruct s. Qed.

(** One replacement: the first occurrence of [old], wherever it is. *)
Lemma replace_from_first old new s :
  old ≠ EmptyString →
  replace_from 0 (Some 1%nat) old new s =
  match Index s old with
  | Some i => StringsExt.take i s +:+ new +:+ drop (i + String.length old) s
  | None => s
  end.
Proof.
  intros Hold. induction s as [|c s IH].
  - simpl. by destruct old.
  - rewrite Index_cons.
    change (replace_from 0 (Some 1%nat) old new (String c s))
      with (if HasPrefix (String c s) old
            then new +:+ replace_from (Nat.pred (String.length old)) (Some O) old new s
            else String c (replace_from 0 (Some 1%nat) old new s)).
    destruct (HasPrefix (String c s) old) eqn:Hp.
    + rewrite replace_from_done, take_0, append_nil_l.
      by destruct old as [|a old].
    + rewrite IH. destruct (Index s old) as [i|]; simpl; [|done].
      by rewrite take_cons, append_cons.
Qed.

Lemma Index_suffix_only pre old :
  Index (pre +:+ old) old = Some (String.length pre) →
  StringsExt.take (String.length pre) (pre +:+ old) = pre
  ∧ drop (String.length pre + String.length old) (pre +:+ old) = EmptyString.
Proof.
  intros _. induction pre as [|c pre [IH1 IH2]].
  - simpl. rewrite append_nil_l, take_0. split; [done|].
    induction old as [|a old IH]; [done | exact IH].
  - rewrite append_cons. simpl String.length. rewrite take_cons, IH1.
    split; [done | exact IH2].
Qed.

Lemma replace_from_cons n old new c s :
  replace_from 0 n old new (String c s) =
  match n with
  | Some O => String c s
  | _ => if HasPrefix (String c s) old
         then new +:+ replace_from (Nat.pred (String.length old))
                        (option_map Nat.pred n) old new s
         else String c (replace_from 0 n old new s)
  end.
Proof. reflexivity. Qed.

Lemma replace_from_skip k n old new c s :
  replace_from (S k) n old new (String c s) = replace_from k n old new s.
Proof. reflexivity. Qed.

End replace.

(** C4 fails in the code.  The source names the value [osSuffix], a
    suffix, and the specification asks that the marker, a dot followed by
    this suffix, is stripped where it ends the key and only there; the
    source calls [strings.Replace(key, "."+osSuffix, "", 1)], which removes
    the first occurrence of the marker wherever it is.  With the marker
    [.linux], a key that has the marker in the middle and at the end loses
    the occurrence in the middle and keeps the one at the end; a key that
    has it in the middle only is not inserted unchanged; and a key loses
    the marker even where it is the beginning of a longer segment. *)
Theorem parseLine_strips_marker_in_the_middle :
  Keys (fst (parseLine "linux" NewMap "tools.linux.cmd.linux=avrdude"))
  = ["tools.cmd.linux"]
  ∧ Keys (fst (parseLine "linux" NewMap "tools.linux.cmd.linux=avrdude"))
    ≠ ["tools.linux.cmd"]
  ∧ Keys (fst (parseLine "linux" NewMap "tools.linux.cmd=avrdude")) = ["tools.cmd"]
  ∧ Keys (fst (parseLine "linux" NewMap "tools.linux.cmd=avrdude"))
    ≠ ["tools.linux.cmd"]
  ∧ Keys (fst (parseLine "linux" NewMap "tools.linux_helper.path=bin"))
    = ["tools_helper.path"]
  ∧ Keys (fst (parseLine "linux" NewMap "tools.linux_helper.path=bin"))
    ≠ ["tools.linux_helper.path"].
Proof. by vm_compute. Qed.

(** What [parseLine] does with the key [k] of a line (after trimming): it
    removes the first occurrence of the marker, a dot followed by the
    platform suffix, wherever it is in [k], and only that one.  A key in
    which the marker does not occur is inserted unchanged; a key that ends
    in the marker and does not contain it before is inserted with that
    trailing marker removed. *)
Theorem parseLine_removes_first_marker osSuffix m line c rest k v :
  StringsExt.TrimSpace line = String c rest →
  c ≠ "#"%char →
  StringsExt.cut "=" (String c rest) = Some (k, v) →
  let key := StringsExt.TrimSpace k in
  let marker := "." +:+ osSuffix in
  ∃ key',
    parseLine osSuffix m line = (Set_ m key' (StringsExt.TrimSpace v), None)
    ∧ (∀ i, Strings.Index key marker = Some i →
            key' = StringsExt.take i key
                   +:+ Strings.drop (i + String.length marker) key)
    ∧ (Strings.Contains key marker = false → key' = key)
    ∧ (∀ pre, key = pre +:+ marker →
              Strings.Index key marker = Some (String.length pre) → key' = pre).
Proof.
  intros Hline Hc Hcut key marker.
  exists (Strings.Replace key marker EmptyString 1).
  assert (Hrepl : Strings.Replace key marker EmptyString 1 =
                  match Strings.Index key marker with
                  | Some i => StringsExt.take i key
                              +:+ Strings.drop (i + String.length marker) key
                  | None => key
                  end).
  { unfold Strings.Replace. simpl.
    rewrite replace_from_first by done. by rewrite append_nil_l. }
  split; [|split; [|split]].
  - unfold parseLine. rewrite Hline.
    destruct (Ascii.eqb_spec c "#") as [?|_]; [done|].
    unfold StringsExt.SplitN2. by rewrite Hcut.
  - intros i Hi. by rewrite Hrepl, Hi.
  - intros Habs%Index_None. by rewrite Hrepl, Habs.
  - intros pre Hkey Hi. rewrite Hrepl, Hi. rewrite Hkey in Hi |- *.
    destruct (Index_suffix_only pre marker Hi) as [-> ->].
    apply append_nil_r.
Qed.

Lemma parseLine_removes_first_marker_witness :
  ∃ key',
    parseLine "linux" NewMap " tools.cmd.linux = avrdude "
    = (Set_ NewMap key' (StringsExt.TrimSpace " avrdude "), None)
    ∧ (∀ i, Strings.Index (StringsExt.TrimSpace "tools.cmd.linux ") ("." +:+ "linux")
            = Some i →
            key' = StringsExt.take i (StringsExt.TrimSpace "tools.cmd.linux ")
                   +:+ Strings.drop (i + String.length ("." +:+ "linux"))
                         (StringsExt.TrimSpace "tools.cmd.linux "))
    ∧ (Strings.Contains (StringsExt.TrimSpace "tools.cmd.linux ") ("." +:+ "linux")
       = false → key' = StringsExt.TrimSpace "tools.cmd.linux ")
    ∧ (∀ pre, StringsExt.TrimSpace "tools.cmd.linux " = pre +:+ ("." +:+ "linux") →
              Strings.Index (StringsExt.TrimSpace "tools.cmd.linux ") ("." +:+ "linux")
              = Some (String.length pre) → key' = pre).
Proof.
  apply (parseLine_removes_first_marker "linux" NewMap " tools.cmd.linux = avrdude "
           "t" "ools.cmd.linux = avrdude" "tools.cmd.linux " " avrdude").
  - by vm_compute.
  - done.
  - by vm_compute.
Defined.

(** ** Expansion of placeholders *)

Section expansion.

Implicit Types (order : nat → list (string * string)) (str : string).

Lemma expand_pass_unmarked entries str :
  (∀ key value, (key, value) ∈ entries →
     Strings.Contains str ("{" +:+ key +:+ "}") = false) →
  expand_pass entries str = str.
Proof.
  unfold expand_pass.
  induction entries as [|[key value] entries IH]; simpl; intros Hno; [done|].
  rewrite Replace_absent by (apply (Hno key value); left).
  apply IH. intros k v Hin. apply (Hno k v). by right.
Qed.

(** The loop makes a pass or more while passes remain, and never more
    than remain. *)
Lemma expand_loop_passes order remaining : ∀ i str,
  (i + Nat.min 1 remaining ≤ snd (expand_loop order remaining i str) ≤ i + remaining)%nat.
Proof.
  induction remaining as [|remaining IH]; intros i str; simpl; [lia|].
  destruct (String.eqb str (expand_pass (order i) str)); simpl; [lia|].
  specialize (IH (S i) (expand_pass (order i) str)). lia.
Qed.

Lemma expand_loop_step order remaining i str :
  expand_loop order (S remaining) i str =
  if String.eqb str (expand_pass (order i) str) then (str, S i)
  else expand_loop order remaining (S i) (expand_pass (order i) str).
Proof. reflexivity. Qed.

Lemma self_referential_entries :
  map_to_list (kv self_referential) = [("key1", "42"); ("key2", "{key2}")].
Proof. by vm_compute. Qed.

Lemma cyclic_entries :
  map_to_list (kv cyclic) = [("a", "{b}"); ("b", "{a}")].
Proof. by vm_compute. Qed.

Lemma expand_loop_fixed_point order remaining : ∀ i str,
  (snd (expand_loop order remaining i str) < i + remaining)%nat →
  expand_pass (order (snd (expand_loop order remaining i str) - 1)%nat)
    (fst (expand_loop order remaining i str))
  = fst (expand_loop order remaining i str).
Proof.
  induction remaining as [|remaining IH]; intros i str; simpl; [lia|].
  destruct (String.eqb_spec str (expand_pass (order i) str)) as [Heq|Hne]; simpl.
  - intros _. replace (i - 0)%nat with i by lia. by rewrite <- Heq.
  - intros Hlt. apply IH. lia.
Qed.

(** The loop returns the string after the passes that it made, and every
    pass but the last one changed the string. *)
Lemma expand_loop_result order remaining : ∀ i str,
  fst (expand_loop order remaining i str)
  = expand_passes order (snd (expand_loop order remaining i str) - i) i str
  ∧ ∀ j, (j < snd (expand_loop order remaining i str) - i - 1)%nat →
         expand_passes order (S j) i str ≠ expand_passes order j i str.
Proof.
  induction remaining as [|remaining IH]; intros i str; simpl.
  { replace (i - i)%nat with 0%nat by lia. split; [done|]. intros j Hj. lia. }
  destruct (String.eqb_spec str (expand_pass (order i) str)) as [Heq|Hne]; simpl.
  - replace (S i - i)%nat with 1%nat by lia. simpl. split; [done|].
    intros j Hj. lia.
  - destruct (IH (S i) (expand_pass (order i) str)) as [Hres Hchg].
    pose proof (expand_loop_passes order remaining (S i) (expand_pass (order i) str))
      as [Hlow _].
    set (r := expand_loop order remaining (S i) (expand_pass (order i) str)) in *.
    replace (snd r - i)%nat with (S (snd r - S i)) by lia. simpl.
    split; [done|]. intros [|j] Hj; simpl.
    + congruence.
    + apply Hchg. lia.
Qed.

Lemma expand_loop_ext order order' remaining : ∀ i str,
  (∀ j, order j = order' j) →
  expand_loop order remaining i str = expand_loop order' remaining i str.
Proof.
  induction remaining as [|remaining IH]; intros i str Hext; simpl; [done|].
  rewrite Hext. destruct (String.eqb _ _); [done|]. by apply IH.
Qed.

(** A property of the string that every pass keeps holds of the result. *)
Lemma expand_loop_invariant (P : string → Prop) order remaining : ∀ i str,
  (∀ j s, P s → P (expand_pass (order j) s)) →
  P str → P (fst (expand_loop order remaining i str)).
Proof.
  induction remaining as [|remaining IH]; intros i str Hpass Hstr; simpl; [done|].
  destruct (String.eqb _ _); [done|]. apply IH; [done|]. by apply Hpass.
Qed.

Lemma growing_entries : map_to_list (kv growing) = [("a", "x{a}")].
Proof. by vm_compute. Qed.

(** C7: the expansion never fails and never loops.  Whatever the map, the
    order of iteration and the string, [expandProps] returns the string as
    it is after a number of passes that is at least 1 and at most 10;
    every pass but the last one changed the string, and when fewer than 10
    passes were made the last one left it unchanged.  Markers that are not
    resolved stay in the result as they are: for every order of iteration,
    the self-referential map of the test suite expands
    ["{key1} == {key2} == true"] to ["42 == {key2} == true"]; the map
    [a = x{a}], on which no pass reaches a fixed point, expands ["{a}"] to
    the outcome of 10 passes, ten [x] followed by the marker, which a
    further pass would change again; and the two placeholders that refer
    to each other expand ["{a}"] to ["{a}"] or to ["{b}"]. *)
Theorem expandProps_bounded :
  (∀ order str,
     ∃ passes, (1 ≤ passes ≤ 10)%nat
       ∧ expandProps order str = expand_passes order passes 0 str
       ∧ (∀ j, (j < passes - 1)%nat →
               expand_passes order (S j) 0 str ≠ expand_passes order j 0 str)
       ∧ ((passes < 10)%nat →
          expand_pass (order (passes - 1)%nat) (expandProps order str)
          = expandProps order str))
  ∧ (∀ order, iteration_order self_referential order →
       expandProps order "{key1} == {key2} == true" = "42 == {key2} == true")
  ∧ (∀ order, iteration_order growing order →
       expandProps order "{a}" = "xxxxxxxxxx{a}"
       ∧ expandProps order "{a}" = expand_passes order 10 0 "{a}"
       ∧ ∀ j, expand_pass (order j) (expandProps order "{a}")
              ≠ expandProps order "{a}")
  ∧ (∀ order, iteration_order cyclic order →
       expandProps order "{a}" = "{a}" ∨ expandProps order "{a}" = "{b}").
Proof.
  split; [|split; [|split]].
  - intros order str. exists (snd (expand_loop order 10 0 str)).
    pose proof (expand_loop_passes order 10 0 str) as Hpasses.
    destruct (expand_loop_result order 10 0 str) as [Hres Hchg].
    rewrite Nat.sub_0_r in Hres.
    split; [lia|]. split; [done|]. split.
    + intros j Hj. apply Hchg. lia.
    + intros Hlt. unfold expandProps. by apply expand_loop_fixed_point.
  - intros order Horder. unfold expandProps.
    pose proof (Horder 0%nat) as H0. pose proof (Horder 1%nat) as H1.
    rewrite self_referential_entries in H0, H1.
    symmetry in H0, H1.
    apply Permutation_length_2_inv in H0, H1.
    rewrite expand_loop_step.
    assert (Hpass0 : expand_pass (order 0%nat) "{key1} == {key2} == true"
                     = "42 == {key2} == true").
    { by destruct H0 as [-> | ->]; vm_compute. }
    rewrite Hpass0. simpl String.eqb. cbv iota.
    rewrite expand_loop_step.
    assert (Hpass1 : expand_pass (order 1%nat) "42 == {key2} == true"
                     = "42 == {key2} == true").
    { by destruct H1 as [-> | ->]; vm_compute. }
    rewrite Hpass1. by rewrite String.eqb_refl.
  - intros order Horder.
    assert (Hext : ∀ j, order j = (fun _ => [("a", "x{a}")]) j).
    { intros j. apply Permutation_singleton_r.
      rewrite (Horder j), growing_entries. done. }
    assert (Hres : expandProps order "{a}" = "xxxxxxxxxx{a}").
    { unfold expandProps.
      rewrite (expand_loop_ext order _ 10 0 "{a}" Hext). by vm_compute. }
    split; [done|]. split.
    + rewrite Hres. simpl. rewrite !Hext. by vm_compute.
    + intros j. rewrite Hres, Hext. by vm_compute.
  - intros order Horder. unfold expandProps.
    apply (expand_loop_invariant (fun s => s = "{a}" ∨ s = "{b}")); [|by left].
    intros j s Hs. pose proof (Horder j) as Hj.
    rewrite cyclic_entries in Hj. symmetry in Hj.
    apply Permutation_length_2_inv in Hj.
    destruct Hs as [-> | ->], Hj as [-> | ->]; vm_compute; auto.
Qed.

Lemma expandProps_bounded_witness :
  expandProps (fun _ => [("key2", "{key2}"); ("key1", "42")])
    "{key1} == {key2} == true" = "42 == {key2} == true"
  ∧ expandProps (fun _ => [("a", "x{a}")]) "{a}" = "xxxxxxxxxx{a}"
  ∧ (expandProps (fun _ => [("b", "{a}"); ("a", "{b}")]) "{a}" = "{a}"
     ∨ expandProps (fun _ => [("b", "{a}"); ("a", "{b}")]) "{a}" = "{b}").
Proof.
  destruct expandProps_bounded as (_ & Hself & Hgrow & Hcyc).
  split; [|split].
  - apply Hself. intros i. rewrite self_referential_entries. apply perm_swap.
  - apply (Hgrow (fun _ => [("a", "x{a}")])). intros i. by rewrite growing_entries.
  - apply Hcyc. intros i. rewrite cyclic_entries. apply perm_swap.
Defined.


End expansion.

(** ** The tokenizer *)

Section tokenizer.

Context (quoteChars : string) (acceptEmptyArguments : bool).

(** The rune 0 is not one of the quote characters. *)
Hypothesis no_nul_quote : isQuote quoteChars 0 = false.

Lemma firstRune_spec s :
  firstRune s = default (0, 0) (first_rune_of s).
Proof. unfold firstRune, first_rune_of. by destruct (_ || _). Qed.

Lemma lastRune_spec s :
  lastRune s = default (0, 0) (last_rune_of s).
Proof. unfold lastRune, last_rune_of. by destruct (_ || _). Qed.

Lemma split_close_spec st quote current :
  opened st = Some quote → quote ≠ 0 →
  split_close acceptEmptyArguments (state_of st) current
  = state_of (quoted_continue acceptEmptyArguments st quote current)
  ∧ proper (quoted_continue acceptEmptyArguments st quote current).
Proof.
  intros Hst Hq. unfold split_close, quoted_continue, state_of, proper.
  rewrite lastRune_spec, Hst. simpl.
  destruct (last_rune_of current) as [[last size]|]; simpl.
  - destruct (Z.eqb_spec last quote) as [->|Hne]; simpl.
    + unfold keep_token. by destruct (_ || _).
    + split; [done | congruence].
  - destruct quote as [|p|p]; [done|..]; simpl; (split; [done | congruence]).
Qed.

Lemma split_step_spec st current :
  proper st →
  split_step quoteChars acceptEmptyArguments (state_of st) current
  = state_of (quoted_step quoteChars acceptEmptyArguments st current)
  ∧ proper (quoted_step quoteChars acceptEmptyArguments st current).
Proof.
  intros Hst. unfold split_step, quoted_step.
  destruct (opened st) as [quote|] eqn:Hopen.
  - assert (quote ≠ 0) by (unfold proper in Hst; congruence).
    replace (Z.eqb (escapingChar (state_of st)) 0) with false.
    + by apply split_close_spec.
    + unfold state_of. rewrite Hopen. simpl. symmetry. by apply Z.eqb_neq.
  - replace (Z.eqb (escapingChar (state_of st)) 0) with true
      by (unfold state_of; by rewrite Hopen).
    rewrite firstRune_spec.
    destruct (first_rune_of current) as [[first size]|]; simpl.
    + destruct (isQuote quoteChars first) eqn:Hquote; simpl.
      * assert (first ≠ 0) by (intros ->; congruence).
        apply (split_close_spec (mkQuoted (tokens st) (Some first) EmptyString));
          done.
      * unfold keep_token, state_of, proper. rewrite Hopen. simpl.
        by destruct (_ || _).
    + rewrite no_nul_quote. simpl.
      unfold keep_token, state_of, proper. rewrite Hopen. simpl.
      by destruct (_ || _).
Qed.

Lemma split_loop_spec pieces : ∀ st,
  proper st →
  split_loop quoteChars acceptEmptyArguments pieces (state_of st)
  = state_of (fold_left (quoted_step quoteChars acceptEmptyArguments) pieces st)
  ∧ proper (fold_left (quoted_step quoteChars acceptEmptyArguments) pieces st).
Proof.
  unfold split_loop.
  induction pieces as [|current pieces IH]; simpl; intros st Hst; [done|].
  destruct (split_step_spec st current Hst) as [-> Hproper]. by apply IH.
Qed.

(** When 0 is not a quote character, the source computes what the
    specification describes: the error is there exactly when a quote is
    open at the end of the input, it names that quote, and the tokens
    completed before come with it. *)
Lemma SplitQuotedString_refines src :
  SplitQuotedString src quoteChars acceptEmptyArguments
  = SplitQuoted_spec src quoteChars acceptEmptyArguments.
Proof.
  unfold SplitQuotedString, SplitQuoted_spec.
  destruct (split_loop_spec (StringsExt.Split src " ") (mkQuoted [] None EmptyString))
    as [Heq Hproper]; [done|].
  change (mkSplit [] 0 EmptyString) with (state_of (mkQuoted [] None EmptyString)).
  rewrite Heq. clear Heq.
  set (st := fold_left _ _ _) in *.
  unfold state_of, proper in *. cbn [escapingChar result].
  destruct (opened st) as [quote|]; cbn [default from_option id]; [|done].
  by destruct (Z.eqb_spec quote 0) as [->|_].
Qed.

End tokenizer.

(** C8 holds for the quote characters other than the rune 0, as
    [SplitQuotedString_refines] shows, and fails for that one: with the
    character of code 0 as the quote character, the input made of that
    character followed by [abc] opens a quote that is never closed; the
    specification asks for an error that names the quote, and the source
    returns no token and no error, because it reads the value 0 of
    [escapingChar] as "no quote is open". *)
Theorem SplitQuotedString_nul_quote :
  let nul := String "000" EmptyString in
  SplitQuoted_spec (nul +:+ "abc") nul false = ([], Some (quoting_error 0))
  ∧ SplitQuotedString (nul +:+ "abc") nul false = ([], None).
Proof. by vm_compute. Qed.

(** ** The expansion on strings made of text and markers *)

Section markers.

Import Strings.

Implicit Types (k key v s : string) (c : ascii) (t : token) (ts us vs : list token).

Lemma marker_cons k : marker k = String "{" (k +:+ "}").
Proof. reflexivity. Qed.

Lemma render_lit c ts : render (Lit c :: ts) = String c (render ts).
Proof. reflexivity. Qed.

Lemma render_mark k ts : render (Mark k :: ts) = String "{" (k +:+ "}" +:+ render ts).
Proof.
  change (render (Mark k :: ts)) with (marker k +:+ render ts).
  by rewrite marker_cons, append_cons, append_assoc.
Qed.

Lemma render_app ts us : render (ts ++ us) = render ts +:+ render us.
Proof.
  induction ts as [|[c|k] ts IH]; [done| |].
  - change ((Lit c :: ts) ++ us) with (Lit c :: (ts ++ us)).
    by rewrite !render_lit, IH, append_cons.
  - change ((Mark k :: ts) ++ us) with (Mark k :: (ts ++ us)).
    change (render (Mark k :: ts ++ us)) with (marker k +:+ render (ts ++ us)).
    change (render (Mark k :: ts)) with (marker k +:+ render ts).
    by rewrite IH, append_assoc.
Qed.

Lemma is_brace_open c : is_brace c = false → Ascii.eqb "{" c = false.
Proof.
  unfold is_brace. intros [H _]%orb_false_iff.
  by rewrite Ascii.eqb_sym.
Qed.

Lemma is_brace_close c : is_brace c = false → Ascii.eqb "}" c = false.
Proof.
  unfold is_brace. intros [_ H]%orb_false_iff.
  by rewrite Ascii.eqb_sym.
Qed.

Lemma brace_free_cons c s :
  brace_free (String c s) = true ↔ is_brace c = false ∧ brace_free s = true.
Proof.
  simpl. rewrite andb_true_iff, negb_true_iff. done.
Qed.

Lemma HasPrefix_cons a p b s :
  HasPrefix (String b s) (String a p) = Ascii.eqb a b && HasPrefix s p.
Proof. reflexivity. Qed.

Lemma HasPrefix_nil s : HasPrefix s EmptyString = true.
Proof. by destruct s. Qed.

(** No marker starts at a character that is not an opening brace. *)
Lemma HasPrefix_marker_other c s k :
  Ascii.eqb "{" c = false → HasPrefix (String c s) (marker k) = false.
Proof.
  intros Hc. by rewrite marker_cons, HasPrefix_cons, Hc.
Qed.

(** Behind the opening brace, the marker of [k] matches the marker of
    [k'] when the keys are equal only. *)
Lemma HasPrefix_key k : ∀ k' s,
  brace_free k = true → brace_free k' = true →
  HasPrefix (k' +:+ "}" +:+ s) (k +:+ "}") = String.eqb k k'.
Proof.
  induction k as [|a k IH]; intros [|b k'] s Hk Hk'.
  - rewrite !append_nil_l. change ("}" +:+ s) with (String "}" s).
    change (HasPrefix (String "}" s) "}") with (Ascii.eqb "}" "}" && HasPrefix s EmptyString).
    by rewrite HasPrefix_nil.
  - apply brace_free_cons in Hk' as [Hb _].
    rewrite append_nil_l, append_cons.
    change (HasPrefix (String b (k' +:+ "}" +:+ s)) "}")
      with (Ascii.eqb "}" b && HasPrefix (k' +:+ "}" +:+ s) EmptyString).
    by rewrite (is_brace_close b Hb).
  - apply brace_free_cons in Hk as [Ha _].
    rewrite append_nil_l, (append_cons a k).
    change ("}" +:+ s) with (String "}" s). rewrite HasPrefix_cons.
    rewrite Ascii.eqb_sym, (is_brace_close a Ha). done.
  - apply brace_free_cons in Hk as [_ Hk].
    apply brace_free_cons in Hk' as [_ Hk'].
    rewrite (append_cons b k'), (append_cons a k), HasPrefix_cons, IH by done.
    simpl. by destruct (Ascii.eqb a b).
Qed.

Lemma HasPrefix_marker_mark k k' s :
  brace_free k = true → brace_free k' = true →
  HasPrefix (String "{" (k' +:+ "}" +:+ s)) (marker k) = String.eqb k k'.
Proof.
  intros Hk Hk'. rewrite marker_cons, HasPrefix_cons.
  by rewrite Ascii.eqb_refl, HasPrefix_key.
Qed.

(** Inside a key and at its closing brace no marker starts: the
    replacement loop copies them. *)
Lemma replace_from_key old_key new k : ∀ s,
  brace_free k = true →
  replace_from 0 None (marker old_key) new (k +:+ "}" +:+ s)
  = k +:+ "}" +:+ replace_from 0 None (marker old_key) new s.
Proof.
  induction k as [|a k IH]; intros s Hk.
  - rewrite !append_nil_l. change ("}" +:+ s) with (String "}" s).
    rewrite replace_from_cons, HasPrefix_marker_other by done. done.
  - apply brace_free_cons in Hk as [Ha Hk].
    rewrite !(append_cons a), replace_from_cons.
    rewrite HasPrefix_marker_other by (by apply is_brace_open).
    by rewrite IH.
Qed.

Lemma replace_from_over x : ∀ old new s,
  replace_from (String.length x) None old new (x +:+ s)
  = replace_from 0 None old new s.
Proof.
  induction x as [|a x IH]; intros old new s; [done|].
  rewrite append_cons. simpl String.length. rewrite replace_from_skip. apply IH.
Qed.

Lemma subst_lit k vs c ts : subst k vs (Lit c :: ts) = Lit c :: subst k vs ts.
Proof. reflexivity. Qed.

Lemma subst_mark k vs k' ts :
  subst k vs (Mark k' :: ts)
  = if String.eqb k' k then vs ++ subst k vs ts else Mark k' :: subst k vs ts.
Proof. reflexivity. Qed.


Lemma forallb_cons {A} (f : A → bool) x l :
  forallb f (x :: l) = true ↔ f x = true ∧ forallb f l = true.
Proof. simpl. apply andb_true_iff. Qed.

Lemma length_marker_pred k :
  Nat.pred (String.length (marker k)) = String.length (k +:+ "}").
Proof. by rewrite marker_cons. Qed.

(** The replacement loop on a string of tokens is the substitution on the
    tokens. *)
Lemma replace_from_render k v vs ts :
  brace_free k = true → forallb wf_token ts = true → v = render vs →
  replace_from 0 None (marker k) v (render ts) = render (subst k vs ts).
Proof.
  intros Hk Hts ->. induction ts as [|[c|k'] ts IH]; [done| |].
  - apply forallb_cons in Hts as [Hc Hts]. simpl in Hc.
    apply negb_true_iff in Hc.
    rewrite subst_lit, !render_lit, replace_from_cons.
    rewrite HasPrefix_marker_other by (by apply is_brace_open).
    by rewrite IH.
  - apply forallb_cons in Hts as [Hk' Hts]. simpl in Hk'.
    rewrite subst_mark, render_mark, replace_from_cons.
    rewrite HasPrefix_marker_mark by done.
    rewrite (String.eqb_sym k' k).
    destruct (String.eqb k k') eqn:Heq.
    + apply String.eqb_eq in Heq as <-.
      rewrite length_marker_pred. change (option_map Nat.pred None) with (@None nat).
      rewrite <- append_assoc, replace_from_over, IH by done.
      by rewrite render_app.
    + rewrite replace_from_key, IH by done. by rewrite render_mark.
Qed.

(** A string has one reading as tokens at most. *)
Lemma key_inj k : ∀ k' s s',
  brace_free k = true → brace_free k' = true →
  k +:+ "}" +:+ s = k' +:+ "}" +:+ s' → k = k' ∧ s = s'.
Proof.
  induction k as [|a k IH]; intros [|b k'] s s' Hk Hk'.
  - rewrite !append_nil_l.
    change ("}" +:+ s) with (String "}" s). change ("}" +:+ s') with (String "}" s').
    intros [= ->]. done.
  - apply brace_free_cons in Hk' as [Hb _].
    rewrite append_nil_l, (append_cons b k').
    change ("}" +:+ s) with (String "}" s). intros [= <- _].
    by vm_compute in Hb.
  - apply brace_free_cons in Hk as [Ha _].
    rewrite append_nil_l, (append_cons a k).
    change ("}" +:+ s') with (String "}" s'). intros [= -> _].
    by vm_compute in Ha.
  - apply brace_free_cons in Hk as [_ Hk].
    apply brace_free_cons in Hk' as [_ Hk'].
    rewrite (append_cons a k), (append_cons b k'). intros [= -> Heq].
    destruct (IH k' s s' Hk Hk' Heq) as [-> ->]. done.
Qed.

Lemma render_inj ts : ∀ us,
  forallb wf_token ts = true → forallb wf_token us = true →
  render ts = render us → ts = us.
Proof.
  induction ts as [|[c|k] ts IH]; intros [|[c'|k'] us] Hts Hus.
  - done.
  - by rewrite render_lit.
  - by rewrite render_mark.
  - by rewrite render_lit.
  - apply forallb_cons in Hts as [_ Hts]. apply forallb_cons in Hus as [_ Hus].
    rewrite !render_lit. intros [= -> Heq]. by rewrite (IH us Hts Hus Heq).
  - apply forallb_cons in Hts as [Hc _]. rewrite render_lit, render_mark.
    intros [= -> _]. by vm_compute in Hc.
  - by rewrite render_mark.
  - apply forallb_cons in Hus as [Hc _]. rewrite render_lit, render_mark.
    intros [= <- _]. by vm_compute in Hc.
  - apply forallb_cons in Hts as [Hk Hts]. apply forallb_cons in Hus as [Hk' Hus].
    simpl in Hk, Hk'. rewrite !render_mark. intros [= Heq].
    destruct (key_inj k k' _ _ Hk Hk' Heq) as [-> Hr].
    by rewrite (IH us Hts Hus Hr).
Qed.

Lemma subst_own k ts : subst k [Mark k] ts = ts.
Proof.
  induction ts as [|[c|k'] ts IH]; [done| |].
  - by rewrite subst_lit, IH.
  - rewrite subst_mark, IH. destruct (String.eqb_spec k' k) as [->|]; done.
Qed.

(** [strings.Replace] of a marker on a string of tokens. *)
Lemma Replace_render k v vs ts :
  brace_free k = true → forallb wf_token ts = true →
  forallb wf_token vs = true → v = render vs →
  Replace (render ts) (marker k) v (-1) = render (subst k vs ts).
Proof.
  intros Hk Hts Hvs Hv. unfold Replace.
  change (Z.eqb (-1) 0) with false. change (Z.ltb (-1) 0) with true.
  rewrite orb_false_r.
  destruct (String.eqb_spec (marker k) v) as [Heq|Hne].
  - assert (vs = [Mark k]) as ->.
    { apply render_inj; [done|by simpl; rewrite Hk|].
      rewrite <- Hv, <- Heq. change (render [Mark k]) with (marker k +:+ EmptyString).
      by rewrite append_nil_r. }
    by rewrite subst_own.
  - by apply replace_from_render.
Qed.

Lemma wf_app ts us :
  forallb wf_token (ts ++ us) = forallb wf_token ts && forallb wf_token us.
Proof. apply forallb_app. Qed.

Lemma wf_subst k vs ts :
  forallb wf_token vs = true → forallb wf_token ts = true →
  forallb wf_token (subst k vs ts) = true.
Proof.
  intros Hvs. induction ts as [|[c|k'] ts IH]; [done| |].
  - intros [Hc Hts]%forallb_cons. rewrite subst_lit. apply forallb_cons. auto.
  - intros [Hc Hts]%forallb_cons. rewrite subst_mark.
    destruct (String.eqb k' k).
    + rewrite wf_app, Hvs. by apply IH.
    + apply forallb_cons. auto.
Qed.

Lemma subst_app k vs ts us :
  subst k vs (ts ++ us) = subst k vs ts ++ subst k vs us.
Proof.
  induction ts as [|[c|k'] ts IH]; [done| |].
  - change ((Lit c :: ts) ++ us) with (Lit c :: (ts ++ us)).
    rewrite !subst_lit, IH. done.
  - change ((Mark k' :: ts) ++ us) with (Mark k' :: (ts ++ us)).
    rewrite !subst_mark, IH. destruct (String.eqb k' k); [|done].
    by rewrite app_assoc.
Qed.

Lemma elem_of_subst k vs ts t :
  t ∈ subst k vs ts ↔ (t ∈ ts ∧ t ≠ Mark k) ∨ (Mark k ∈ ts ∧ t ∈ vs).
Proof.
  induction ts as [|[c|k'] ts IH].
  - simpl. split; [by intros ?%elem_of_nil|].
    by intros [[?%elem_of_nil _]|[?%elem_of_nil _]].
  - rewrite subst_lit, !elem_of_cons, IH. split.
    + intros [->|[[? ?]|[? ?]]]; [left; split; [by left|done] |left; auto|right; auto].
    + intros [[[->|?] ?]|[[?|?] ?]]; [by left|right; left; auto|done|right; right; auto].
  - rewrite subst_mark. destruct (String.eqb_spec k' k) as [->|Hne].
    + rewrite elem_of_app, IH, !elem_of_cons. split.
      * intros [?|[[? ?]|[? ?]]]; [right; split; [by left|done]|left; auto|right; auto].
      * intros [[[->|?] ?]|[_ ?]]; [done|right; left; auto|by left].
    + rewrite !elem_of_cons, IH. split.
      * intros [->|[[? ?]|[? ?]]];
          [left; split; [by left|congruence]|left; auto|right; auto].
      * intros [[[->|?] ?]|[[?|?] ?]];
          [by left|right; left; auto|congruence|right; right; auto].
Qed.

(** What [scan_tokens] reads renders to the string that it read. *)
Lemma scan_tokens_spec s : ∀ pending ts,
  scan_tokens pending s = Some ts →
  match pending with
  | None => s = render ts ∧ forallb wf_token ts = true
  | Some k => ∃ k' ts', ts = Mark (k +:+ k') :: ts'
                        ∧ s = k' +:+ "}" +:+ render ts'
                        ∧ brace_free k' = true
                        ∧ forallb wf_token ts' = true
  end.
Proof.
  induction s as [|c s IH]; intros [k|] ts; simpl.
  - done.
  - by intros [= <-].
  - destruct (Ascii.eqb_spec c "}") as [->|Hclose].
    + destruct (scan_tokens None s) as [ts0|] eqn:Hscan; [|done].
      intros [= <-]. destruct (IH None ts0 Hscan) as [-> Hwf].
      exists EmptyString, ts0. by rewrite append_nil_r.
    + destruct (Ascii.eqb_spec c "{") as [->|Hopen]; [done|].
      intros Hscan. destruct (IH _ _ Hscan) as (k' & ts' & -> & -> & Hk' & Hwf).
      exists (String c k'), ts'. rewrite append_assoc.
      split; [done|]. split; [done|]. split; [|done].
      apply brace_free_cons. split; [|done]. unfold is_brace.
      apply orb_false_iff. split; by apply Ascii.eqb_neq.
  - destruct (Ascii.eqb_spec c "{") as [->|Hopen].
    + intros Hscan. destruct (IH _ _ Hscan) as (k' & ts' & -> & -> & Hk' & Hwf).
      rewrite append_nil_l, render_mark. split; [done|].
      apply forallb_cons. done.
    + destruct (Ascii.eqb_spec c "}") as [->|Hclose]; [done|].
      destruct (scan_tokens None s) as [ts0|] eqn:Hscan; [|done].
      intros [= <-]. destruct (IH None ts0 Hscan) as [-> Hwf].
      rewrite render_lit. split; [done|]. apply forallb_cons. split; [|done].
      simpl. apply negb_true_iff. unfold is_brace.
      apply orb_false_iff. split; by apply Ascii.eqb_neq.
Qed.

Lemma tokens_of_spec s ts :
  tokens_of s = Some ts → s = render ts ∧ forallb wf_token ts = true.
Proof. apply (scan_tokens_spec s None). Qed.

Lemma value_tokens_spec v :
  is_Some (tokens_of v) →
  v = render (value_tokens v) ∧ forallb wf_token (value_tokens v) = true.
Proof.
  intros [vs Hvs]. unfold value_tokens. rewrite Hvs. simpl.
  by apply tokens_of_spec.
Qed.

Lemma Contains_HasPrefix s p : HasPrefix s p = true → Contains s p = true.
Proof.
  intros Hp. destruct s as [|c s]; [|by rewrite Contains_cons, Hp].
  change (Contains EmptyString p) with (HasPrefix EmptyString p || false).
  by rewrite Hp.
Qed.

Lemma Contains_append_r p s sub :
  Contains s sub = true → Contains (p +:+ s) sub = true.
Proof.
  intros Hs. induction p as [|a p IH]; [done|].
  rewrite append_cons, Contains_cons, IH. apply orb_true_r.
Qed.

(** The marker of a key of the token list occurs in the string. *)
Lemma Contains_render_mark k ts :
  Mark k ∈ ts → Contains (render ts) (marker k) = true.
Proof.
  induction ts as [|t ts IH]; [by intros ?%elem_of_nil|].
  intros [<-|Hin]%elem_of_cons.
  - apply Contains_HasPrefix.
    change (render (Mark k :: ts)) with (marker k +:+ render ts).
    apply HasPrefix_append.
  - destruct t as [c|k'].
    + rewrite render_lit, Contains_cons, IH by done. apply orb_true_r.
    + change (render (Mark k' :: ts)) with (marker k' +:+ render ts).
      apply Contains_append_r. by apply IH.
Qed.

Lemma Contains_key k k' : ∀ s,
  brace_free k' = true →
  Contains (k' +:+ "}" +:+ s) (marker k) = Contains s (marker k).
Proof.
  induction k' as [|a k' IH]; intros s Hk'.
  - rewrite append_nil_l. change ("}" +:+ s) with (String "}" s).
    by rewrite Contains_cons, HasPrefix_marker_other.
  - apply brace_free_cons in Hk' as [Ha Hk'].
    rewrite (append_cons a), Contains_cons.
    rewrite HasPrefix_marker_other by (by apply is_brace_open).
    by rewrite IH.
Qed.

(** In a string of tokens a marker occurs as one of the tokens only. *)
Lemma Contains_render k ts :
  brace_free k = true → forallb wf_token ts = true →
  Contains (render ts) (marker k) = true → Mark k ∈ ts.
Proof.
  intros Hk. induction ts as [|[c|k'] ts IH].
  - intros _. by rewrite marker_cons.
  - intros [Hc Hts]%forallb_cons. simpl in Hc. apply negb_true_iff in Hc.
    rewrite render_lit, Contains_cons.
    rewrite HasPrefix_marker_other by (by apply is_brace_open).
    intros Hin. right. by apply IH.
  - intros [Hk' Hts]%forallb_cons. simpl in Hk'.
    rewrite render_mark, Contains_cons, HasPrefix_marker_mark by done.
    destruct (String.eqb_spec k k') as [->|Hne]; [by left|].
    rewrite Contains_key by done. intros Hin. right. by apply IH.
Qed.

Context (m : Map) (Hflat : flat_map m = true).

Lemma flat_map_lookup k v :
  kv m !! k = Some v →
  brace_free k = true
  ∧ v = render (value_tokens v) ∧ forallb wf_token (value_tokens v) = true.
Proof.
  intros Hk. unfold flat_map in Hflat.
  rewrite forallb_forall in Hflat.
  specialize (Hflat (k, v)). simpl in Hflat.
  destruct (proj1 (andb_true_iff _ _)
              (Hflat (proj1 (list_elem_of_In _ _)
                        (proj2 (elem_of_map_to_list _ _ _) Hk)))) as [Hbf Htok].
  split; [done|]. apply value_tokens_spec. by apply bool_decide_eq_true in Htok.
Qed.

(** The value of a resolved key is the one token of its marker. *)
Lemma resolved_value k v :
  kv m !! k = Some v → resolved m k = true → value_tokens v = [Mark k].
Proof.
  intros Hk Hres. destruct (flat_map_lookup k v Hk) as (Hbf & Hv & Hwf).
  unfold resolved in Hres. rewrite Hk in Hres. apply String.eqb_eq in Hres.
  apply render_inj; [done|by simpl; rewrite Hbf|].
  rewrite <- Hv, Hres. change (render [Mark k]) with (marker k +:+ EmptyString).
  by rewrite append_nil_r.
Qed.

Lemma expands_refl ts : expands m ts ts.
Proof. induction ts as [|[c|k] ts IH]; by constructor. Qed.

Lemma expands_substitution k v ts us :
  kv m !! k = Some v → expands m ts us →
  expands m ts (subst k (value_tokens v) us).
Proof.
  intros Hk Hexp.
  induction Hexp as [|c ts us _ IH|k' ts us _ IH|k' v' vs ts us Hk' _ IH1 _ IH2].
  - constructor.
  - rewrite subst_lit. by constructor.
  - rewrite subst_mark. destruct (String.eqb_spec k' k) as [->|Hne].
    + apply (expands_subst m k v); [done|apply expands_refl|done].
    + by constructor.
  - rewrite subst_app. by apply (expands_subst m k' v').
Qed.

Lemma expands_pass entries : ∀ ts us,
  (∀ k v, (k, v) ∈ entries → kv m !! k = Some v) →
  expands m ts us → expands m ts (pass_tokens entries us).
Proof.
  induction entries as [|[k v] entries IH]; intros ts us Hin Hexp; [done|].
  change (pass_tokens ((k, v) :: entries) us)
    with (pass_tokens entries (subst k (value_tokens v) us)).
  apply IH.
  - intros k' v' Hin'. apply Hin. by right.
  - apply expands_substitution; [|done]. apply Hin. by left.
Qed.

Lemma expands_nil_inv us : expands m [] us → us = [].
Proof. by inversion 1. Qed.

(** The marker of a resolved key expands to itself only. *)
Lemma expands_resolved k ts us :
  resolved m k = true → expands m ts us → ts = [Mark k] → us = [Mark k].
Proof.
  intros Hres Hexp.
  induction Hexp as [|c ts us _ IH|k' ts us Hexp IH|k' v' vs ts us Hk' _ IH1 Hexp2 IH2];
    try done.
  - intros [= -> ->]. by rewrite (expands_nil_inv us Hexp).
  - intros [= -> ->]. rewrite (expands_nil_inv us Hexp2), app_nil_r.
    apply IH1. by apply resolved_value.
Qed.

Lemma normal_cons_mark k us :
  forallb (within m 0) (Mark k :: us) = true ↔
  resolved m k = true ∧ forallb (within m 0) us = true.
Proof.
  rewrite forallb_cons. simpl. by rewrite orb_false_r.
Qed.

(** Two expansions of a token list without a marker of an unresolved key
    are equal. *)
Lemma expands_unique ts us1 :
  expands m ts us1 → forallb (within m 0) us1 = true →
  ∀ us2, expands m ts us2 → forallb (within m 0) us2 = true → us1 = us2.
Proof.
  intros Hexp.
  induction Hexp as [|c ts us _ IH|k ts us _ IH|k v vs ts us Hk Hexp1 IH1 _ IH2];
    intros Hn1 us2 Hexp2 Hn2.
  - by inversion Hexp2.
  - inversion Hexp2 as [|? ? us2' Hexp2'| |]; subst.
    apply forallb_cons in Hn1 as [_ Hn1]. apply forallb_cons in Hn2 as [_ Hn2].
    f_equal. by apply IH.
  - apply normal_cons_mark in Hn1 as [Hres Hn1].
    inversion Hexp2 as [| |? ? us2' Hexp2'|? v' vs' ? us2' Hk' Hv' Hexp2']; subst.
    + apply forallb_cons in Hn2 as [_ Hn2]. f_equal. by apply IH.
    + rewrite forallb_app in Hn2. apply andb_true_iff in Hn2 as [_ Hn2].
      rewrite (expands_resolved k _ vs' Hres Hv' (resolved_value k v' Hk' Hres)).
      simpl. f_equal. by apply IH.
  - rewrite forallb_app in Hn1. apply andb_true_iff in Hn1 as [Hnv Hn1].
    inversion Hexp2 as [| |? ? us2' Hexp2'|? v' vs' ? us2' Hk' Hv' Hexp2']; subst.
    + apply normal_cons_mark in Hn2 as [Hres Hn2].
      rewrite (expands_resolved k _ vs Hres Hexp1 (resolved_value k v Hk Hres)).
      simpl. f_equal. by apply IH2.
    + rewrite forallb_app in Hn2. apply andb_true_iff in Hn2 as [Hnv' Hn2].
      rewrite Hk in Hk'. injection Hk' as <-.
      f_equal; [by apply IH1 | by apply IH2].
Qed.

Lemma within_Mark n k :
  within m n (Mark k) =
  resolved m k || match n with
                  | O => false
                  | S n' => forallb (within m n') (value_tokens (Get m k))
                  end.
Proof. by destruct n. Qed.

(** A token that resolves within [n] levels resolves within [n + 1]. *)
Lemma within_S n : ∀ t, within m n t = true → within m (S n) t = true.
Proof.
  induction n as [|n IH]; intros [c|k]; try done.
  - rewrite !within_Mark, orb_false_r. intros ->. done.
  - rewrite (within_Mark (S (S n))), (within_Mark (S n)).
    intros [->|Hall]%orb_true_iff; [done|]. apply orb_true_iff. right.
    rewrite forallb_forall in Hall. apply forallb_forall.
    intros t Ht. apply IH. by apply Hall.
Qed.

(** One pass takes a level off: during the pass the markers of the keys
    that were visited resolve within [n] levels already. *)
Lemma pass_tokens_within n entries : ∀ visited ts,
  (∀ k v, (k, v) ∈ entries → kv m !! k = Some v) →
  (∀ t, t ∈ ts → within m (S n) t = true
                 ∧ ∀ k, t = Mark k → k ∈ visited → within m n t = true) →
  ∀ t, t ∈ pass_tokens entries ts →
       within m (S n) t = true
       ∧ ∀ k, t = Mark k → k ∈ visited ++ entries.*1 → within m n t = true.
Proof.
  induction entries as [|[k v] entries IH]; intros visited ts Hin Hts.
  { intros t Ht. simpl. rewrite app_nil_r. by apply Hts. }
  change (pass_tokens ((k, v) :: entries) ts)
    with (pass_tokens entries (subst k (value_tokens v) ts)).
  assert (Hk : kv m !! k = Some v) by (apply Hin; by left).
  intros t Ht.
  destruct (IH (visited ++ [k]) (subst k (value_tokens v) ts)) with (t := t)
    as [Ht1 Ht2]; [| |done|].
  - intros k' v' Hin'. apply Hin. by right.
  - intros t' [[Ht' Hne]|[Hmark Ht']]%elem_of_subst.
    + destruct (Hts t' Ht') as [H1 H2]. split; [done|].
      intros k' -> [Hv|Hv%list_elem_of_singleton]%elem_of_app; [by apply (H2 k')|].
      by subst.
    + destruct (Hts _ Hmark) as [H1 _].
      rewrite within_Mark in H1. apply orb_true_iff in H1 as [Hres|Hall].
      * rewrite (resolved_value k v Hk Hres) in Ht'.
        apply list_elem_of_singleton in Ht' as ->.
        assert (Hn : ∀ j, within m j (Mark k) = true).
        { intros j. by rewrite within_Mark, Hres. }
        split; [apply Hn|]. intros _ _ _. apply Hn.
      * unfold Get in Hall. rewrite Hk in Hall. simpl in Hall.
        rewrite forallb_forall in Hall.
        assert (Hn : within m n t' = true).
        { apply Hall. by apply list_elem_of_In. }
        split; [by apply within_S|]. by intros _ _ _.
  - split; [done|]. intros k' -> Hv. apply (Ht2 k'); [done|].
    simpl in Hv. rewrite <- app_assoc. done.
Qed.

Lemma pass_tokens_level n entries ts :
  (∀ k v, (k, v) ∈ entries ↔ kv m !! k = Some v) →
  forallb (within m (S n)) ts = true →
  forallb (within m n) (pass_tokens entries ts) = true.
Proof.
  intros Hin Hts. rewrite forallb_forall in Hts. apply forallb_forall.
  intros t Ht%list_elem_of_In.
  destruct (pass_tokens_within n entries [] ts) with (t := t) as [Ht1 Ht2];
    [|  |done|].
  - intros k v. apply Hin.
  - intros t' Ht'. split; [by apply Hts, list_elem_of_In|].
    by intros k _ ?%elem_of_nil.
  - destruct t as [c|k]; [by destruct n|].
    destruct (kv m !! k) as [v|] eqn:Hk.
    + apply (Ht2 k); [done|]. simpl. apply list_elem_of_fmap.
      exists (k, v). split; [done|]. by apply Hin.
    + rewrite within_Mark. unfold resolved. by rewrite Hk.
Qed.

(** A pass on the string is the pass on its tokens. *)
Lemma expand_pass_render entries : ∀ ts,
  (∀ k v, (k, v) ∈ entries → kv m !! k = Some v) →
  forallb wf_token ts = true →
  expand_pass entries (render ts) = render (pass_tokens entries ts)
  ∧ forallb wf_token (pass_tokens entries ts) = true.
Proof.
  induction entries as [|[k v] entries IH]; intros ts Hin Hts; [done|].
  change (expand_pass ((k, v) :: entries) (render ts))
    with (expand_pass entries (Replace (render ts) (marker k) v (-1))).
  change (pass_tokens ((k, v) :: entries) ts)
    with (pass_tokens entries (subst k (value_tokens v) ts)).
  destruct (flat_map_lookup k v) as (Hbf & Hv & Hwf); [apply Hin; by left|].
  rewrite (Replace_render k v (value_tokens v)) by done.
  apply IH.
  - intros k' v' Hin'. apply Hin. by right.
  - by apply wf_subst.
Qed.

Lemma forallb_within_S n ts :
  forallb (within m n) ts = true → forallb (within m (S n)) ts = true.
Proof.
  rewrite !forallb_forall. intros Hts t Ht. by apply within_S, Hts.
Qed.

(** A token list that a pass leaves as it is has no marker of an
    unresolved key, when its markers resolve at some level. *)
Lemma pass_tokens_fixed entries ts n :
  (∀ k v, (k, v) ∈ entries ↔ kv m !! k = Some v) →
  pass_tokens entries ts = ts →
  forallb (within m n) ts = true → forallb (within m 0) ts = true.
Proof.
  intros Hin Hfix. induction n as [|n IH]; [done|].
  intros Hts. apply IH. rewrite <- Hfix. by apply pass_tokens_level.
Qed.

Lemma iteration_order_entries order i k v :
  iteration_order m order → (k, v) ∈ order i ↔ kv m !! k = Some v.
Proof.
  intros Horder. rewrite (Horder i). apply elem_of_map_to_list.
Qed.

(** The loop of [expandProps] on a string of tokens: the result is a
    string of tokens that the input expands to, and it has no marker of an
    unresolved key when the markers of the input resolve within as many
    levels as passes are left. *)
Lemma expand_loop_tokens order remaining : ∀ i ts0 ts,
  iteration_order m order →
  forallb wf_token ts = true → expands m ts0 ts →
  ∃ us, fst (expand_loop order remaining i (render ts)) = render us
        ∧ forallb wf_token us = true
        ∧ expands m ts0 us
        ∧ ∀ n, (n ≤ remaining)%nat → forallb (within m n) ts = true →
               forallb (within m 0) us = true.
Proof.
  induction remaining as [|remaining IH]; intros i ts0 ts Horder Hwf Hexp.
  { exists ts. split; [done|]. split; [done|]. split; [done|].
    intros n Hn. by replace n with 0%nat by lia. }
  pose proof (iteration_order_entries order i) as Hin.
  destruct (expand_pass_render (order i) ts) as [Hpass Hwf'];
    [intros k v; by apply Hin|done|].
  rewrite expand_loop_step, Hpass.
  destruct (String.eqb_spec (render ts) (render (pass_tokens (order i) ts)))
    as [Heq|Hne].
  - exists ts. split; [done|]. split; [done|]. split; [done|].
    intros n _. apply (pass_tokens_fixed (order i)).
    + intros k v. by apply Hin.
    + symmetry. by apply render_inj.
  - destruct (IH (S i) ts0 (pass_tokens (order i) ts) Horder Hwf')
      as (us & Hres & Hwfus & Hexpus & Hlevel).
    { apply expands_pass; [|done]. intros k v. by apply Hin. }
    exists us. split; [done|]. split; [done|]. split; [done|].
    intros [|n] Hn Hts.
    + apply (Hlevel 0%nat); [lia|]. apply pass_tokens_level.
      * intros k v. by apply Hin.
      * by apply forallb_within_S.
    + apply (Hlevel n); [lia|]. apply pass_tokens_level; [|done].
      intros k v. by apply Hin.
Qed.

(** A string of tokens has no marker of a key with another value than
    this marker exactly when all its tokens are at level 0. *)
Lemma fully_expanded_normal us :
  forallb wf_token us = true →
  fully_expanded m (render us) = true ↔ forallb (within m 0) us = true.
Proof.
  intros Hwf. unfold fully_expanded. rewrite !forallb_forall. split.
  - intros Hfull [c|k] Ht%list_elem_of_In; [done|].
    rewrite within_Mark, orb_false_r. unfold resolved.
    destruct (kv m !! k) as [v|] eqn:Hk; [|done].
    specialize (Hfull (k, v)). simpl in Hfull.
    rewrite (Contains_render_mark k us Ht) in Hfull. simpl in Hfull.
    rewrite orb_false_r in Hfull. apply Hfull.
    by apply list_elem_of_In, elem_of_map_to_list.
  - intros Hnormal [k v] Hin%list_elem_of_In%elem_of_map_to_list. simpl.
    destruct (String.eqb v (marker k)) eqn:Heq; [done|]. simpl.
    apply negb_true_iff.
    destruct (Contains (render us) (marker k)) eqn:Hc; [|done].
    destruct (flat_map_lookup k v Hin) as (Hbf & _).
    apply Contains_render in Hc; [|done..].
    apply list_elem_of_In, Hnormal in Hc.
    rewrite within_Mark, orb_false_r in Hc. unfold resolved in Hc.
    rewrite Hin in Hc. congruence.
Qed.

End markers.

Lemma nested_entries :
  map_to_list (kv nested) = [("key3", "{key4}"); ("key1", "42"); ("key2", "{key1}")].
Proof. by vm_compute. Qed.



(** ** [Set], [Remove] and sequences of calls of [Set] *)

Section set_remove.

Implicit Types (m : Map) (k key value : string) (l : list string).

Lemma Debug_Set m key value : Debug (Set_ m key value) = Debug m.
Proof. unfold Set_. by case_bool_decide. Qed.

(** X1: [Set] binds the key to the value, leaves the values of the other
    keys as they are and, on a map that satisfies the order invariant, puts
    the key at the end of [Keys] while the other keys keep their relative
    order. *)
Theorem Set_spec m key value :
  ordered m →
  (∀ k, kv (Set_ m key value) !! k = if decide (k = key) then Some value else kv m !! k)
  ∧ Keys (Set_ m key value) = filter (.≠ key) (Keys m) ++ [key].
Proof.
  intros Hm. split; [|by apply o_Set].
  intros k. rewrite kv_Set. destruct (decide (k = key)) as [->|Hne].
  - apply lookup_insert_eq.
  - by apply lookup_insert_ne.
Qed.

Lemma Set_spec_witness :
  (∀ k, kv (Set_ sette "sette.discovery.something.2" "x") !! k
        = if decide (k = "sette.discovery.something.2") then Some "x"
          else kv sette !! k)
  ∧ Keys (Set_ sette "sette.discovery.something.2" "x")
    = filter (.≠ "sette.discovery.something.2") (Keys sette)
      ++ ["sette.discovery.something.2"].
Proof.
  apply (Set_spec sette). unfold sette.
  repeat apply ordered_Set. apply ordered_NewMap.
Defined.

(** X2: on a map that satisfies the order invariant, [Remove] takes the
    key out of the mapping and out of [Keys], leaves the other keys, their
    values and their order as they are, and changes nothing when the key is
    absent. *)
Theorem Remove_spec m key :
  ordered m →
  (∀ k, kv (Remove m key) !! k = if decide (k = key) then None else kv m !! k)
  ∧ Keys (Remove m key) = filter (.≠ key) (Keys m)
  ∧ (ContainsKey m key = false → Remove m key = m).
Proof.
  intros [Hnd Hdom]. split; [|split].
  - intros k. simpl. destruct (decide (k = key)) as [->|Hne].
    + apply lookup_delete_eq.
    + by apply lookup_delete_ne.
  - simpl. by apply remove_first_filter.
  - unfold ContainsKey. intros Hin%bool_decide_eq_false.
    destruct m as [kv0 o0 d0]. unfold Remove. simpl in *. f_equal.
    + apply delete_id. by apply eq_None_not_Some.
    + apply remove_first_absent. intros Hk. by apply Hin, Hdom.
Qed.

Lemma Remove_spec_witness :
  (∀ k, kv (Remove sette "sette.discovery.something.2") !! k
        = if decide (k = "sette.discovery.something.2") then None else kv sette !! k)
  ∧ Keys (Remove sette "sette.discovery.something.2")
    = filter (.≠ "sette.discovery.something.2") (Keys sette)
  ∧ (ContainsKey sette "sette.discovery.something.2" = false →
     Remove sette "sette.discovery.something.2" = sette).
Proof.
  apply (Remove_spec sette). unfold sette.
  repeat apply ordered_Set. apply ordered_NewMap.
Defined.

Lemma ordered_set_all (l : list (string * string)) m :
  ordered m → ordered (set_all l m).
Proof.
  unfold set_all. revert m.
  induction l as [|[k v] l IH]; simpl; intros m Hm; [done|].
  by apply IH, ordered_Set.
Qed.

Lemma Debug_set_all (l : list (string * string)) m :
  Debug (set_all l m) = Debug m.
Proof.
  unfold set_all. revert m.
  induction l as [|[k v] l IH]; simpl; intros m; [done|].
  by rewrite IH, Debug_Set.
Qed.

(** With pairwise different keys, the calls bind every key of the list to
    its value and leave the other keys as they are. *)
Lemma kv_set_all (l : list (string * string)) : ∀ m,
  NoDup l.*1 →
  ∀ k, kv (set_all l m) !! k =
       match list_to_map (M := gmap string string) l !! k with
       | Some v => Some v
       | None => kv m !! k
       end.
Proof.
  unfold set_all.
  induction l as [|[k0 v0] l IH]; simpl; intros m Hnd k; [done|].
  apply NoDup_cons in Hnd as [Hk0 Hnd].
  rewrite IH by done. rewrite kv_Set.
  destruct (decide (k = k0)) as [->|Hne].
  - rewrite !lookup_insert_eq.
    by rewrite (not_elem_of_list_to_map_1 _ k0).
  - by rewrite !lookup_insert_ne.
Qed.

(** The keys of the list move to the end of the order, in the order of
    the list. *)
Lemma o_set_all (l : list (string * string)) : ∀ m,
  ordered m → NoDup l.*1 →
  o (set_all l m) = filter (.∉ l.*1) (o m) ++ l.*1.
Proof.
  unfold set_all.
  induction l as [|[k0 v0] l IH]; simpl; intros m Hm Hnd.
  - rewrite app_nil_r. symmetry.
    apply filter_all. intros x _. apply not_elem_of_nil.
  - apply NoDup_cons in Hnd as [Hk0 Hnd].
    rewrite IH by (done || by apply ordered_Set).
    rewrite o_Set by done. rewrite filter_app, list_filter_filter.
    rewrite filter_cons_True by done. rewrite filter_nil.
    rewrite <- app_assoc. simpl. f_equal.
    apply list_filter_iff. intros x. rewrite not_elem_of_cons. tauto.
Qed.

End set_remove.

(** ** [Merge], [Clone], [NewFromHashmap], [Equals] and [ContainsValue] *)

Section merge_clone.

Implicit Types (m source : Map) (k key value : string).

Lemma merge_one_set_all m source :
  merge_one m source = set_all ((fun key => (key, Get source key)) <$> o source) m.
Proof.
  unfold merge_one, set_all. revert m.
  induction (o source) as [|key l IH]; simpl; intros m; [done|]. apply IH.
Qed.

Lemma fst_keyed {A} (f : string → A) (l : list string) :
  ((fun key => (key, f key)) <$> l).*1 = l.
Proof. induction l as [|x l IH]; csimpl; [done | by rewrite IH]. Qed.

Lemma lookup_keyed (source : Map) k :
  ordered source →
  list_to_map (M := gmap string string)
    ((fun key => (key, Get source key)) <$> o source) !! k = kv source !! k.
Proof.
  intros [Hnd Hdom].
  destruct (kv source !! k) as [v|] eqn:Hk.
  - apply elem_of_list_to_map; [by rewrite fst_keyed|].
    apply list_elem_of_fmap. exists k. split.
    + unfold Get. by rewrite Hk.
    + apply Hdom. by rewrite Hk.
  - apply not_elem_of_list_to_map. rewrite fst_keyed.
    intros Hin%Hdom. rewrite Hk in Hin. by destruct Hin.
Qed.

Lemma merge_one_spec m source :
  ordered m → ordered source →
  kv (merge_one m source) = kv source ∪ kv m
  ∧ o (merge_one m source) = filter (.∉ o source) (o m) ++ o source.
Proof.
  intros Hm Hs. rewrite merge_one_set_all. split.
  - apply map_eq. intros k.
    rewrite kv_set_all by (rewrite fst_keyed; apply Hs).
    rewrite lookup_keyed by done. rewrite lookup_union.
    by destruct (kv source !! k), (kv m !! k).
  - rewrite o_set_all by (done || rewrite fst_keyed; apply Hs).
    by rewrite fst_keyed.
Qed.

Lemma move_to_end_Permutation key (l : list string) :
  NoDup l → key ∈ l → filter (.≠ key) l ++ [key] ≡ₚ l.
Proof.
  intros Hnd Hin. apply NoDup_Permutation; [|done|].
  - apply NoDup_app. split; [by apply NoDup_filter|]. split; [|apply NoDup_singleton].
    intros x [Hne _]%list_elem_of_filter ->%list_elem_of_singleton. done.
  - intros x. rewrite elem_of_app, list_elem_of_filter, list_elem_of_singleton.
    split.
    + intros [[_ ?]| ->]; done.
    + intros Hx. destruct (decide (x = key)) as [->|Hne]; [by right | by left].
Qed.

Lemma merge_self_steps (rounds : list nat) : ∀ m,
  ordered m → (∀ i, i ∈ rounds → (i < length (o m))%nat) →
  ∃ m', fold_left merge_self_step rounds (Some m) = Some m'
        ∧ kv m' = kv m ∧ o m' ≡ₚ o m ∧ ordered m' ∧ Debug m' = Debug m.
Proof.
  induction rounds as [|i rounds IH]; intros m Hm Hlt; simpl.
  { by exists m. }
  destruct (lookup_lt_is_Some_2 (o m) i) as [key Hkey]; [apply Hlt; by left|].
  assert (Hin : key ∈ o m) by (by eapply list_elem_of_lookup_2).
  destruct Hm as [Hnd Hdom].
  destruct (proj1 (Hdom key) Hin) as [v Hv].
  rewrite Hkey. simpl. rewrite bool_decide_eq_true_2 by (by exists v).
  set (m1 := Set_ m key (Get m key)).
  assert (Hkv1 : kv m1 = kv m).
  { unfold m1. rewrite kv_Set. apply insert_id. unfold Get. by rewrite Hv. }
  assert (Ho1 : o m1 ≡ₚ o m).
  { unfold m1. rewrite o_Set by done. by apply move_to_end_Permutation. }
  destruct (IH m1) as (m' & Hfold & Hkv & Ho & Hord & Hdbg).
  - by apply ordered_Set.
  - intros j Hj. rewrite (Permutation_length Ho1). apply Hlt. by right.
  - exists m'. split; [done|]. rewrite Hkv, Ho, Hdbg. split; [done|].
    split; [done|]. split; [done|]. apply Debug_Set.
Qed.

Lemma MergeSources_app sources2 : ∀ sources1 m,
  MergeSources m (sources1 ++ sources2)
  = MergeSources m sources1 ≫= fun m' => MergeSources m' sources2.
Proof.
  intros sources1 m. unfold MergeSources. rewrite fold_left_app.
  destruct (fold_left _ sources1 (Some m)) as [m'|]; simpl; [done|].
  induction sources2 as [|s sources2 IH]; simpl; [done|]. apply IH.
Qed.

(** X3: [Merge] of a map that satisfies the order invariant.  Merging a
    source that is another object than the receiver gives the bindings of
    the source and, for the keys that the source does not have, those of
    the map; the keys of the source move to the end of [Keys], in the order
    of the source, behind the remaining keys of the map.  Merging the map
    into itself leaves the bindings and the flag as they are and keeps the
    order invariant, but the keys come out in another order: the map with
    the keys [a], [b], [c] has [b], [a], [c] afterwards.  Merging several
    sources is merging them one after the other. *)
Theorem Merge_spec m :
  ordered m →
  (∀ source, ordered source →
     MergeSources m [Another source] = Some (Merge m [source])
     ∧ kv (Merge m [source]) = kv source ∪ kv m
     ∧ Keys (Merge m [source]) = filter (.∉ Keys source) (Keys m) ++ Keys source)
  ∧ (∃ m', MergeSources m [Itself] = Some m'
           ∧ kv m' = kv m ∧ Keys m' ≡ₚ Keys m ∧ ordered m'
           ∧ Debug m' = Debug m)
  ∧ Keys <$> MergeSources abc [Itself] = Some ["b"; "a"; "c"]
  ∧ (∀ sources1 sources2,
       MergeSources m (sources1 ++ sources2)
       = MergeSources m sources1 ≫= fun m' => MergeSources m' sources2)
  ∧ (∀ sources1 sources2,
       Merge m (sources1 ++ sources2) = Merge (Merge m sources1) sources2).
Proof.
  intros Hm. split; [|split; [|split; [|split]]].
  - intros source Hs. destruct (merge_one_spec m source Hm Hs) as [Hkv Ho].
    done.
  - destruct (merge_self_steps (seq 0 (length (o m))) m Hm)
      as (m' & Hfold & Hrest).
    { intros i Hi%elem_of_seq. lia. }
    exists m'. split; [|done]. simpl. done.
  - by vm_compute.
  - intros s1 s2. apply MergeSources_app.
  - intros s1 s2. unfold Merge. apply fold_left_app.
Qed.

Lemma Merge_spec_witness :
  (MergeSources sette [Another cyclic] = Some (Merge sette [cyclic])
   ∧ kv (Merge sette [cyclic]) = kv cyclic ∪ kv sette
   ∧ Keys (Merge sette [cyclic])
     = filter (.∉ Keys cyclic) (Keys sette) ++ Keys cyclic)
  ∧ ∃ m', MergeSources sette [Itself] = Some m'
          ∧ kv m' = kv sette ∧ Keys m' ≡ₚ Keys sette ∧ ordered m'
          ∧ Debug m' = Debug sette.
Proof.
  assert (Hsette : ordered sette).
  { unfold sette. repeat apply ordered_Set. apply ordered_NewMap. }
  destruct (Merge_spec sette Hsette) as (Hother & Hself & _).
  split; [|done]. apply Hother.
  unfold cyclic. repeat apply ordered_Set. apply ordered_NewMap.
Defined.

Lemma Clone_same m : ordered m → kv (Clone m) = kv m ∧ o (Clone m) = o m.
Proof.
  intros Hm.
  destruct (merge_one_spec NewMap m ordered_NewMap Hm) as [Hkv Ho].
  change (merge_one NewMap m) with (Clone m) in Hkv, Ho.
  change (kv NewMap) with (∅ : gmap string string) in Hkv.
  change (o NewMap) with (@nil string) in Ho.
  rewrite map_union_empty in Hkv. rewrite filter_nil in Ho. by simpl in Ho.
Qed.

(** X4: the clone of a map that satisfies the order invariant has the same
    bindings and the same order of keys, so that [EqualsWithOrder] holds
    between the two; the flag [Debug] is not copied, the clone has it
    unset. *)
Theorem Clone_spec m :
  ordered m →
  kv (Clone m) = kv m ∧ Keys (Clone m) = Keys m
  ∧ Debug (Clone m) = false
  ∧ EqualsWithOrder (Clone m) m = true.
Proof.
  intros Hm. destruct (Clone_same m Hm) as [Hkv Ho].
  split; [done|]. split; [done|]. split.
  - unfold Clone, Merge. simpl. by rewrite merge_one_set_all, Debug_set_all.
  - unfold EqualsWithOrder. by rewrite Hkv, Ho, !bool_decide_eq_true_2.
Qed.

Lemma Clone_spec_witness :
  kv (Clone sette) = kv sette ∧ Keys (Clone sette) = Keys sette
  ∧ Debug (Clone sette) = false
  ∧ EqualsWithOrder (Clone sette) sette = true.
Proof.
  apply (Clone_spec sette). unfold sette.
  repeat apply ordered_Set. apply ordered_NewMap.
Defined.

(** X5: whatever the order in which [NewFromHashmap] visits the entries of
    the Go map, the result has exactly the bindings of that map and
    satisfies the order invariant; its keys are in the order of the visit.
    Two runs on the same Go map therefore give maps that are [Equals]. *)
Theorem NewFromHashmap_spec (orig : gmap string string) entries :
  entries ≡ₚ map_to_list orig →
  kv (NewFromHashmap entries) = orig
  ∧ Keys (NewFromHashmap entries) = entries.*1
  ∧ ordered (NewFromHashmap entries)
  ∧ ∀ entries', entries' ≡ₚ map_to_list orig →
      Equals (NewFromHashmap entries) (NewFromHashmap entries') = true.
Proof.
  assert (Hkv : ∀ es, es ≡ₚ map_to_list orig → kv (NewFromHashmap es) = orig).
  { intros es Hes.
    assert (Hnd : NoDup es.*1).
    { rewrite Hes. apply NoDup_fst_map_to_list. }
    apply map_eq. intros k.
    change (NewFromHashmap es) with (set_all es NewMap).
    rewrite kv_set_all by done. simpl. rewrite lookup_empty.
    rewrite (list_to_map_proper es (map_to_list orig)) by done.
    rewrite list_to_map_to_list. by destruct (orig !! k). }
  intros Hentries.
  assert (Hnd : NoDup entries.*1).
  { rewrite Hentries. apply NoDup_fst_map_to_list. }
  split; [by apply Hkv|]. split; [|split].
  - change (NewFromHashmap entries) with (set_all entries NewMap).
    unfold Keys. rewrite o_set_all by (done || apply ordered_NewMap).
    change (o NewMap) with (@nil string). by rewrite filter_nil.
  - apply ordered_set_all, ordered_NewMap.
  - intros entries' Hentries'. unfold Equals.
    rewrite !Hkv by done. by apply bool_decide_eq_true_2.
Qed.

Lemma NewFromHashmap_spec_witness :
  kv (NewFromHashmap [("b", "{a}"); ("a", "{b}")]) = kv cyclic
  ∧ Keys (NewFromHashmap [("b", "{a}"); ("a", "{b}")])
    = [("b", "{a}"); ("a", "{b}")].*1
  ∧ ordered (NewFromHashmap [("b", "{a}"); ("a", "{b}")])
  ∧ ∀ entries', entries' ≡ₚ map_to_list (kv cyclic) →
      Equals (NewFromHashmap [("b", "{a}"); ("a", "{b}")])
        (NewFromHashmap entries') = true.
Proof.
  apply (NewFromHashmap_spec (kv cyclic)).
  rewrite cyclic_entries. apply perm_swap.
Defined.

(** X6: [Equals] does not depend on the order of insertion and
    [EqualsWithOrder] does: two maps that receive two different keys in the
    two possible orders are [Equals], and they are not [EqualsWithOrder]
    when the map they start from satisfies the order invariant. *)
Theorem Equals_ignores_order m k1 v1 k2 v2 :
  ordered m → k1 ≠ k2 →
  Equals (Set_ (Set_ m k1 v1) k2 v2) (Set_ (Set_ m k2 v2) k1 v1) = true
  ∧ EqualsWithOrder (Set_ (Set_ m k1 v1) k2 v2) (Set_ (Set_ m k2 v2) k1 v1) = false.
Proof.
  intros Hm Hne. split.
  - unfold Equals. apply bool_decide_eq_true_2.
    rewrite !kv_Set. by apply insert_insert_ne.
  - unfold EqualsWithOrder. apply andb_false_iff. left.
    apply bool_decide_eq_false_2.
    rewrite !o_Set by (done || by apply ordered_Set).
    intros Heq. apply (f_equal last) in Heq. rewrite !last_snoc in Heq.
    congruence.
Qed.

Lemma Equals_ignores_order_witness :
  Equals (Set_ (Set_ sette "a" "1") "b" "2") (Set_ (Set_ sette "b" "2") "a" "1") = true
  ∧ EqualsWithOrder (Set_ (Set_ sette "a" "1") "b" "2")
      (Set_ (Set_ sette "b" "2") "a" "1") = false.
Proof.
  apply (Equals_ignores_order sette "a" "1" "b" "2"); [|done].
  unfold sette. repeat apply ordered_Set. apply ordered_NewMap.
Defined.

(** X7: on a map that satisfies the order invariant, [ContainsValue] tells
    exactly whether the value is an element of [Values]. *)
Theorem ContainsValue_spec m value :
  ordered m → ContainsValue m value = true ↔ value ∈ Values m.
Proof.
  intros [Hnd Hdom]. unfold ContainsValue, Values.
  rewrite existsb_exists, list_elem_of_fmap. split.
  - intros ([k v] & Hin & Heq). simpl in Heq. apply String.eqb_eq in Heq as ->.
    apply list_elem_of_In, elem_of_map_to_list in Hin.
    exists k. split.
    + unfold Get. by rewrite Hin.
    + apply Hdom. by rewrite Hin.
  - intros (k & -> & Hk). apply Hdom in Hk as [v Hv].
    exists (k, v). split.
    + by apply list_elem_of_In, elem_of_map_to_list.
    + simpl. unfold Get. rewrite Hv. apply String.eqb_refl.
Qed.

Lemma ContainsValue_spec_witness :
  ContainsValue sette "itemC" = true ↔ "itemC" ∈ Values sette.
Proof.
  apply (ContainsValue_spec sette). unfold sette.
  repeat apply ordered_Set. apply ordered_NewMap.
Defined.

End merge_clone.

(** ** [SubTree] *)

Section subtree_spec.

Implicit Types (m : Map) (k key rootKey : string) (l : list string).

Lemma fold_Set_omap {A} (f : A → option (string * string)) (xs : list A) : ∀ m,
  fold_left (fun acc x => match f x with
                          | Some (k, v) => Set_ acc k v
                          | None => acc
                          end) xs m
  = set_all (omap f xs) m.
Proof.
  unfold set_all.
  induction xs as [|x xs IH]; intros m; simpl; [done|].
  rewrite IH. by destruct (f x) as [[k v]|].
Qed.

Lemma subtree_pairs_fst m prefix l :
  (omap (fun key => if negb (Strings.HasPrefix key prefix) then None
                    else Some (Strings.drop (String.length prefix) key, Get m key)) l).*1
  = Strings.drop (String.length prefix) <$> filter (has_prefix prefix) l.
Proof.
  induction l as [|key l IH]; [done|]. csimpl.
  destruct (Strings.HasPrefix key prefix) eqn:Hp; simpl.
  - rewrite filter_cons_True by done. csimpl. by rewrite IH.
  - rewrite filter_cons_False by (unfold has_prefix; congruence). done.
Qed.

Lemma NoDup_subtree_keys rootKey l : NoDup l → NoDup (subtree_keys rootKey l).
Proof.
  intros Hnd. unfold subtree_keys.
  apply NoDup_fmap_2_strong; [|by apply NoDup_filter].
  intros x y [Hx _]%list_elem_of_filter [Hy _]%list_elem_of_filter Heq.
  apply HasPrefix_split in Hx, Hy. rewrite Hx, Hy. by f_equal.
Qed.

Lemma SubTree_set_all m rootKey :
  SubTree m rootKey =
  set_all (omap (fun key =>
                   if negb (Strings.HasPrefix key (rootKey +:+ ".")) then None
                   else Some (Strings.drop (String.length (rootKey +:+ ".")) key,
                              Get m key)) (o m)) NewMap.
Proof. rewrite SubTree_fold. apply fold_Set_omap. Qed.

Lemma Keys_SubTree m rootKey :
  ordered m → Keys (SubTree m rootKey) = subtree_keys rootKey (Keys m).
Proof.
  intros [Hnd _]. unfold Keys. rewrite SubTree_set_all.
  rewrite o_set_all.
  - change (o NewMap) with (@nil string). rewrite filter_nil. simpl.
    apply subtree_pairs_fst.
  - apply ordered_NewMap.
  - rewrite subtree_pairs_fst. by apply NoDup_subtree_keys.
Qed.

Lemma kv_SubTree m rootKey rest :
  ordered m →
  kv (SubTree m rootKey) !! rest = kv m !! (rootKey +:+ "." +:+ rest).
Proof.
  intros [Hnd Hdom]. rewrite SubTree_set_all.
  set (prefix := rootKey +:+ ".").
  assert (Hkey : rootKey +:+ "." +:+ rest = prefix +:+ rest).
  { unfold prefix. by rewrite append_assoc. }
  rewrite Hkey.
  assert (Hndp : NoDup (omap (fun key =>
                   if negb (Strings.HasPrefix key prefix) then None
                   else Some (Strings.drop (String.length prefix) key, Get m key))
                 (o m)).*1).
  { rewrite subtree_pairs_fst. by apply NoDup_subtree_keys. }
  rewrite kv_set_all by done.
  change (kv NewMap) with (∅ : gmap string string). rewrite lookup_empty.
  destruct (kv m !! (prefix +:+ rest)) as [v|] eqn:Hv.
  - erewrite (proj1 (elem_of_list_to_map _ rest v Hndp)); [done|].
    apply list_elem_of_omap. exists (prefix +:+ rest). split.
    + apply Hdom. by rewrite Hv.
    + rewrite HasPrefix_append, drop_append. simpl.
      unfold Get. by rewrite Hv.
  - rewrite (proj1 (not_elem_of_list_to_map _ rest)); [done|].
    rewrite subtree_pairs_fst.
    intros (key & -> & [Hp Hin]%list_elem_of_filter)%list_elem_of_fmap.
    apply HasPrefix_split in Hp. rewrite <- Hp in Hv.
    apply Hdom in Hin. rewrite Hv in Hin. by destruct Hin.
Qed.

(** X8: on a map that satisfies the order invariant, the sub-tree of
    [rootKey] binds [rest] exactly when the map binds [rootKey.rest], and to
    the same value; its keys are the keys of the map that begin with
    [rootKey.], without that prefix and in the same relative order. *)
Theorem SubTree_spec m rootKey :
  ordered m →
  (∀ rest, kv (SubTree m rootKey) !! rest = kv m !! (rootKey +:+ "." +:+ rest))
  ∧ Keys (SubTree m rootKey) = subtree_keys rootKey (Keys m).
Proof.
  intros Hm. split.
  - intros rest. by apply kv_SubTree.
  - by apply Keys_SubTree.
Qed.

Lemma SubTree_spec_witness :
  (∀ rest, kv (SubTree sette "sette.discovery") !! rest
           = kv sette !! ("sette.discovery" +:+ "." +:+ rest))
  ∧ Keys (SubTree sette "sette.discovery")
    = subtree_keys "sette.discovery" (Keys sette).
Proof.
  apply (SubTree_spec sette). unfold sette.
  repeat apply ordered_Set. apply ordered_NewMap.
Defined.

Lemma HasPrefix_app s a b :
  Strings.HasPrefix s (a +:+ b)
  = Strings.HasPrefix s a && Strings.HasPrefix (Strings.drop (String.length a) s) b.
Proof.
  revert s. induction a as [|c a IH]; intros s.
  - rewrite append_nil_l. simpl. by destruct s.
  - rewrite append_cons. destruct s as [|d s]; simpl; [done|].
    rewrite IH. by rewrite andb_assoc.
Qed.

Lemma drop_drop s : ∀ n n',
  Strings.drop n' (Strings.drop n s) = Strings.drop (n + n') s.
Proof.
  induction s as [|c s IH]; intros [|n] n'; simpl; try done.
  by destruct n'.
Qed.

Lemma subtree_keys_compose rootKey sub l :
  subtree_keys sub (subtree_keys rootKey l)
  = subtree_keys (rootKey +:+ "." +:+ sub) l.
Proof.
  unfold subtree_keys.
  assert (Hpre : (rootKey +:+ "." +:+ sub) +:+ "."
                 = (rootKey +:+ ".") +:+ (sub +:+ ".")).
  { by rewrite !append_assoc. }
  rewrite Hpre. set (p := rootKey +:+ "."). set (q := sub +:+ ".").
  induction l as [|key l IH]; [done|].
  destruct (Strings.HasPrefix key p) eqn:Hp.
  - rewrite (filter_cons_True (has_prefix p)) by done. csimpl.
    destruct (Strings.HasPrefix (Strings.drop (String.length p) key) q) eqn:Hq.
    + rewrite (filter_cons_True (has_prefix q)) by done.
      rewrite (filter_cons_True (has_prefix (p +:+ q)))
        by (unfold has_prefix; by rewrite HasPrefix_app, Hp, Hq).
      csimpl. rewrite IH. f_equal.
      by rewrite drop_drop, length_append.
    + rewrite (filter_cons_False (has_prefix q))
        by (unfold has_prefix; congruence).
      rewrite (filter_cons_False (has_prefix (p +:+ q)))
        by (unfold has_prefix; rewrite HasPrefix_app, Hp, Hq; done).
      done.
  - rewrite (filter_cons_False (has_prefix p)) by (unfold has_prefix; congruence).
    rewrite (filter_cons_False (has_prefix (p +:+ q)))
      by (unfold has_prefix; rewrite HasPrefix_app, Hp; done).
    done.
Qed.

Lemma Debug_SubTree m rootKey : Debug (SubTree m rootKey) = false.
Proof. by rewrite SubTree_set_all, Debug_set_all. Qed.

(** X9: taking the sub-tree of [sub] in the sub-tree of [rootKey] is the
    same as taking the sub-tree of [rootKey.sub], for a map that satisfies
    the order invariant. *)
Theorem SubTree_SubTree m rootKey sub :
  ordered m →
  SubTree (SubTree m rootKey) sub = SubTree m (rootKey +:+ "." +:+ sub).
Proof.
  intros Hm.
  pose proof (ordered_SubTree m rootKey) as Hsub.
  assert (Hkv : kv (SubTree (SubTree m rootKey) sub)
                = kv (SubTree m (rootKey +:+ "." +:+ sub))).
  { apply map_eq. intros rest. rewrite !kv_SubTree by done.
    by rewrite !append_assoc. }
  assert (Ho : o (SubTree (SubTree m rootKey) sub)
               = o (SubTree m (rootKey +:+ "." +:+ sub))).
  { pose proof (Keys_SubTree (SubTree m rootKey) sub Hsub) as H1.
    pose proof (Keys_SubTree m rootKey Hm) as H2.
    pose proof (Keys_SubTree m (rootKey +:+ "." +:+ sub) Hm) as H3.
    unfold Keys in *. by rewrite H1, H2, H3, subtree_keys_compose. }
  pose proof (Debug_SubTree (SubTree m rootKey) sub) as Hd1.
  pose proof (Debug_SubTree m (rootKey +:+ "." +:+ sub)) as Hd2.
  destruct (SubTree (SubTree m rootKey) sub), (SubTree m (rootKey +:+ "." +:+ sub)).
  simpl in *. by subst.
Qed.

Lemma SubTree_SubTree_witness :
  SubTree (SubTree sette "sette") "discovery" = SubTree sette ("sette" +:+ "." +:+ "discovery").
Proof.
  apply (SubTree_SubTree sette). unfold sette.
  repeat apply ordered_Set. apply ordered_NewMap.
Defined.

End subtree_spec.

(** ** [FirstLevelKeys] and [FirstLevelOf] *)

Section first_level.

Implicit Types (m : Map) (k key seg : string) (l : list string).

Lemma first_level_keys_fold l : ∀ (st : list string * gset string),
  (∀ x, x ∈ snd st ↔ x ∈ fst st) → NoDup (fst st) →
  NoDup (fst (fold_left first_level_keys_step l st))
  ∧ (∀ x, x ∈ fst (fold_left first_level_keys_step l st)
          ↔ x ∈ fst st ∨ x ∈ first_segment <$> l)
  ∧ ∃ ext, fst (fold_left first_level_keys_step l st) = fst st ++ ext
           ∧ ext `sublist_of` (first_segment <$> l).
Proof.
  induction l as [|k l IH]; intros [res taken] Htaken Hnd; simpl in *.
  { split; [done|]. split.
    - intros x. split; [by left|]. by intros [?|?%elem_of_nil].
    - exists []. by rewrite app_nil_r. }
  assert (Hstep : first_level_keys_step (res, taken) k =
                  if bool_decide (first_segment k ∈ taken) then (res, taken)
                  else (res ++ [first_segment k], {[first_segment k]} ∪ taken))
    by reflexivity.
  rewrite !Hstep. clear Hstep.
  case_bool_decide as Hin.
  - destruct (IH (res, taken) Htaken Hnd) as (Hnd' & Hmem & ext & Hext & Hsub).
    split; [done|]. split.
    + intros x. rewrite Hmem. simpl. rewrite elem_of_cons. split.
      * intros [?|?]; [by left | by right; right].
      * intros [?|[->|?]]; [by left | left; by apply Htaken | by right].
    + exists ext. split; [done|]. by apply sublist_cons.
  - destruct (IH (res ++ [first_segment k], {[first_segment k]} ∪ taken))
      as (Hnd' & Hmem & ext & Hext & Hsub); simpl.
    { intros x. rewrite elem_of_union, elem_of_singleton, elem_of_app,
        list_elem_of_singleton, Htaken. tauto. }
    { apply NoDup_app. split; [done|]. split; [|apply NoDup_singleton].
      intros x Hx ->%list_elem_of_singleton. by apply Hin, Htaken. }
    simpl in *. split; [done|]. split.
    + intros x. rewrite Hmem, elem_of_app, list_elem_of_singleton, elem_of_cons.
      tauto.
    + exists (first_segment k :: ext). split.
      * by rewrite Hext, <- app_assoc.
      * by apply sublist_skip.
Qed.

Lemma first_level_keys_order l : ∀ (st : list string * gset string),
  (∀ x, x ∈ snd st ↔ x ∈ fst st) →
  fst (fold_left first_level_keys_step l st)
  = fst st ++ filter (.∉ fst st) (dedup_first (first_segment <$> l)).
Proof.
  induction l as [|k l IH]; intros [res taken] Htaken; simpl in *.
  { by rewrite app_nil_r. }
  assert (Hstep : first_level_keys_step (res, taken) k =
                  if bool_decide (first_segment k ∈ taken) then (res, taken)
                  else (res ++ [first_segment k], {[first_segment k]} ∪ taken))
    by reflexivity.
  rewrite !Hstep. clear Hstep.
  case_bool_decide as Hin.
  - rewrite (IH (res, taken) Htaken). simpl. f_equal.
    apply Htaken in Hin.
    rewrite filter_cons_False by (intros Hn; by apply Hn).
    rewrite list_filter_filter. apply list_filter_iff.
    intros x. split; [|tauto]. intros Hx. split; [done|]. by intros ->.
  - rewrite IH; simpl.
    2:{ intros x. rewrite elem_of_union, elem_of_singleton, elem_of_app,
          list_elem_of_singleton, Htaken. tauto. }
    rewrite <- app_assoc. f_equal. simpl.
    rewrite filter_cons_True by (intros Hn; by apply Hin, Htaken).
    f_equal. rewrite list_filter_filter. apply list_filter_iff.
    intros x. rewrite elem_of_app, list_elem_of_singleton. tauto.
Qed.

(** X10: [FirstLevelKeys] is the list of the first segments of the keys of
    the map, each one once, in the order in which the keys of the map
    first have them.  So it has no duplicate, its elements are exactly the
    first segments of the keys, and it is a sublist of the list of the
    first segments. *)
Theorem FirstLevelKeys_spec m :
  FirstLevelKeys m = dedup_first (first_segment <$> Keys m)
  ∧ NoDup (FirstLevelKeys m)
  ∧ (∀ seg, seg ∈ FirstLevelKeys m ↔ ∃ key, key ∈ Keys m ∧ first_segment key = seg)
  ∧ FirstLevelKeys m `sublist_of` (first_segment <$> Keys m).
Proof.
  split.
  { unfold FirstLevelKeys, Keys. rewrite first_level_keys_order; simpl.
    - apply filter_all. intros x _. apply not_elem_of_nil.
    - intros x. by rewrite elem_of_empty, elem_of_nil. }
  destruct (first_level_keys_fold (o m) ([], ∅)) as (Hnd & Hmem & ext & Hext & Hsub).
  { intros x. simpl. by rewrite elem_of_empty, elem_of_nil. }
  { apply NoDup_nil_2. }
  fold (FirstLevelKeys m) in *.
  simpl in *. split; [done|]. split.
  - intros seg. rewrite Hmem, list_elem_of_fmap. unfold Keys. split.
    + intros [?%elem_of_nil|(key & -> & Hin)]; [done|]. by exists key.
    + intros (key & Hin & <-). right. by exists key.
  - by rewrite Hext.
Qed.

Lemma HasPrefix_single c s a :
  Strings.HasPrefix (String c s) (String a EmptyString) = Ascii.eqb a c.
Proof.
  change (Strings.HasPrefix (String c s) (String a EmptyString))
    with (Ascii.eqb a c && Strings.HasPrefix s EmptyString).
  destruct s; apply andb_true_r.
Qed.

Lemma Contains_dot_cut key :
  Strings.Contains key "." = true →
  ∃ k0 k1, StringsExt.cut "." key = Some (k0, k1)
           ∧ key = k0 +:+ "." +:+ k1
           ∧ Strings.Contains k0 "." = false.
Proof.
  induction key as [|c key IH]; [done|].
  rewrite Contains_cons, cut_cons, HasPrefix_single.
  destruct (Ascii.eqb_spec "." c) as [<-|Hne].
  - intros _. exists EmptyString, key. by rewrite Ascii.eqb_refl.
  - rewrite orb_false_l. intros (k0 & k1 & Hcut & -> & Hk0)%IH.
    destruct (Ascii.eqb_spec c ".") as [->|_]; [done|].
    exists (String c k0), k1. rewrite Hcut. split; [done|]. split; [done|].
    rewrite Contains_cons, HasPrefix_single.
    destruct (Ascii.eqb_spec "." c) as [?|_]; [done|]. by rewrite orb_false_l.
Qed.

Lemma cut_no_dot seg rest :
  Strings.Contains seg "." = false →
  StringsExt.cut "." (seg +:+ "." +:+ rest) = Some (seg, rest).
Proof.
  induction seg as [|c seg IH]; [done|].
  rewrite Contains_cons, append_cons, cut_cons, HasPrefix_single.
  destruct (Ascii.eqb_spec "." c) as [<-|Hne]; [done|]. rewrite orb_false_l.
  intros Hseg. destruct (Ascii.eqb_spec c ".") as [->|_]; [done|].
  by rewrite IH.
Qed.

Lemma HasPrefix_dot_Contains key seg :
  Strings.HasPrefix key (seg +:+ ".") = true → Strings.Contains key "." = true.
Proof.
  revert key. induction seg as [|c seg IH]; intros [|d key]; try done.
  - rewrite append_nil_l, Contains_cons. by intros ->.
  - rewrite append_cons, Contains_cons.
    change (Strings.HasPrefix (String d key) (String c (seg +:+ ".")))
      with (Ascii.eqb c d && Strings.HasPrefix key (seg +:+ ".")).
    intros [_ Hp]%andb_true_iff. rewrite (IH key Hp). apply orb_true_r.
Qed.

Lemma kv_set_nonempty (xs : list string) (f : Map → string → Map) :
  (∀ acc key, f acc key = acc ∨ ∃ k v, f acc key = Set_ acc k v) →
  ∀ acc, kv acc ≠ ∅ → kv (fold_left f xs acc) ≠ ∅.
Proof.
  intros Hf. induction xs as [|x xs IH]; intros acc Hacc; simpl; [done|].
  apply IH. destruct (Hf acc x) as [->|(k & v & ->)]; [done|].
  rewrite kv_Set. apply insert_non_empty.
Qed.

Lemma subtree_step_cases m rootKey acc key :
  subtree_step m rootKey acc key = acc
  ∨ ∃ k v, subtree_step m rootKey acc key = Set_ acc k v.
Proof. unfold subtree_step. destruct (negb _); eauto. Qed.

Lemma subtree_of_no_prefix m rootKey l :
  existsb (fun key => Strings.HasPrefix key (rootKey +:+ ".")) l = false →
  subtree_of m rootKey l = NewMap.
Proof.
  unfold subtree_of. generalize NewMap.
  induction l as [|key l IH]; simpl; intros acc; [done|].
  intros [Hk Hl]%orb_false_iff. unfold subtree_step at 2. rewrite Hk. simpl.
  by apply IH.
Qed.

Lemma subtree_of_snoc m rootKey l key :
  subtree_of m rootKey (l ++ [key]) = subtree_step m rootKey (subtree_of m rootKey l) key.
Proof. unfold subtree_of. by rewrite fold_left_app. Qed.

Lemma SubTree_subtree_of m rootKey : SubTree m rootKey = subtree_of m rootKey (o m).
Proof. reflexivity. Qed.

Lemma Size_subtree_of m rootKey l :
  0 < Size (subtree_of m rootKey l)
  ↔ existsb (fun key => Strings.HasPrefix key (rootKey +:+ ".")) l = true.
Proof.
  split.
  - intros Hsize.
    destruct (existsb _ l) eqn:Hex; [done|].
    by rewrite subtree_of_no_prefix in Hsize.
  - induction l as [|key l IH] using rev_ind; [done|].
    rewrite existsb_app, subtree_of_snoc. simpl. rewrite orb_false_r.
    unfold subtree_step.
    destruct (Strings.HasPrefix key (rootKey +:+ ".")) eqn:Hp; simpl.
    + intros _. unfold Size. rewrite kv_Set.
      pose proof (insert_non_empty (kv (subtree_of m rootKey l))
                    (Strings.drop (String.length (rootKey +:+ ".")) key) (Get m key)) as Hne.
      apply map_size_non_empty_iff in Hne. lia.
    + rewrite orb_false_r. apply IH.
Qed.

Lemma first_level_of_fold m l :
  ∀ seg,
    fold_left (first_level_of_step m) l ∅ !! seg =
    if negb (Strings.Contains seg ".")
       && existsb (fun key => Strings.HasPrefix key (seg +:+ ".")) l
    then Some (subtree_of m seg l) else None.
Proof.
  induction l as [|key l IH] using rev_ind; intros seg.
  { simpl. rewrite lookup_empty. by rewrite andb_false_r. }
  rewrite fold_left_app, existsb_app, subtree_of_snoc. simpl. rewrite orb_false_r.
  unfold first_level_of_step at 1.
  destruct (Strings.Contains key ".") eqn:Hdot; simpl.
  - destruct (Contains_dot_cut key Hdot) as (k0 & k1 & Hcut & Hkey & Hk0).
    unfold StringsExt.SplitN2. rewrite Hcut.
    assert (Hpk0 : Strings.HasPrefix key (k0 +:+ ".") = true).
    { rewrite Hkey, <- append_assoc. apply HasPrefix_append. }
    assert (Hdk0 : Strings.drop (String.length (k0 +:+ ".")) key = k1).
    { rewrite Hkey, <- append_assoc. apply drop_append. }
    destruct (decide (seg = k0)) as [->|Hne].
    + rewrite lookup_insert_eq, Hk0, Hpk0, orb_true_r. simpl.
      unfold subtree_step. rewrite Hpk0, Hdk0. simpl. do 2 f_equal.
      rewrite IH, Hk0. simpl.
      destruct (existsb _ l) eqn:Hex; simpl; [done|].
      by rewrite subtree_of_no_prefix.
    + rewrite lookup_insert_ne by done. rewrite IH.
      destruct (Strings.Contains seg ".") eqn:Hseg; simpl; [done|].
      assert (Hp : Strings.HasPrefix key (seg +:+ ".") = false).
      { destruct (Strings.HasPrefix key (seg +:+ ".")) eqn:Hp; [|done].
        apply HasPrefix_split in Hp. rewrite Hp, append_assoc in Hcut.
        rewrite cut_no_dot in Hcut by done. congruence. }
      rewrite Hp, orb_false_r. unfold subtree_step. by rewrite Hp.
  - rewrite IH.
    assert (Hp : Strings.HasPrefix key (seg +:+ ".") = false).
    { destruct (Strings.HasPrefix key (seg +:+ ".")) eqn:Hp; [|done].
      apply HasPrefix_dot_Contains in Hp. congruence. }
    rewrite Hp, orb_false_r. unfold subtree_step. by rewrite Hp.
Qed.

(** X11: [FirstLevelOf] binds a first segment exactly when that segment
    contains no dot and its sub-tree is not empty, and it binds it to the
    map that [SubTree] returns for it. *)
Theorem FirstLevelOf_SubTree m seg sub :
  FirstLevelOf m !! seg = Some sub
  ↔ Strings.Contains seg "." = false ∧ 0 < Size (SubTree m seg) ∧ sub = SubTree m seg.
Proof.
  unfold FirstLevelOf.
  rewrite first_level_of_fold, SubTree_subtree_of, Size_subtree_of.
  destruct (Strings.Contains seg "."), (existsb _ (o m)); simpl; split;
    try done; try (by intros (? & ? & ?)).
  - by intros [= <-].
  - by intros (_ & _ & ->).
Qed.

End first_level.

(** ** Loading lines *)

Section loading.

Implicit Types (m : Map) (key value line osSuffix : string).

Lemma cut_None sep s :
  StringsExt.cut sep s = None ↔ Strings.Contains s (String sep EmptyString) = false.
Proof.
  induction s as [|c s IH]; [done|].
  rewrite cut_cons, Contains_cons, HasPrefix_single, (Ascii.eqb_sym sep c).
  destruct (Ascii.eqb c sep); simpl; [by split|].
  rewrite <- IH. destruct (StringsExt.cut sep s) as [[a b]|]; by split.
Qed.

Lemma parseLine_malformed osSuffix m line :
  parseLine osSuffix m line =
  if malformed line then (m, Some "invalid line format, should be 'key=value'")
  else (fst (parseLine osSuffix m line), None).
Proof.
  unfold parseLine, malformed.
  destruct (StringsExt.TrimSpace line) as [|c rest]; [done|].
  destruct (Ascii.eqb c "#"); [done|]. simpl negb at 1. rewrite andb_true_l.
  unfold StringsExt.SplitN2.
  destruct (StringsExt.cut "=" (String c rest)) as [[k v]|] eqn:Hcut.
  - destruct (Strings.Contains (String c rest) "=") eqn:Hc; [done|].
    apply cut_None in Hc. congruence.
  - apply cut_None in Hcut. by rewrite Hcut.
Qed.

Lemma load_lines_error osSuffix lines : ∀ m,
  load_lines osSuffix m lines = None ↔ ∃ line, line ∈ lines ∧ malformed line = true.
Proof.
  induction lines as [|line lines IH]; intros m; simpl.
  - split; [done|]. by intros (line & ?%elem_of_nil & _).
  - rewrite parseLine_malformed.
    destruct (malformed line) eqn:Hline.
    + split; [|done]. intros _. exists line. split; [left | done].
    + rewrite IH. split.
      * intros (l & Hin & Hl). exists l. split; [by right | done].
      * intros (l & [->|Hin]%elem_of_cons & Hl); [congruence|]. by exists l.
Qed.

Lemma load_lines_ordered osSuffix lines : ∀ m m',
  ordered m → load_lines osSuffix m lines = Some m' → ordered m'.
Proof.
  induction lines as [|line lines IH]; intros m m' Hm; simpl.
  - by intros [= <-].
  - pose proof (ordered_parseLine osSuffix m line Hm) as Hm1.
    destruct (parseLine osSuffix m line) as [m1 [err|]]; [done|].
    by apply IH.
Qed.

(** X12: [LoadFromSlice] returns no map exactly when one of the lines is
    malformed, that is, when after trimming it is not empty, is not a
    comment and has no equals sign; blank lines and comments never fail,
    whatever the platform suffix, and [parseLine] leaves the map as it is
    on them.  A map that is returned satisfies the order invariant. *)
Theorem LoadFromSlice_error osSuffix lines :
  (LoadFromSlice osSuffix lines = None
   ↔ ∃ line, line ∈ lines ∧ malformed line = true)
  ∧ (∀ m, LoadFromSlice osSuffix lines = Some m → ordered m)
  ∧ (∀ m line, StringsExt.TrimSpace line = EmptyString
               ∨ Strings.HasPrefix (StringsExt.TrimSpace line) "#" = true →
               parseLine osSuffix m line = (m, None)).
Proof.
  unfold LoadFromSlice. split; [|split].
  - apply load_lines_error.
  - intros m. apply load_lines_ordered, ordered_NewMap.
  - intros m line Hline. unfold parseLine.
    destruct (StringsExt.TrimSpace line) as [|c rest]; [done|].
    destruct Hline as [?|Hc]; [done|].
    rewrite HasPrefix_single in Hc. by rewrite Ascii.eqb_sym, Hc.
Qed.

Lemma get_last c t : String.get (String.length t) (String c t) = Some (last_byte c t).
Proof.
  revert c. induction t as [|c' t IH]; intros c; [done|]. simpl. apply IH.
Qed.

Lemma last_byte_append c t d u : last_byte c (t +:+ String d u) = last_byte d u.
Proof.
  revert c. induction t as [|c' t IH]; intros c; [done|].
  rewrite append_cons. simpl. apply IH.
Qed.

Lemma edge_byte_spec c :
  edge_byte c = true →
  Utf8.byte_of c < Utf8.RuneSelf ∧ Utf8.IsSpace (Utf8.byte_of c) = false.
Proof.
  unfold edge_byte. intros [Hlt Hsp]%andb_true_iff.
  split; [by apply Z.ltb_lt | by apply negb_true_iff].
Qed.

Lemma trim_left_edge fuel c t :
  edge_byte c = true → StringsExt.trim_left fuel (String c t) = String c t.
Proof.
  intros [Hlt Hsp]%edge_byte_spec. destruct fuel as [|fuel]; [done|].
  unfold StringsExt.trim_left. by rewrite decode_ascii, Hsp.
Qed.

Lemma trim_right_edge fuel c t :
  edge_byte (last_byte c t) = true →
  StringsExt.trim_right fuel (String c t) = String c t.
Proof.
  intros [Hlt Hsp]%edge_byte_spec. destruct fuel as [|fuel]; [done|].
  unfold StringsExt.trim_right.
  assert (Hlen : Strings.len (String c t) = Z.of_nat (String.length t) + 1).
  { unfold Strings.len. simpl String.length. lia. }
  rewrite Hlen.
  destruct (Z.eqb_spec (Z.of_nat (String.length t) + 1) 0) as [?|_]; [lia|].
  assert (Hb : Utf8.byte_at (String c t) (Z.of_nat (String.length t) + 1 - 1)
               = Utf8.byte_of (last_byte c t)).
  { unfold Utf8.byte_at.
    replace (Z.to_nat (Z.of_nat (String.length t) + 1 - 1)) with (String.length t) by lia.
    by rewrite get_last. }
  rewrite Hb.
  destruct (Z.ltb_spec (Utf8.byte_of (last_byte c t)) Utf8.RuneSelf) as [_|?]; [|lia].
  by rewrite Hsp.
Qed.

Lemma tight_cons c t : tight (String c t) = edge_byte c && edge_byte (last_byte c t).
Proof. reflexivity. Qed.

Lemma TrimSpace_tight s : tight s = true → StringsExt.TrimSpace s = s.
Proof.
  destruct s as [|c t]; [done|]. rewrite tight_cons.
  intros [Hc Hl]%andb_true_iff.
  unfold StringsExt.TrimSpace. rewrite trim_left_edge by done.
  by apply trim_right_edge.
Qed.

Lemma tight_line key value :
  tight key = true → tight value = true → tight (key +:+ "=" +:+ value) = true.
Proof.
  intros Hk Hv.
  assert (Hend : ∀ c t, edge_byte (last_byte c (t +:+ "=" +:+ value)) = true).
  { intros c t. change (t +:+ "=" +:+ value) with (t +:+ String "=" value).
    rewrite last_byte_append. destruct value as [|d u]; [done|].
    rewrite tight_cons in Hv. by apply andb_true_iff in Hv as [_ ?]. }
  destruct key as [|c t].
  - rewrite append_nil_l. change ("=" +:+ value) with (String "=" value).
    rewrite tight_cons. apply andb_true_iff. split; [done|].
    apply (Hend "="%char EmptyString).
  - rewrite append_cons, tight_cons. rewrite tight_cons in Hk.
    apply andb_true_iff in Hk as [Hc _].
    apply andb_true_iff. split; [done|]. apply Hend.
Qed.

Lemma cut_first sep s rest :
  Strings.Contains s (String sep EmptyString) = false →
  StringsExt.cut sep (s +:+ String sep rest) = Some (s, rest).
Proof.
  induction s as [|c s IH].
  - intros _. rewrite append_nil_l, cut_cons. by rewrite Ascii.eqb_refl.
  - rewrite Contains_cons, HasPrefix_single, append_cons, cut_cons.
    intros [Hc Hs]%orb_false_iff. rewrite (Ascii.eqb_sym c sep), Hc.
    by rewrite IH.
Qed.

Lemma parseLine_plain osSuffix m key value :
  plain_entry osSuffix key value = true →
  parseLine osSuffix m (key +:+ "=" +:+ value) = (Set_ m key value, None).
Proof.
  unfold plain_entry. rewrite !andb_true_iff, !negb_true_iff.
  intros [[[[Hk Hv] Heq] Hhash] Hmark].
  unfold parseLine. rewrite (TrimSpace_tight _ (tight_line _ _ Hk Hv)).
  assert (Hcut : StringsExt.cut "=" (key +:+ "=" +:+ value) = Some (key, value)).
  { change (key +:+ "=" +:+ value) with (key +:+ String "=" value).
    by apply cut_first. }
  destruct (key +:+ "=" +:+ value) as [|c rest] eqn:Hline.
  { by destruct key. }
  assert (Hc : Ascii.eqb c "#" = false).
  { destruct key as [|c' t].
    - rewrite append_nil_l in Hline. by injection Hline as <- _.
    - rewrite append_cons in Hline. injection Hline as <- _.
      rewrite HasPrefix_single in Hhash. by rewrite Ascii.eqb_sym. }
  rewrite Hc. unfold StringsExt.SplitN2. rewrite Hcut.
  rewrite !TrimSpace_tight by done. by rewrite Replace_absent.
Qed.

Lemma load_lines_plain osSuffix (source : Map) (keys : list string) : ∀ m,
  (∀ key, key ∈ keys → plain_entry osSuffix key (Get source key) = true) →
  load_lines osSuffix m ((fun key => key +:+ "=" +:+ Get source key) <$> keys)
  = Some (set_all ((fun key => (key, Get source key)) <$> keys) m).
Proof.
  induction keys as [|key keys IH]; intros m Hplain; [done|].
  csimpl. rewrite parseLine_plain by (apply Hplain; left).
  rewrite IH; [done|]. intros k Hk. apply Hplain. by right.
Qed.

(** X13: when every key of a map and its value are plain (tight, a key
    without equals sign, comment mark and platform marker), the lines of
    [AsSlice] load back with [LoadFromSlice] as a map with the same bindings
    and the same order of keys. *)
Theorem AsSlice_LoadFromSlice osSuffix m :
  ordered m →
  (∀ key, key ∈ Keys m → plain_entry osSuffix key (Get m key) = true) →
  ∃ m', LoadFromSlice osSuffix (AsSlice m) = Some m'
        ∧ kv m' = kv m ∧ Keys m' = Keys m
        ∧ EqualsWithOrder m' m = true.
Proof.
  intros Hm Hplain. exists (Clone m).
  destruct (Clone_same m Hm) as [Hkv Ho].
  split; [|split; [done|split; [done|]]]; last first.
  { unfold EqualsWithOrder. by rewrite Hkv, Ho, !bool_decide_eq_true_2. }
  unfold LoadFromSlice, AsSlice.
  change (map (fun key => key +:+ "=" +:+ Get m key) (o m))
    with ((fun key => key +:+ "=" +:+ Get m key) <$> o m).
  rewrite (load_lines_plain osSuffix m (o m) NewMap Hplain).
  by rewrite <- merge_one_set_all.
Qed.

Lemma AsSlice_LoadFromSlice_witness :
  ∃ m', LoadFromSlice "linux" (AsSlice sette) = Some m'
        ∧ kv m' = kv sette ∧ Keys m' = Keys sette
        ∧ EqualsWithOrder m' sette = true.
Proof.
  apply (AsSlice_LoadFromSlice "linux" sette).
  - unfold sette. repeat apply ordered_Set. apply ordered_NewMap.
  - intros key Hkey.
    assert (Hkeys : Keys sette = ["sette.discovery.something.01";
              "sette.discovery.something.2"; "sette.discovery.something.05";
              "sette.discovery.something.5"]) by by vm_compute.
    rewrite Hkeys in Hkey.
    repeat (apply elem_of_cons in Hkey as [-> |Hkey]; [by vm_compute|]).
    by apply elem_of_nil in Hkey.
Defined.

End loading.

(** ** [toUtf8] and [LoadFromBytes] *)

Section bytes.

Lemma runes_from_encode_byte b rest fuel :
  Utf8.runes_from (S fuel) (Utf8.encode (Utf8.byte_of b) +:+ rest)
  = (Utf8.byte_of b, String.length (Utf8.encode (Utf8.byte_of b)), true)
    :: Utf8.runes_from fuel rest.
Proof. by destruct b as [[] [] [] [] [] [] [] []]. Qed.

Lemma length_encode_byte b :
  (1 ≤ String.length (Utf8.encode (Utf8.byte_of b)))%nat.
Proof. destruct b as [[] [] [] [] [] [] [] []]; vm_compute; lia. Qed.

Lemma runes_from_toUtf8 buf : ∀ fuel,
  (String.length (toUtf8 buf) ≤ fuel)%nat →
  Utf8.runes_from fuel (toUtf8 buf)
  = (fun b => (Utf8.byte_of b, String.length (Utf8.encode (Utf8.byte_of b)), true))
      <$> list_ascii_of_string buf.
Proof.
  induction buf as [|b buf IH]; intros fuel Hfuel.
  - by destruct fuel.
  - simpl toUtf8 in *. rewrite length_append in Hfuel.
    pose proof (length_encode_byte b).
    destruct fuel as [|fuel]; [lia|].
    rewrite runes_from_encode_byte. csimpl. f_equal. apply IH. lia.
Qed.

(** X14: the text that [toUtf8] makes of a sequence of bytes is always
    valid UTF-8, and its runes are the bytes of the sequence, one rune for
    each byte. *)
Theorem toUtf8_runes buf :
  Utf8.ValidString (toUtf8 buf) = true
  ∧ Utf8.runes (toUtf8 buf) = Utf8.byte_of <$> list_ascii_of_string buf.
Proof.
  unfold Utf8.ValidString, Utf8.runes.
  rewrite runes_from_toUtf8 by done. split.
  - apply forallb_forall. intros x Hx%list_elem_of_In.
    by apply list_elem_of_fmap in Hx as (b & -> & _).
  - change (map ?f ?l) with (f <$> l). rewrite <- list_fmap_compose.
    by apply list_fmap_ext.
Qed.

Import Strings.

Lemma Contains_HasPrefix_mono s a b :
  HasPrefix s (a +:+ b) = true → HasPrefix s a = true.
Proof. rewrite HasPrefix_app. by intros [? _]%andb_true_iff. Qed.

Lemma Contains_mono s a b : Contains s a = false → Contains s (a +:+ b) = false.
Proof.
  induction s as [|c s IH].
  - simpl. destruct a; [done|]. by rewrite append_cons.
  - rewrite !Contains_cons. intros [Hp Hs]%orb_false_iff.
    rewrite IH by done. rewrite orb_false_r.
    destruct (HasPrefix (String c s) (a +:+ b)) eqn:Hab; [|done].
    apply Contains_HasPrefix_mono in Hab. congruence.
Qed.

(** Writing the line ends as CR LF and reading them back. *)
Lemma replace_from_CRLF_LF s :
  Contains s CR = false →
  replace_from 0 None CRLF LF (replace_from 0 None LF CRLF s) = s.
Proof.
  assert (Hnil : ∀ t, HasPrefix t EmptyString = true) by by intros [].
  induction s as [|c s IH]; [done|].
  rewrite Contains_cons. intros [Hc Hs]%orb_false_iff.
  unfold CR in Hc. rewrite HasPrefix_single in Hc.
  rewrite replace_from_cons.
  change (HasPrefix (String c s) LF) with (Ascii.eqb "010" c && HasPrefix s EmptyString).
  rewrite Hnil, andb_true_r.
  destruct (Ascii.eqb_spec "010" c) as [<-|Hne].
  - change (Nat.pred (String.length LF)) with 0%nat.
    change (option_map Nat.pred None) with (@None nat).
    change (CRLF +:+ replace_from 0 None LF CRLF s)
      with (String "013" (String "010" (replace_from 0 None LF CRLF s))).
    rewrite replace_from_cons.
    change (HasPrefix (String "013" (String "010" (replace_from 0 None LF CRLF s))) CRLF)
      with (HasPrefix (replace_from 0 None LF CRLF s) EmptyString).
    rewrite Hnil. change (Nat.pred (String.length CRLF)) with 1%nat.
    change (option_map Nat.pred None) with (@None nat).
    rewrite replace_from_skip, IH by done. done.
  - rewrite replace_from_cons.
    change (HasPrefix (String c (replace_from 0 None LF CRLF s)) CRLF)
      with (Ascii.eqb "013" c
            && HasPrefix (replace_from 0 None LF CRLF s) (String "010" EmptyString)).
    rewrite Hc, andb_false_l. by rewrite IH.
Qed.

Lemma Replace_CRLF_LF s :
  Contains s CR = false →
  Replace (Replace s LF CRLF (-1)) CRLF LF (-1) = s.
Proof.
  intros Hs. unfold Replace.
  change (String.eqb LF CRLF) with false. change (String.eqb CRLF LF) with false.
  change (Z.eqb (-1) 0) with false. change (Z.ltb (-1) 0) with true.
  by apply replace_from_CRLF_LF.
Qed.

(** X15: a text without carriage return loads in the same way when its
    line ends are written as CR LF, provided that both forms are valid
    UTF-8. *)
Theorem LoadFromBytes_CRLF osSuffix text :
  Contains text CR = false →
  Utf8.ValidString text = true →
  Utf8.ValidString (Replace text LF CRLF (-1)) = true →
  LoadFromBytes osSuffix (Replace text LF CRLF (-1)) = LoadFromBytes osSuffix text.
Proof.
  intros Hcr Hvalid Hvalid'. unfold LoadFromBytes.
  rewrite Hvalid, Hvalid'. rewrite Replace_CRLF_LF by done.
  rewrite (Replace_absent text CRLF) by (apply (Contains_mono text CR LF Hcr)).
  done.
Qed.

Lemma LoadFromBytes_CRLF_witness :
  LoadFromBytes "linux" (Replace (String "a" (String "=" (String "1" LF))) LF CRLF (-1))
  = LoadFromBytes "linux" (String "a" (String "=" (String "1" LF))).
Proof.
  apply (LoadFromBytes_CRLF "linux" (String "a" (String "=" (String "1" LF))));
    by vm_compute.
Defined.

End bytes.

(** ** The result of [ExtractSubIndexSets] *)

Section sub_index_sets.

Import Strconv.

Lemma indexed_subtrees_cons m idx idxs :
  indexed_subtrees m (idx :: idxs) =
  if Z.ltb 0 (Size (SubTree m (Itoa idx)))
  then SubTree m (Itoa idx) :: indexed_subtrees m idxs
  else indexed_subtrees m idxs.
Proof. reflexivity. Qed.

(** From the index [i] on the scan collects the sub-trees that are not
    empty, up to the first gap [B]. *)
Lemma scan_indexed_collects m (B : nat) :
  (1 ≤ B)%nat → Size (SubTree m (Itoa (Z.of_nat B))) = 0 →
  (∀ j, 1 ≤ j < Z.of_nat B → has_index m j) →
  ∀ (k i : nat) have res fuel,
    (i + k = B)%nat → (k < fuel)%nat →
    scan_indexed fuel m (Z.of_nat i) have res
    = Some (res ++ indexed_subtrees m (Z.of_nat <$> seq i k),
            have || negb (bool_decide (indexed_subtrees m (Z.of_nat <$> seq i k) = [])),
            Z.of_nat B + 1).
Proof.
  intros HB Hgap Hfull.
  induction k as [|k IH]; intros i have res fuel Hik Hfuel;
    (destruct fuel as [|fuel]; [lia|]); simpl scan_indexed.
  - assert (i = B) as -> by lia. rewrite Hgap. simpl.
    destruct (Z.ltb_spec 1 (Z.of_nat B + 1)) as [_|?]; [|lia].
    by rewrite app_nil_r, orb_false_r.
  - csimpl. rewrite indexed_subtrees_cons.
    replace (Z.of_nat i + 1) with (Z.of_nat (S i)) by lia.
    destruct (Z.ltb_spec 0 (Size (SubTree m (Itoa (Z.of_nat i))))) as [Hin|Hout].
    + rewrite IH by lia. rewrite <- app_assoc. simpl.
      by rewrite orb_true_r.
    + destruct (Z.ltb_spec 1 (Z.of_nat (S i))) as [Hpos|Hzero].
      { assert (has_index m (Z.of_nat i)) by (apply Hfull; lia).
        unfold has_index in *. lia. }
      by rewrite IH by lia.
Qed.

(** X16: when [subTree(root)] is empty the result of [ExtractSubIndexSets]
    is empty.  Otherwise, with [n] the first index from 1 on whose sub-tree
    is empty, the result lists the sub-trees of the indexes [0 .. n-1] that
    are not empty, in the order of the indexes, and the sub-trees of larger
    indexes are not looked at; when that list is empty, the result is the
    whole [subTree(root)] alone. *)
Theorem ExtractSubIndexSets_result m root :
  let portIDPropsSet := SubTree m root in
  ∃ n : nat,
    (1 ≤ n ≤ length (Keys portIDPropsSet) + 1)%nat
    ∧ Size (SubTree portIDPropsSet (Itoa (Z.of_nat n))) = 0
    ∧ (∀ j, 1 ≤ j < Z.of_nat n → has_index portIDPropsSet j)
    ∧ ∀ fuel, (n < fuel)%nat →
        ExtractSubIndexSets fuel m root =
        Some (if Z.eqb (Size portIDPropsSet) 0 then []
              else match indexed_subtrees portIDPropsSet (indexes_below n) with
                   | [] => [portIDPropsSet]
                   | found => found
                   end).
Proof.
  intros sub.
  destruct (first_gap sub) as (B & HB & Hgap & Hfull).
  exists (Z.to_nat B). rewrite Z2Nat.id by lia.
  split; [unfold Keys; lia|]. split; [done|]. split; [done|].
  intros fuel Hfuel. unfold ExtractSubIndexSets. fold sub.
  destruct (Z.eqb (Size sub) 0); [done|].
  change 0 with (Z.of_nat 0) at 1.
  rewrite (scan_indexed_collects sub (Z.to_nat B) ltac:(lia)
             ltac:(by rewrite Z2Nat.id by lia)
             ltac:(by rewrite Z2Nat.id by lia)
             (Z.to_nat B) 0%nat false [] fuel ltac:(lia) Hfuel).
  simpl. unfold indexes_below.
  by destruct (indexed_subtrees sub (Z.of_nat <$> seq 0 (Z.to_nat B))).
Qed.

Lemma ExtractSubIndexSets_result_witness :
  ∃ n : nat,
    (1 ≤ n ≤ length (Keys (SubTree sette "sette.discovery")) + 1)%nat
    ∧ Size (SubTree (SubTree sette "sette.discovery") (Itoa (Z.of_nat n))) = 0
    ∧ (∀ j, 1 ≤ j < Z.of_nat n → has_index (SubTree sette "sette.discovery") j)
    ∧ ∀ fuel, (n < fuel)%nat →
        ExtractSubIndexSets fuel sette "sette.discovery" =
        Some (if Z.eqb (Size (SubTree sette "sette.discovery")) 0 then []
              else match indexed_subtrees (SubTree sette "sette.discovery")
                           (indexes_below n) with
                   | [] => [SubTree sette "sette.discovery"]
                   | found => found
                   end).
Proof. exact (ExtractSubIndexSets_result sette "sette.discovery"). Defined.

End sub_index_sets.

(** ** The tokenizer on input without quotes *)

Section unquoted.

Context (quoteChars : string) (acceptEmptyArguments : bool).

Lemma split_loop_unquoted pieces : ∀ res arg,
  (∀ piece, piece ∈ pieces → isQuote quoteChars (fst (firstRune piece)) = false) →
  split_loop quoteChars acceptEmptyArguments pieces (mkSplit res 0 arg)
  = mkSplit (res ++ List.filter (kept acceptEmptyArguments) pieces) 0 arg.
Proof.
  unfold split_loop.
  induction pieces as [|piece pieces IH]; intros res arg Hpieces; simpl.
  - by rewrite app_nil_r.
  - unfold split_step at 2. simpl.
    pose proof (Hpieces piece ltac:(left)) as Hq.
    destruct (firstRune piece) as [first size]. simpl in Hq. rewrite Hq. simpl.
    unfold kept at 1.
    destruct (acceptEmptyArguments
              || Z.ltb 0 (Strings.len (StringsExt.TrimSpace piece))).
    + rewrite IH by (intros p Hp; apply Hpieces; by right).
      by rewrite <- app_assoc.
    + apply IH. intros p Hp. apply Hpieces. by right.
Qed.

(** X17: when no element of the split on spaces begins with a quote
    character, and in particular when there is no quote character at all,
    [SplitQuotedString] returns the elements of the split that it keeps
    (all of them, or the ones that are not blank), in their order, and no
    error. *)
Theorem SplitQuotedString_unquoted src :
  (∀ piece, piece ∈ StringsExt.Split src " " →
            isQuote quoteChars (fst (firstRune piece)) = false) →
  SplitQuotedString src quoteChars acceptEmptyArguments
  = (List.filter (kept acceptEmptyArguments) (StringsExt.Split src " "), None).
Proof.
  intros Hpieces. unfold SplitQuotedString.
  by rewrite split_loop_unquoted.
Qed.

End unquoted.

Lemma SplitQuotedString_unquoted_witness :
  SplitQuotedString "avrdude  -v" "'" false
  = (List.filter (kept false) (StringsExt.Split "avrdude  -v" " "), None).
Proof.
  apply (SplitQuotedString_unquoted "'" false "avrdude  -v").
  intros piece Hpiece.
  assert (Hsplit : StringsExt.Split "avrdude  -v" " " = ["avrdude"; EmptyString; "-v"])
    by by vm_compute.
  rewrite Hsplit in Hpiece.
  repeat (apply elem_of_cons in Hpiece as [-> |Hpiece]; [by vm_compute|]).
  by apply elem_of_nil in Hpiece.
Defined.

(** ** More on the expansion *)

Section expansion_more.

Implicit Types (order : nat → list (string * string)) (str : string).

(** X18: when the expansion stops before its tenth pass, the string that
    it returns is left unchanged by a further pass in the order of the last
    pass made: no marker that this pass replaces by something else is left
    in it. *)
Theorem expandProps_fixed_point order str :
  (snd (expand_loop order 10 0 str) < 10)%nat →
  expand_pass (order (snd (expand_loop order 10 0 str) - 1)%nat) (expandProps order str)
  = expandProps order str.
Proof. intros Hlt. unfold expandProps. by apply expand_loop_fixed_point. Qed.

Lemma expandProps_fixed_point_witness :
  expand_pass [("key2", "{key2}"); ("key1", "42")]
    (expandProps (fun _ => [("key2", "{key2}"); ("key1", "42")])
       "{key1} == {key2} == true")
  = expandProps (fun _ => [("key2", "{key2}"); ("key1", "42")])
      "{key1} == {key2} == true".
Proof.
  apply (expandProps_fixed_point (fun _ => [("key2", "{key2}"); ("key1", "42")])
           "{key1} == {key2} == true").
  vm_compute. lia.
Defined.

Lemma find_token_absent fuel rand : ∀ i xm str token,
  find_token fuel rand i xm str = Some token →
  Strings.Contains str token = false.
Proof.
  induction fuel as [|fuel IH]; intros i xm str token; simpl; [done|].
  destruct (Strings.Contains str (Strconv.Itoa (rand i))) eqn:Hc; [apply IH|].
  destruct (ContainsKey xm (Strconv.Itoa (rand i))); [apply IH|].
  destruct (ContainsValue xm (Strconv.Itoa (rand i))); [apply IH|].
  by intros [= <-].
Qed.

(** X19: a property is reported as not missing when the string refers
    neither to it nor to a key of the map: if no marker of a key of the map
    and no marker of [prop] occurs in [str], the answer is [false] whenever
    the search for a token ends, whatever the random numbers and the order
    of iteration. *)
Theorem IsPropertyMissing_unreferenced fuel rand
    (orders : Map → nat → list (string * string)) m prop str token :
  ordered m →
  (∀ xm, iteration_order xm (orders xm)) →
  (∀ key, is_Some (kv m !! key) ∨ key = prop →
          Strings.Contains str ("{" +:+ key +:+ "}") = false) →
  find_token fuel rand 0 (Clone m) str = Some token →
  IsPropertyMissingInExpandPropsInString fuel rand orders m prop str = Some false.
Proof.
  intros Hm Horder Hno Hfind. unfold IsPropertyMissingInExpandPropsInString.
  destruct (ContainsKey m prop); [done|].
  rewrite Hfind. f_equal.
  assert (Hexp : expandProps (orders (Set_ (Clone m) prop token)) str = str).
  { unfold expandProps. rewrite expand_loop_step.
    rewrite expand_pass_unmarked, String.eqb_refl; [done|].
    intros key value Hin. apply Hno.
    rewrite (Horder (Set_ (Clone m) prop token) 0%nat) in Hin.
    apply elem_of_map_to_list in Hin. rewrite kv_Set in Hin.
    destruct (decide (prop = key)) as [->|Hne]; [by right|].
    rewrite lookup_insert_ne in Hin by done.
    destruct (Clone_same m Hm) as [Hkv _]. rewrite Hkv in Hin.
    left. by exists value. }
  rewrite Hexp. by eapply find_token_absent.
Qed.

Lemma IsPropertyMissing_unreferenced_witness :
  IsPropertyMissingInExpandPropsInString 1 (fun _ => 4242)
    (fun xm _ => map_to_list (kv xm)) cyclic "c" "{d} and a" = Some false.
Proof.
  apply (IsPropertyMissing_unreferenced 1 (fun _ => 4242)
           (fun xm _ => map_to_list (kv xm)) cyclic "c" "{d} and a" "4242").
  - unfold cyclic. repeat apply ordered_Set. apply ordered_NewMap.
  - intros xm i. done.
  - intros key [[value Hkey]| ->]; [|by vm_compute].
    apply elem_of_map_to_list in Hkey. rewrite cyclic_entries in Hkey.
    repeat (apply elem_of_cons in Hkey as [[= -> ->]|Hkey]; [by vm_compute|]).
    by apply elem_of_nil in Hkey.
  - by vm_compute.
Defined.

End expansion_more.
